(** * A shallow embedding of the GoQuant matching engine

    The development follows the Python sources file by file:
    [utils.py], [models.py], [orderbook.py], [engine.py] and the snapshot
    exchanged with [persistence.py].  Mutable objects are modelled by explicit
    state passing: a method that mutates [self] returns the new [self].

    Conventions.
    - A [Decimal] is an exact decimal number.  The model stores it as an
      integer that counts units of [10^-DEC_PLACES]; sums, differences,
      [min] and comparisons are then exact, as they are in the source for
      amounts that fit the 28 digit context.
    - An [Order] object that the source mutates in place (the head of a
      level queue, the incoming order) is replaced, in the model, at the
      place where the object lives.
    - Dictionaries that the source only looks up ([order_index],
      [order_symbol_index]) are finite maps; dictionaries that the source
      iterates ([books], [triggers], [recent_trades]) keep insertion order.
    - Logging, locks and the broadcast tasks have no effect on the engine
      state and are left out; the trigger scan that a print schedules with
      [asyncio.create_task] is the separate operation [process_triggers]. *)

From stdpp Require Import base option list sorting gmap strings.
From Stdlib Require Import ZArith Lia DecimalString DecimalNat.
Open Scope Z_scope.

(** ** utils.py *)

Definition Decimal : Type := Z.

Definition DEC_PLACES : Z := 12.

(** [Decimal("1")] in model units. *)
Definition DEC_UNIT : Z := 10 ^ DEC_PLACES.

(** [_DECIMAL_QUANT = Decimal("0.00000001")] in model units. *)
Definition _DECIMAL_QUANT : Z := 10 ^ (DEC_PLACES - 8).

(** An integer amount as a [Decimal], e.g. [dec 100] for [Decimal("100")]. *)
Definition dec (n : Z) : Decimal := n * DEC_UNIT.

(** [num / den] rounded to an integer under [ROUND_HALF_UP] (ties go away
    from zero); [den] is positive. *)
Definition round_half_up (num den : Z) : Z :=
  Z.sgn num * ((2 * Z.abs num + den) / (2 * den)).

Definition quantize_8 (d : Decimal) : Decimal :=
  round_half_up d _DECIMAL_QUANT * _DECIMAL_QUANT.

(** [as_decimal]: [None] reads as zero. *)
Definition as_decimal (value : option Decimal) : Decimal :=
  match value with
  | None => 0
  | Some d => d
  end.

(** [next_id prefix] with the module counter at [n]: the id is
    [f"{prefix}_{n}"]; the caller stores [S n] as the new counter. *)
Definition next_id (prefix : string) (n : nat) : string :=
  prefix +:+ "_" +:+ NilEmpty.string_of_uint (Nat.to_uint n).

(** ** Exceptions raised by the modelled code *)

Inductive exn : Type :=
  | AssertionError
  | TypeError
  | KeyError.

Inductive result (A : Type) : Type :=
  | Ok (a : A)
  | Raise (e : exn).

Arguments Ok {A} a.
Arguments Raise {A} e.

Definition is_ok {A : Type} (r : result A) : bool :=
  match r with
  | Ok _ => true
  | Raise _ => false
  end.

(** ** models.py *)

Inductive Side : Type :=
  | buy
  | sell.

Inductive OrderType : Type :=
  | market
  | limit
  | ioc
  | fok
  | stop
  | stop_limit
  | take_profit.

#[global] Instance Side_eq_dec : EqDecision Side.
Proof. solve_decision. Defined.

#[global] Instance OrderType_eq_dec : EqDecision OrderType.
Proof. solve_decision. Defined.

Record Order : Type := mkOrder {
  order_id : string;
  symbol : string;
  side : Side;
  type : OrderType;
  quantity : Decimal;
  remaining : Decimal;
  price : option Decimal;
  timestamp : string;
  client_order_id : option string;
  stop_price : option Decimal;
  take_profit_price : option Decimal;
  user_id : option string
}.

(** The dataclass [__eq__] compares all fields; [list.remove] relies on it. *)
#[global] Instance Order_eq_dec : EqDecision Order.
Proof. solve_decision. Defined.

(** [o.remaining = r] *)
Definition set_remaining (o : Order) (r : Decimal) : Order :=
  mkOrder (order_id o) (symbol o) (side o) (type o) (quantity o) r (price o)
    (timestamp o) (client_order_id o) (stop_price o) (take_profit_price o)
    (user_id o).

(** [o.type = t] *)
Definition set_type (o : Order) (t : OrderType) : Order :=
  mkOrder (order_id o) (symbol o) (side o) t (quantity o) (remaining o)
    (price o) (timestamp o) (client_order_id o) (stop_price o)
    (take_profit_price o) (user_id o).

Record Trade : Type := mkTrade {
  trade_id : string;
  tr_symbol : string;
  tr_price : Decimal;
  tr_quantity : Decimal;
  aggressor_side : Side;
  maker_order_id : string;
  taker_order_id : string;
  tr_timestamp : string;
  maker_fee : Decimal;
  taker_fee : Decimal
}.

(** [Level]: an aggregated price level as reported by [bbo]. *)
Record Level : Type := mkLevel {
  lv_price : Decimal;
  lv_quantity : Decimal
}.

Record BBO : Type := mkBBO {
  bbo_symbol : string;
  bbo_bid : option Level;
  bbo_ask : option Level;
  bbo_timestamp : string
}.

Record OrderRequest : Type := mkOrderRequest {
  req_symbol : string;
  req_side : Side;
  req_type : OrderType;
  req_quantity : Decimal;
  req_price : option Decimal;
  req_client_order_id : option string;
  req_stop_price : option Decimal;
  req_take_profit_price : option Decimal
}.

(** ** Insertion-ordered dictionaries keyed by symbol *)

Section Dict.
Context {V : Type}.

Definition dict : Type := list (string * V).

(** [d.get(k)] *)
Fixpoint dict_get (k : string) (d : dict) : option V :=
  match d with
  | [] => None
  | (k', v) :: rest => if decide (k = k') then Some v else dict_get k rest
  end.

(** [d[k] = v]: an existing key keeps its position. *)
Fixpoint dict_set (k : string) (v : V) (d : dict) : dict :=
  match d with
  | [] => [(k, v)]
  | (k', v') :: rest =>
      if decide (k = k') then (k, v) :: rest
      else (k', v') :: dict_set k v rest
  end.

(** The lookup of a [defaultdict]: reading a missing key inserts the
    default at the end. *)
Definition dict_default (k : string) (v0 : V) (d : dict) : dict :=
  match dict_get k d with
  | Some _ => d
  | None => d ++ [(k, v0)]
  end.
End Dict.

Arguments dict V : clear implicits.

(** ** orderbook.py *)

Record PriceLevel : Type := mkPriceLevel {
  pl_price : Decimal;
  queue : list Order
}.

(** [PriceLevel.total_quantity] *)
Definition total_quantity (lvl : PriceLevel) : Decimal :=
  foldl (fun qty o => qty + remaining o) 0 (queue lvl).

(** [level.queue = q] *)
Definition set_queue (q : list Order) (lvl : PriceLevel) : PriceLevel :=
  mkPriceLevel (pl_price lvl) q.

(** A [SortedDict] from price to [PriceLevel].  The only level ever stored
    under a key [p] is created as [PriceLevel(p, deque())], so the key is
    the level's own price: the model keeps the levels in ascending order of
    [pl_price] and reads the key off the level. *)
Definition SortedDict : Type := list PriceLevel.

(** [book.get(p)] *)
Fixpoint sd_get (p : Decimal) (sd : SortedDict) : option PriceLevel :=
  match sd with
  | [] => None
  | lvl :: rest => if decide (pl_price lvl = p) then Some lvl else sd_get p rest
  end.

(** [book[lvl.price] = lvl] *)
Fixpoint sd_set (lvl : PriceLevel) (sd : SortedDict) : SortedDict :=
  match sd with
  | [] => [lvl]
  | l :: rest =>
      if decide (pl_price lvl < pl_price l) then lvl :: l :: rest
      else if decide (pl_price lvl = pl_price l) then lvl :: rest
      else l :: sd_set lvl rest
  end.

(** In-place mutation [f] of the level stored under [p]. *)
Fixpoint sd_alter (f : PriceLevel -> PriceLevel) (p : Decimal)
    (sd : SortedDict) : SortedDict :=
  match sd with
  | [] => []
  | l :: rest =>
      if decide (pl_price l = p) then f l :: rest
      else l :: sd_alter f p rest
  end.

(** [del book[p]] and [book.pop(p, None)]; every [del] of the source is
    applied to a key that was just read from the dictionary. *)
Fixpoint sd_del (p : Decimal) (sd : SortedDict) : SortedDict :=
  match sd with
  | [] => []
  | l :: rest =>
      if decide (pl_price l = p) then rest else l :: sd_del p rest
  end.

Record OrderBook : Type := mkOrderBook {
  ob_symbol : string;
  bids : SortedDict;
  asks : SortedDict;
  order_index : gmap string (Side * Decimal);
  last_trade_price : option Decimal
}.

(** [OrderBook(symbol)] *)
Definition new_book (sym : string) : OrderBook :=
  mkOrderBook sym [] [] ∅ None.

Definition _get_side_book (b : OrderBook) (s : Side) : SortedDict :=
  match s with
  | buy => bids b
  | sell => asks b
  end.

(** Store a mutated side dictionary back into the book. *)
Definition set_side_book (b : OrderBook) (s : Side) (sd : SortedDict)
    : OrderBook :=
  match s with
  | buy => mkOrderBook (ob_symbol b) sd (asks b) (order_index b)
             (last_trade_price b)
  | sell => mkOrderBook (ob_symbol b) (bids b) sd (order_index b)
              (last_trade_price b)
  end.

Definition set_order_index (b : OrderBook) (ix : gmap string (Side * Decimal))
    : OrderBook :=
  mkOrderBook (ob_symbol b) (bids b) (asks b) ix (last_trade_price b).

Definition set_last_trade_price (b : OrderBook) (p : option Decimal)
    : OrderBook :=
  mkOrderBook (ob_symbol b) (bids b) (asks b) (order_index b) p.

(** [peekitem(-1)] on the bids. *)
Definition _best_bid (b : OrderBook) : option PriceLevel := last (bids b).

(** [peekitem(0)] on the asks. *)
Definition _best_ask (b : OrderBook) : option PriceLevel := head (asks b).

Definition best_prices (b : OrderBook) : option Decimal * option Decimal :=
  (pl_price <$> last (bids b), pl_price <$> head (asks b)).

(** [add_limit]; the [assert] on the price raises before any mutation. *)
Definition add_limit (b : OrderBook) (order : Order) : result OrderBook :=
  let book := _get_side_book b (side order) in
  match price order with
  | None => Raise AssertionError
  | Some p =>
      let book1 :=
        match sd_get p book with
        | None => sd_set (mkPriceLevel p []) book
        | Some _ => book
        end in
      let book2 := sd_alter (fun l => set_queue (queue l ++ [order]) l) p book1 in
      Ok (set_order_index (set_side_book b (side order) book2)
            (<[order_id order := (side order, p)]> (order_index b)))
  end.

(** The [while level.queue] loop of [remove_order]: the orders kept, and the
    last order met with the given id. *)
Fixpoint split_queue (oid : string) (q : list Order) (removed : option Order)
    : list Order * option Order :=
  match q with
  | [] => ([], removed)
  | o :: rest =>
      if decide (order_id o = oid) then split_queue oid rest (Some o)
      else
        let '(kept, r) := split_queue oid rest removed in
        (o :: kept, r)
  end.

Definition remove_order (b : OrderBook) (oid : string)
    : OrderBook * option Order :=
  match order_index b !! oid with
  | None => (b, None)
  | Some (sd, p) =>
      let book := _get_side_book b sd in
      match sd_get p book with
      | None => (set_order_index b (delete oid (order_index b)), None)
      | Some level =>
          let '(new_queue, removed) := split_queue oid (queue level) None in
          let book1 := sd_alter (set_queue new_queue) p book in
          let book2 :=
            match new_queue with
            | [] => sd_del p book1
            | _ :: _ => book1
            end in
          (set_order_index (set_side_book b sd book2)
             (delete oid (order_index b)), removed)
      end
  end.

(** [bbo]; [now] is the clock reading of [now_ts()]. *)
Definition bbo (b : OrderBook) (now : string) : BBO :=
  let to_level (l : PriceLevel) := mkLevel (pl_price l) (total_quantity l) in
  mkBBO (ob_symbol b) (to_level <$> _best_bid b) (to_level <$> _best_ask b) now.

(** One entry of an L2 snapshot.  The source renders both numbers with
    [str]; the model keeps the numbers. *)
Record L2Entry : Type := mkL2Entry {
  l2_price : Decimal;
  l2_quantity : Decimal
}.

(** One of the two [for] loops of [snapshot_l2]: [acc] is the list built so
    far, and the [break] test comes after the append. *)
Fixpoint snapshot_side (levels : list PriceLevel) (depth : Z)
    (acc : list L2Entry) : list L2Entry :=
  match levels with
  | [] => acc
  | level :: rest =>
      let qty := total_quantity level in
      let acc1 :=
        if decide (0 < qty)
        then acc ++ [mkL2Entry (pl_price level) (quantize_8 qty)]
        else acc in
      if decide (depth <= Z.of_nat (length acc1)) then acc1
      else snapshot_side rest depth acc1
  end.

Record L2Snapshot : Type := mkL2Snapshot {
  l2_bids : list L2Entry;
  l2_asks : list L2Entry
}.

Definition snapshot_l2 (b : OrderBook) (depth : Z) : L2Snapshot :=
  mkL2Snapshot (snapshot_side (reverse (bids b)) depth [])
               (snapshot_side (asks b) depth []).

(** *** Matching *)

Definition opposite (s : Side) : Side :=
  match s with
  | buy => sell
  | sell => buy
  end.

Definition _crossable (b : OrderBook) (incoming : Order) : bool :=
  let '(bid, ask) := best_prices b in
  if decide (type incoming = market) then
    match side incoming with
    | buy => bool_decide (is_Some ask)
    | sell => bool_decide (is_Some bid)
    end
  else
    match price incoming with
    | None => false
    | Some p =>
        match side incoming with
        | buy =>
            match ask with
            | Some a => bool_decide (a <= p)
            | None => false
            end
        | sell =>
            match bid with
            | Some bd => bool_decide (p <= bd)
            | None => false
            end
        end
    end.

(** A raw fill [(maker, taker, price, qty)].  The source stores references
    to the two orders; the model stores their values right after the fill.
    The engine later reads [order_id] and [side] from them, which matching
    never changes. *)
Definition RawTrade : Type := Order * Order * Decimal * Decimal.

(** One turn of the [while] loop of [match].  [None]: the loop is left (the
    condition is false, or the [break]).  [Some (b', incoming', t)]: the
    state after the turn, with the fill appended in this turn, if any (the
    turn that only deletes an empty level appends none). *)
Definition match_step (b : OrderBook) (incoming : Order)
    : option (OrderBook * Order * option RawTrade) :=
  if bool_decide (0 < remaining incoming) && _crossable b incoming then
    match (match side incoming with
           | buy => _best_ask b
           | sell => _best_bid b
           end) with
    | None => None
    | Some best =>
        let p := pl_price best in
        let opp := opposite (side incoming) in
        let opp_book := _get_side_book b opp in
        match queue best with
        | [] => Some (set_side_book b opp (sd_del p opp_book), incoming, None)
        | maker :: rest =>
            let qty := Z.min (remaining incoming) (remaining maker) in
            let incoming1 := set_remaining incoming (remaining incoming - qty) in
            let maker1 := set_remaining maker (remaining maker - qty) in
            let b1 :=
              set_last_trade_price
                (set_side_book b opp
                   (sd_alter (set_queue (maker1 :: rest)) p opp_book))
                (Some p) in
            let b2 :=
              if decide (remaining maker1 <= 0) then
                let popped := sd_alter (set_queue rest) p (_get_side_book b1 opp) in
                let b1' :=
                  set_order_index (set_side_book b1 opp popped)
                    (delete (order_id maker1) (order_index b1)) in
                match rest with
                | [] => set_side_book b1' opp (sd_del p popped)
                | _ :: _ => b1'
                end
              else b1 in
            Some (b2, incoming1, Some (maker1, incoming1, p, qty))
        end
    end
  else None.

Definition opt_list {A : Type} (o : option A) : list A :=
  match o with
  | Some a => [a]
  | None => []
  end.

(** The [while] loop, for at most [fuel] turns. *)
Fixpoint match_loop (fuel : nat) (b : OrderBook) (incoming : Order)
    (trades : list RawTrade) : OrderBook * Order * list RawTrade :=
  match fuel with
  | O => (b, incoming, trades)
  | S n =>
      match match_step b incoming with
      | None => (b, incoming, trades)
      | Some (b', incoming', t) => match_loop n b' incoming' (trades ++ opt_list t)
      end
  end.

(** The number of levels and of resting orders of one side. *)
Definition sd_size (sd : SortedDict) : nat :=
  (length sd + sum_list_with (fun l => length (queue l)) sd)%nat.

(** Every turn but the last removes a level or a maker from the opposite
    side, so this many turns are enough ([match_exits] below). *)
Definition match_fuel (sd : SortedDict) : nat := S (S (sd_size sd)).

(** [OrderBook.match]: the book and the incoming order after the call, and
    the list of raw fills. *)
Definition match_ (b : OrderBook) (incoming : Order)
    : OrderBook * Order * list RawTrade :=
  match_loop (match_fuel (_get_side_book b (opposite (side incoming))))
    b incoming [].

(** ** engine.py *)

Record MatchingEngine : Type := mkEngine {
  books : dict OrderBook;
  recent_trades : dict (list Trade);
  order_symbol_index : gmap string string;
  triggers : dict (list Order);
  maker_rebate_bps : Decimal;
  taker_fee_bps : Decimal;
  recent_trades_limit : nat;
  (** [utils._id_counter]: the next value it hands out. *)
  id_counter : nat
}.

(** [MatchingEngine()] with its default parameters, in a fresh process. *)
Definition new_engine : MatchingEngine :=
  mkEngine [] [] ∅ [] (- DEC_UNIT) (25 * DEC_UNIT / 10) 1000 1.

Definition set_books (st : MatchingEngine) (bs : dict OrderBook)
    : MatchingEngine :=
  mkEngine bs (recent_trades st) (order_symbol_index st) (triggers st)
    (maker_rebate_bps st) (taker_fee_bps st) (recent_trades_limit st)
    (id_counter st).

Definition set_recent_trades (st : MatchingEngine) (rt : dict (list Trade))
    : MatchingEngine :=
  mkEngine (books st) rt (order_symbol_index st) (triggers st)
    (maker_rebate_bps st) (taker_fee_bps st) (recent_trades_limit st)
    (id_counter st).

Definition set_order_symbol_index (st : MatchingEngine)
    (ix : gmap string string) : MatchingEngine :=
  mkEngine (books st) (recent_trades st) ix (triggers st)
    (maker_rebate_bps st) (taker_fee_bps st) (recent_trades_limit st)
    (id_counter st).

Definition set_triggers (st : MatchingEngine) (tg : dict (list Order))
    : MatchingEngine :=
  mkEngine (books st) (recent_trades st) (order_symbol_index st) tg
    (maker_rebate_bps st) (taker_fee_bps st) (recent_trades_limit st)
    (id_counter st).

Definition set_id_counter (st : MatchingEngine) (n : nat) : MatchingEngine :=
  mkEngine (books st) (recent_trades st) (order_symbol_index st) (triggers st)
    (maker_rebate_bps st) (taker_fee_bps st) (recent_trades_limit st) n.

(** [self.books[symbol] = book] *)
Definition put_book (st : MatchingEngine) (sym : string) (b : OrderBook)
    : MatchingEngine :=
  set_books st (dict_set sym b (books st)).

Definition _ensure_book (st : MatchingEngine) (sym : string) : MatchingEngine :=
  match dict_get sym (books st) with
  | Some _ => st
  | None => put_book st sym (new_book sym)
  end.

(** [self.triggers[symbol]], a [defaultdict(list)] lookup. *)
Definition triggers_of (st : MatchingEngine) (sym : string) : list Order :=
  default [] (dict_get sym (triggers st)).

(** [_fees]: the exact value of [price * qty * bps / 10000], quantized. *)
Definition fee (bps p qty : Decimal) : Decimal :=
  round_half_up (p * qty * bps) (10000 * DEC_UNIT * DEC_UNIT * _DECIMAL_QUANT)
  * _DECIMAL_QUANT.

Definition _fees (st : MatchingEngine) (p qty : Decimal) : Decimal * Decimal :=
  (fee (maker_rebate_bps st) p qty, fee (taker_fee_bps st) p qty).

(** [_precheck_fok]: the inner [for o in level.queue] loop.  [inl need]: the
    loop ended with this much still needed; [inr tt]: [return True]. *)
Fixpoint precheck_queue (q : list Order) (need : Decimal) : Decimal + unit :=
  match q with
  | [] => inl need
  | o :: rest =>
      let need1 := need - remaining o in
      if decide (need1 <= 0) then inr tt else precheck_queue rest need1
  end.

(** The outer loop over the levels, best first; [beyond p] is the [break]
    test on the level price. *)
Fixpoint precheck_levels (beyond : Decimal -> bool) (levels : list PriceLevel)
    (need : Decimal) : bool :=
  match levels with
  | [] => false
  | level :: rest =>
      if beyond (pl_price level) then false
      else
        match precheck_queue (queue level) need with
        | inr _ => true
        | inl need1 => precheck_levels beyond rest need1
        end
  end.

Definition _precheck_fok (book : OrderBook) (sd : Side)
    (limit_price : option Decimal) (qty : Decimal) : bool :=
  match sd with
  | buy =>
      precheck_levels
        (fun p => match limit_price with
                  | Some lp => bool_decide (lp < p)
                  | None => false
                  end)
        (asks book) qty
  | sell =>
      precheck_levels
        (fun p => match limit_price with
                  | Some lp => bool_decide (p < lp)
                  | None => false
                  end)
        (reverse (bids book)) qty
  end.

(** [deque(maxlen=limit).append(x)] *)
Definition deque_append {A : Type} (limit : nat) (q : list A) (x : A) : list A :=
  let q1 := q ++ [x] in
  drop (length q1 - limit)%nat q1.

(** [_record_trades_and_broadcast]; [now] is the clock reading used for the
    trade timestamps. *)
Fixpoint _record_trades (st : MatchingEngine) (sym now : string)
    (raw_trades : list RawTrade) : MatchingEngine * list Trade :=
  match raw_trades with
  | [] => (st, [])
  | (maker, taker, p, qty) :: rest =>
      let '(mfee, tfee) := _fees st p qty in
      let tr :=
        mkTrade (next_id "tr" (id_counter st)) sym (quantize_8 p)
          (quantize_8 qty) (side taker) (order_id maker) (order_id taker) now
          mfee tfee in
      let ring := default [] (dict_get sym (recent_trades st)) in
      let st1 :=
        set_id_counter
          (set_recent_trades st
             (dict_set sym (deque_append (recent_trades_limit st) ring tr)
                (recent_trades st)))
          (S (id_counter st)) in
      let '(st2, trades) := _record_trades st1 sym now rest in
      (st2, tr :: trades)
  end.

Definition is_trigger_type (t : OrderType) : bool :=
  match t with
  | stop | stop_limit | take_profit => true
  | _ => false
  end.

(** [submit_order].  The state is returned also when the call raises. *)
Definition submit_order (st : MatchingEngine) (req : OrderRequest)
    (now : string) : MatchingEngine * result (Order * list Trade) :=
  let sym := req_symbol req in
  let st0 := _ensure_book st sym in
  let order :=
    mkOrder (next_id "ord" (id_counter st0)) sym (req_side req) (req_type req)
      (req_quantity req) (req_quantity req) (req_price req) now
      (req_client_order_id req) (req_stop_price req)
      (req_take_profit_price req) None in
  let st1 := set_id_counter st0 (S (id_counter st0)) in
  match dict_get sym (books st1) with
  | None => (st1, Raise KeyError)
  | Some book =>
      if is_trigger_type (type order) then
        let st2 :=
          set_triggers st1
            (dict_set sym (triggers_of st1 sym ++ [order]) (triggers st1)) in
        (set_order_symbol_index st2
           (<[order_id order := sym]> (order_symbol_index st2)),
         Ok (order, []))
      else if bool_decide (type order = fok)
                && negb (_precheck_fok book (side order) (price order)
                           (quantity order)) then
        (st1, Ok (order, []))
      else
        let '(book1, order1, raw_trades) := match_ book order in
        let st2 := put_book st1 sym book1 in
        let '(st3, trades) := _record_trades st2 sym now raw_trades in
        if bool_decide (0 < remaining order1)
           && bool_decide (type order1 = limit) then
          match add_limit book1 order1 with
          | Raise e => (st3, Raise e)
          | Ok book2 =>
              let st4 := put_book st3 sym book2 in
              (set_order_symbol_index st4
                 (<[order_id order1 := sym]> (order_symbol_index st4)),
               Ok (order1, trades))
          end
        else (st3, Ok (order1, trades))
  end.

(** [lst.pop(i)] at the first [i] whose order has the given id. *)
Fixpoint pop_first_id (oid : string) (lst : list Order)
    : option (Order * list Order) :=
  match lst with
  | [] => None
  | od :: rest =>
      if decide (order_id od = oid) then Some (od, rest)
      else
        match pop_first_id oid rest with
        | Some (found, rest') => Some (found, od :: rest')
        | None => None
        end
  end.

(** The scan of [self.triggers.items()] in [cancel_order]. *)
Fixpoint cancel_trigger_scan (oid : string) (tg : dict (list Order))
    : dict (list Order) * option Order :=
  match tg with
  | [] => ([], None)
  | (sym, lst) :: rest =>
      match pop_first_id oid lst with
      | Some (od, lst') => ((sym, lst') :: rest, Some od)
      | None =>
          let '(rest', r) := cancel_trigger_scan oid rest in
          ((sym, lst) :: rest', r)
      end
  end.

(** [cancel_order].  [if not symbol] also takes the empty symbol for a
    missing entry. *)
Definition cancel_order (st : MatchingEngine) (oid : string)
    : MatchingEngine * result (option Order) :=
  match order_symbol_index st !! oid with
  | None | Some EmptyString =>
      let '(tg, r) := cancel_trigger_scan oid (triggers st) in
      (set_triggers st tg, Ok r)
  | Some sym =>
      match dict_get sym (books st) with
      | None => (st, Raise KeyError)
      | Some book =>
          let '(book1, removed) := remove_order book oid in
          let st1 := put_book st sym book1 in
          match removed with
          | Some _ =>
              (set_order_symbol_index st1 (delete oid (order_symbol_index st1)),
               Ok removed)
          | None => (st1, Ok None)
          end
      end
  end.

(** [x is not None and x >= y]; comparing a [Decimal] with [None] raises. *)
Definition ge_guard (x y : option Decimal) : result bool :=
  match x, y with
  | None, _ => Ok false
  | Some _, None => Raise TypeError
  | Some a, Some b => Ok (bool_decide (b <= a))
  end.

(** [x is not None and x <= y] *)
Definition le_guard (x y : option Decimal) : result bool :=
  match x, y with
  | None, _ => Ok false
  | Some _, None => Raise TypeError
  | Some a, Some b => Ok (bool_decide (a <= b))
  end.

(** Short-circuit [a or b]. *)
Definition or_else (a b : result bool) : result bool :=
  match a with
  | Ok true => Ok true
  | Ok false => b
  | Raise e => Raise e
  end.

(** The pair of [if] statements that each of the three trigger kinds has,
    of which the side of the order selects one: for side [up] the test is
    [last >= level or ask >= level], for the other side it is
    [last <= level or bid <= level].  [up] is [buy] for stop and
    stop-limit orders and [sell] for take-profit orders. *)
Definition trigger_hit (od : Order) (up : Side) (level : option Decimal)
    (last bid ask : option Decimal) : result bool :=
  if decide (side od = up)
  then or_else (ge_guard last level) (ge_guard ask level)
  else or_else (le_guard last level) (le_guard bid level).

(** The body of the scan loop of [process_triggers] for one pending order:
    the order after the scan (a stop-limit that fires has its type set to
    [limit] in place) and whether it joins [to_activate]. *)
Definition scan_one (last bid ask : option Decimal) (od : Order)
    : result (Order * bool) :=
  match type od with
  | stop =>
      match trigger_hit od buy (stop_price od) last bid ask with
      | Ok hit => Ok (od, hit)
      | Raise e => Raise e
      end
  | stop_limit =>
      match stop_price od, price od with
      | Some _, Some _ =>
          match trigger_hit od buy (stop_price od) last bid ask with
          | Ok true => Ok (set_type od limit, true)
          | Ok false => Ok (od, false)
          | Raise e => Raise e
          end
      | _, _ => Ok (od, false)
      end
  | take_profit =>
      match take_profit_price od with
      | Some _ =>
          match trigger_hit od sell (take_profit_price od) last bid ask with
          | Ok hit => Ok (od, hit)
          | Raise e => Raise e
          end
      | None => Ok (od, false)
      end
  | _ => Ok (od, false)
  end.

(** The scan loop over [list(self.triggers[symbol])]: the pending list
    after the in-place type changes, and [to_activate].  When a comparison
    raises, the changes made so far stay. *)
Fixpoint scan_triggers (last bid ask : option Decimal) (pending : list Order)
    : list Order * result (list Order) :=
  match pending with
  | [] => ([], Ok [])
  | od :: rest =>
      match scan_one last bid ask od with
      | Raise e => (od :: rest, Raise e)
      | Ok (od1, hit) =>
          let '(rest1, r) := scan_triggers last bid ask rest in
          (od1 :: rest1,
           match r with
           | Ok acts => Ok (if hit then od1 :: acts else acts)
           | Raise e => Raise e
           end)
      end
  end.

(** [lst.remove(x)]: drops the first element equal to [x]; the
    [ValueError] of a missing element is swallowed by the caller. *)
Fixpoint list_remove_first (x : Order) (lst : list Order) : list Order :=
  match lst with
  | [] => []
  | y :: rest => if decide (y = x) then rest else y :: list_remove_first x rest
  end.

(** [_submit_activated] *)
Definition _submit_activated (st : MatchingEngine) (sym : string) (od : Order)
    (now : string) : MatchingEngine * result unit :=
  match dict_get sym (books st) with
  | None => (st, Raise KeyError)
  | Some book =>
      let '(book1, od1, raw_trades) := match_ book od in
      let st1 := put_book st sym book1 in
      let '(st2, _) := _record_trades st1 sym now raw_trades in
      if bool_decide (0 < remaining od1) && bool_decide (type od1 = limit)
         && bool_decide (is_Some (price od1)) then
        match add_limit book1 od1 with
        | Raise e => (st2, Raise e)
        | Ok book2 =>
            let st3 := put_book st2 sym book2 in
            (set_order_symbol_index st3
               (<[order_id od1 := sym]> (order_symbol_index st3)), Ok tt)
        end
      else (st2, Ok tt)
  end.

(** What the activation loop does to one order before it is submitted. *)
Definition activation_type (od : Order) : Order :=
  if bool_decide (type od = stop) && bool_decide (price od = None)
  then set_type od market
  else od.

(** One turn of the activation loop of [process_triggers]. *)
Definition activate_one (st : MatchingEngine) (sym : string) (od : Order)
    (now : string) : MatchingEngine * result unit :=
  let st1 :=
    set_triggers st
      (dict_set sym (list_remove_first od (triggers_of st sym)) (triggers st)) in
  _submit_activated st1 sym (activation_type od) now.

Fixpoint activate_all (st : MatchingEngine) (sym : string)
    (to_activate : list Order) (now : string) : MatchingEngine * result unit :=
  match to_activate with
  | [] => (st, Ok tt)
  | od :: rest =>
      match activate_one st sym od now with
      | (st1, Ok _) => activate_all st1 sym rest now
      | (st1, Raise e) => (st1, Raise e)
      end
  end.

(** [process_triggers] *)
Definition process_triggers (st : MatchingEngine) (sym : string) (now : string)
    : MatchingEngine * result unit :=
  match dict_get sym (books st) with
  | None => (st, Raise KeyError)
  | Some book =>
      let last := last_trade_price book in
      let '(bid, ask) := best_prices book in
      let st1 := set_triggers st (dict_default sym [] (triggers st)) in
      let '(pending, r) := scan_triggers last bid ask (triggers_of st1 sym) in
      let st2 := set_triggers st1 (dict_set sym pending (triggers st1)) in
      match r with
      | Raise e => (st2, Raise e)
      | Ok to_activate => activate_all st2 sym to_activate now
      end
  end.

(** *** Persistence *)

(** One entry of [open_orders].  The source writes the decimals with [str]
    and reads them back with [Decimal(str(...))]; the model keeps the
    number the string denotes. *)
Record OrderDict : Type := mkOrderDict {
  od_order_id : string;
  od_side : Side;
  od_type : OrderType;
  od_quantity : Decimal;
  od_remaining : Decimal;
  od_price : option Decimal;
  od_timestamp : string;
  od_client_order_id : option string;
  od_stop_price : option Decimal;
  od_take_profit_price : option Decimal;
  od_user_id : option string
}.

(** [str(x) if x else None]: a zero [Decimal] is falsy. *)
Definition str_if_truthy (x : option Decimal) : option Decimal :=
  match x with
  | Some 0 => None
  | _ => x
  end.

Definition order_to_dict (o : Order) : OrderDict :=
  mkOrderDict (order_id o) (side o) (type o) (quantity o) (remaining o)
    (price o) (timestamp o) (client_order_id o)
    (str_if_truthy (stop_price o)) (str_if_truthy (take_profit_price o))
    (user_id o).

Record Snapshot : Type := mkSnapshot {
  open_orders : dict (list OrderDict);
  snap_recent_trades : dict (list Trade)
}.

(** The orders of a book in the order [save_state] walks them: the bid
    levels, then the ask levels, each queue front to back. *)
Definition resting_orders (b : OrderBook) : list Order :=
  (bids b ≫= queue) ++ (asks b ≫= queue).

(** The dictionary that [save_state] hands to [persistence.save_state]. *)
Definition build_snapshot (st : MatchingEngine) : Snapshot :=
  mkSnapshot
    ((fun '(sym, book) => (sym, order_to_dict <$> resting_orders book))
       <$> books st)
    (recent_trades st).

(** [persistence.save_state] on the content of [state.json] ([None]: no
    file).  The trade dictionaries made by [asdict] hold [Decimal] values,
    which [json.dump] refuses: the call raises and the committed file is
    left as it was. *)
Definition persistence_save_state (file : option Snapshot) (data : Snapshot)
    : option Snapshot * result unit :=
  if forallb (fun '(_, trs) => bool_decide (trs = [])) (snap_recent_trades data)
  then (Some data, Ok tt)
  else (file, Raise TypeError).

Definition save_state (st : MatchingEngine) (file : option Snapshot)
    : option Snapshot * result unit :=
  persistence_save_state file (build_snapshot st).

(** [persistence.load_state] *)
Definition persistence_load_state (file : option Snapshot) : Snapshot :=
  default (mkSnapshot [] []) file.

(** The [Order] rebuilt from a saved entry. *)
Definition order_of_dict (sym : string) (od : OrderDict) : Order :=
  mkOrder (od_order_id od) sym (od_side od) (od_type od) (od_quantity od)
    (od_remaining od) (od_price od) (od_timestamp od)
    (od_client_order_id od) (od_stop_price od) (od_take_profit_price od)
    (od_user_id od).

(** The inner loop of [load_state] over the saved orders of one symbol. *)
Fixpoint load_orders (st : MatchingEngine) (sym : string)
    (orders : list OrderDict) : MatchingEngine :=
  match orders with
  | [] => st
  | od :: rest =>
      let order := order_of_dict sym od in
      let st1 :=
        if bool_decide (type order = limit) && bool_decide (0 < remaining order)
           && bool_decide (is_Some (price order)) then
          match dict_get sym (books st) with
          | Some book =>
              match add_limit book order with
              | Ok book1 =>
                  let st' := put_book st sym book1 in
                  set_order_symbol_index st'
                    (<[order_id order := sym]> (order_symbol_index st'))
              | Raise _ => st
              end
          | None => st
          end
        else if is_trigger_type (type order) then
          set_triggers st
            (dict_set sym (triggers_of st sym ++ [order]) (triggers st))
        else st in
      load_orders st1 sym rest
  end.

Fixpoint load_open_orders (st : MatchingEngine)
    (saved : dict (list OrderDict)) : MatchingEngine :=
  match saved with
  | [] => st
  | (sym, orders) :: rest =>
      load_open_orders (load_orders (_ensure_book st sym) sym orders) rest
  end.

(** The inner loop of [load_state] over the saved trades of one symbol. *)
Fixpoint load_trades (st : MatchingEngine) (sym : string) (trs : list Trade)
    : MatchingEngine :=
  match trs with
  | [] => st
  | tr :: rest =>
      let tr1 :=
        mkTrade (trade_id tr) sym (tr_price tr) (tr_quantity tr)
          (aggressor_side tr) (maker_order_id tr) (taker_order_id tr)
          (tr_timestamp tr) (maker_fee tr) (taker_fee tr) in
      let ring := default [] (dict_get sym (recent_trades st)) in
      load_trades
        (set_recent_trades st
           (dict_set sym (deque_append (recent_trades_limit st) ring tr1)
              (recent_trades st)))
        sym rest
  end.

Fixpoint load_recent_trades (st : MatchingEngine)
    (saved : dict (list Trade)) : MatchingEngine :=
  match saved with
  | [] => st
  | (sym, trs) :: rest => load_recent_trades (load_trades st sym trs) rest
  end.

(** [load_state] *)
Definition load_state (st : MatchingEngine) (file : option Snapshot)
    : MatchingEngine :=
  let data := persistence_load_state file in
  load_recent_trades (load_open_orders st (open_orders data))
    (snap_recent_trades data).

(** ** Read accessors of [models.py] and [engine.py] *)

(** [Order.is_active] *)
Definition is_active (o : Order) : bool := bool_decide (0 < remaining o).

(** [get_bbo]; reading [self.books[symbol]] raises for a missing key. *)
Definition get_bbo (st : MatchingEngine) (sym now : string)
    : MatchingEngine * result BBO :=
  let st1 := _ensure_book st sym in
  match dict_get sym (books st1) with
  | None => (st1, Raise KeyError)
  | Some book => (st1, Ok (bbo book now))
  end.



(** [get_trades] *)
Definition get_trades (st : MatchingEngine) (sym : string) : list Trade :=
  default [] (dict_get sym (recent_trades st)).

(** The [for tr in trades] loop of [get_trades_since]: [filtered] and
    [seen] after the loop. *)
Fixpoint trades_after (last_trade_id : string) (trades : list Trade)
    (seen : bool) (filtered : list Trade) : list Trade * bool :=
  match trades with
  | [] => (filtered, seen)
  | tr :: rest =>
      if seen then trades_after last_trade_id rest seen (filtered ++ [tr])
      else if decide (trade_id tr = last_trade_id)
           then trades_after last_trade_id rest true filtered
           else trades_after last_trade_id rest seen filtered
  end.

(** [get_trades_since]; [if not last_trade_id] takes the empty string
    for [None]. *)
Definition get_trades_since (st : MatchingEngine) (sym : string)
    (last_trade_id : option string) : list Trade * option string :=
  let trades := get_trades st sym in
  let latest_id := trade_id <$> last trades in
  match last_trade_id with
  | None | Some EmptyString => (trades, latest_id)
  | Some id =>
      let '(filtered, seen) := trades_after id trades false [] in
      (if seen then filtered else trades, latest_id)
  end.

(** * Specification-side definitions

    The definitions below are not translated from the source.  They state,
    in the words of the specification, what the code is compared with. *)

(** The representation invariant of a [SortedDict]: keys are distinct and
    kept in ascending order. *)
Definition sd_sorted (sd : SortedDict) : Prop :=
  StronglySorted Z.lt (pl_price <$> sd).

(** The price levels opposite to an incoming order of side [s], best level
    first: the asks in ascending order for a buy, the bids in descending
    order for a sell. *)
Definition opp_view (s : Side) (b : OrderBook) : list PriceLevel :=
  match s with
  | buy => asks b
  | sell => reverse (bids b)
  end.

(** The book [b] with the levels opposite to side [s] replaced by the
    best-first list [v], and with the given index and last trade price.
    The side [s] itself and the symbol are those of [b]. *)
Definition with_opp_view (s : Side) (b : OrderBook) (v : list PriceLevel)
    (ix : gmap string (Side * Decimal)) (ltp : option Decimal) : OrderBook :=
  match s with
  | buy => mkOrderBook (ob_symbol b) (bids b) v ix ltp
  | sell => mkOrderBook (ob_symbol b) (reverse v) (asks b) ix ltp
  end.

(** The crossable rule for a best opposite price [p]: a market order
    crosses any price; any other order needs a price, and crosses
    [p <= price] when buying, [p >= price] when selling. *)
Definition crosses (incoming : Order) (p : Decimal) : bool :=
  if decide (type incoming = market) then true
  else
    match price incoming with
    | None => false
    | Some lp =>
        match side incoming with
        | buy => bool_decide (p <= lp)
        | sell => bool_decide (lp <= p)
        end
    end.

(** The fill of [incoming] against [maker] at level price [p]. *)
Definition fill_of (p : Decimal) (maker incoming : Order) : RawTrade :=
  let qty := Z.min (remaining incoming) (remaining maker) in
  (set_remaining maker (remaining maker - qty),
   set_remaining incoming (remaining incoming - qty), p, qty).

(** The FIFO walk through one level queue at price [p]: the head maker is
    filled by [min(incoming.remaining, maker.remaining)]; a maker that is
    filled completely leaves the queue and the walk goes on with the next
    one.  Result: the fills, the queue left, the incoming order. *)
Fixpoint walk_queue (p : Decimal) (q : list Order) (incoming : Order)
    : list RawTrade * list Order * Order :=
  match q with
  | [] => ([], [], incoming)
  | maker :: rest =>
      if bool_decide (0 < remaining incoming) then
        let '(maker1, incoming1, _, _) := fill_of p maker incoming in
        if decide (remaining maker1 <= 0) then
          let '(ts, q', incoming') := walk_queue p rest incoming1 in
          (fill_of p maker incoming :: ts, q', incoming')
        else ([fill_of p maker incoming], maker1 :: rest, incoming1)
      else ([], q, incoming)
  end.

(** The walk through the opposite levels, best level first: a level is
    entered while the incoming order has quantity left and crosses the
    level price; a level whose queue is emptied is removed and the walk
    goes on with the next level. *)
Fixpoint walk_levels (levels : list PriceLevel) (incoming : Order)
    : list RawTrade * list PriceLevel * Order :=
  match levels with
  | [] => ([], [], incoming)
  | level :: rest =>
      if bool_decide (0 < remaining incoming)
         && crosses incoming (pl_price level) then
        let '(ts, q', incoming1) :=
          walk_queue (pl_price level) (queue level) incoming in
        match q' with
        | [] =>
            let '(ts2, rest', incoming2) := walk_levels rest incoming1 in
            (ts ++ ts2, rest', incoming2)
        | _ :: _ => (ts, set_queue q' level :: rest, incoming1)
        end
      else ([], levels, incoming)
  end.

(** The index after the fills [ts]: the entries of the makers that were
    filled completely are dropped. *)
Definition index_after (ix : gmap string (Side * Decimal))
    (ts : list RawTrade) : gmap string (Side * Decimal) :=
  foldl (fun ix '(maker, _, _, _) =>
           if decide (remaining maker <= 0) then delete (order_id maker) ix
           else ix) ix ts.

(** The last trade price after the fills [ts]: the price of the last fill,
    or the old value when there is no fill. *)
Definition ltp_after (ltp : option Decimal) (ts : list RawTrade)
    : option Decimal :=
  foldl (fun _ '(_, _, p, _) => Some p) ltp ts.

(** One turn of the matching loop, written on the best-first view. *)
Definition view_step (v : list PriceLevel) (ix : gmap string (Side * Decimal))
    (ltp : option Decimal) (incoming : Order)
    : option (list PriceLevel * gmap string (Side * Decimal) * option Decimal
              * Order * option RawTrade) :=
  match v with
  | [] => None
  | best :: others =>
      if bool_decide (0 < remaining incoming)
         && crosses incoming (pl_price best) then
        match queue best with
        | [] => Some (others, ix, ltp, incoming, None)
        | maker :: rest =>
            let '(maker1, incoming1, p, qty) :=
              fill_of (pl_price best) maker incoming in
            if decide (remaining maker1 <= 0) then
              Some (match rest with
                    | [] => others
                    | _ :: _ => set_queue rest best :: others
                    end,
                    delete (order_id maker) ix, Some p, incoming1,
                    Some (maker1, incoming1, p, qty))
            else
              Some (set_queue (maker1 :: rest) best :: others, ix, Some p,
                    incoming1, Some (maker1, incoming1, p, qty))
        end
      else None
  end.

(** [better s p1 p2]: for an incoming order of side [s], the opposite price
    [p1] is strictly better than [p2] (lower asks for a buy, higher bids
    for a sell). *)
Definition better (s : Side) : relation Decimal :=
  match s with
  | buy => Z.lt
  | sell => flip Z.lt
  end.

(** The resting orders of a best-first list of levels in price-time
    priority: best level first, each queue front to back. *)
Definition priority_queue (v : list PriceLevel) : list Order := v ≫= queue.

(** The ids of the makers of a list of fills, in the order of the fills. *)
Definition maker_ids (ts : list RawTrade) : list string :=
  (fun '(maker, _, _, _) => order_id maker) <$> ts.





(** [self.books[symbol]] once [_ensure_book(symbol)] has run. *)
Definition book_of (st : MatchingEngine) (sym : string) : OrderBook :=
  default (new_book sym) (dict_get sym (books st)).

(** The requests that the specification calls invalid: a non-positive
    quantity, or a required price that is null. *)
Definition invalid_request (req : OrderRequest) : Prop :=
  req_quantity req <= 0
  \/ ((req_type req = limit \/ req_type req = stop_limit)
      /\ req_price req = None)
  \/ ((req_type req = stop \/ req_type req = stop_limit)
      /\ req_stop_price req = None)
  \/ (req_type req = take_profit /\ req_take_profit_price req = None).

(** The entry that [snapshot_l2] reports for a level. *)
Definition l2_entry (level : PriceLevel) : L2Entry :=
  mkL2Entry (pl_price level) (quantize_8 (total_quantity level)).

(** The orders of the engine with a given id that rest on a level of some
    book. *)
Definition resting_with_id (st : MatchingEngine) (oid : string) : list Order :=
  filter (fun o => order_id o = oid)
    (books st ≫= fun '(_, book) => resting_orders book).

(** The orders of the engine with a given id that are pending in some
    triggers list. *)
Definition pending_with_id (st : MatchingEngine) (oid : string) : list Order :=
  filter (fun o => order_id o = oid) (triggers st ≫= snd).

(** The activation condition of a stop or stop-limit order, in the words of
    the specification: for a buy, [last >= stop_price] or
    [ask >= stop_price]; for a sell, [last <= stop_price] or
    [bid <= stop_price]. *)
Definition stop_condition_met (od : Order) (ltp bid ask : option Decimal)
    : Prop :=
  exists sp,
    stop_price od = Some sp
    /\ match side od with
       | buy => (exists l, ltp = Some l /\ sp <= l)
                \/ (exists a, ask = Some a /\ sp <= a)
       | sell => (exists l, ltp = Some l /\ l <= sp)
                 \/ (exists bd, bid = Some bd /\ bd <= sp)
       end.


(** Every order resting on the book has type [limit]. *)
Definition book_limit (b : OrderBook) : Prop :=
  forall o, o ∈ resting_orders b -> type o = limit.

(** Every book of the engine satisfies [P]. *)
Definition books_all (P : OrderBook -> Prop) (bs : dict OrderBook) : Prop :=
  forall sym book, (sym, book) ∈ bs -> P book.

(** A well-formed book: each side is a sorted dictionary and holds no
    order with a negative remaining quantity. *)
Definition book_wf (b : OrderBook) : Prop :=
  (forall s, sd_sorted (_get_side_book b s))
  /\ (forall o, o ∈ resting_orders b -> 0 <= remaining o).

(** The engine states that the operations of the engine produce: a fresh
    engine, then any sequence of loads, submits, cancels and trigger
    scans, whatever their arguments and whether or not they raise. *)
Inductive reachable : MatchingEngine -> Prop :=
  | reach_new (mr tf : Decimal) (limit_ n : nat) :
      reachable (mkEngine [] [] ∅ [] mr tf limit_ n)
  | reach_load st file :
      reachable st -> reachable (load_state st file)
  | reach_submit st req now :
      reachable st -> reachable (submit_order st req now).1
  | reach_cancel st oid :
      reachable st -> reachable (cancel_order st oid).1
  | reach_triggers st sym now :
      reachable st -> reachable (process_triggers st sym now).1.

(** The states produced without [load_state]: a fresh engine, then any
    sequence of submits, cancels and trigger scans. *)
Inductive reachable_live : MatchingEngine -> Prop :=
  | live_new (mr tf : Decimal) (limit_ n : nat) :
      reachable_live (mkEngine [] [] ∅ [] mr tf limit_ n)
  | live_submit st req now :
      reachable_live st -> reachable_live (submit_order st req now).1
  | live_cancel st oid :
      reachable_live st -> reachable_live (cancel_order st oid).1
  | live_triggers st sym now :
      reachable_live st -> reachable_live (process_triggers st sym now).1.

(** What the book keeps true of an order resting on side [s] at the level
    of price [p]. *)
Definition order_ok (s : Side) (p : Decimal) (o : Order) : Prop :=
  type o = limit /\ side o = s /\ price o = Some p /\ is_active o = true.

(** A level of side [s] is not empty and holds orders of its own side and
    price only. *)
Definition level_ok (s : Side) (l : PriceLevel) : Prop :=
  queue l <> [] /\ forall o, o ∈ queue l -> order_ok s (pl_price l) o.

(** The invariant of a book: both sides are sorted dictionaries of
    levels that are [level_ok]. *)
Definition book_inv (b : OrderBook) : Prop :=
  (forall s, sd_sorted (_get_side_book b s))
  /\ (forall s l, l ∈ _get_side_book b s -> level_ok s l).

(** The book is not crossed: every bid price is below every ask price. *)
Definition uncrossed (b : OrderBook) : Prop :=
  forall lb la, lb ∈ bids b -> la ∈ asks b -> pl_price lb < pl_price la.

(** The invariant of the books of a running engine. *)
Definition book_live (b : OrderBook) : Prop := book_inv b /\ uncrossed b.




(** The last [n] elements of a list. *)
Definition last_n {A : Type} (n : nat) (l : list A) : list A :=
  drop (length l - n) l.



(** The activation condition of a take-profit order: for a sell,
    [last >= take_profit_price] or [ask >= take_profit_price]; for a buy,
    [last <= take_profit_price] or [bid <= take_profit_price]. *)
Definition take_profit_condition_met (od : Order) (ltp bid ask : option Decimal)
    : Prop :=
  exists tp,
    take_profit_price od = Some tp
    /\ match side od with
       | sell => (exists l, ltp = Some l /\ tp <= l)
                 \/ (exists a, ask = Some a /\ tp <= a)
       | buy => (exists l, ltp = Some l /\ l <= tp)
                \/ (exists bd, bid = Some bd /\ bd <= tp)
       end.

(** A pending order is due: it is a stop order, a stop-limit order with a
    limit price, or a take-profit order, and its condition is met. *)
Definition trigger_due (od : Order) (ltp bid ask : option Decimal) : Prop :=
  match type od with
  | stop => stop_condition_met od ltp bid ask
  | stop_limit => is_Some (price od) /\ stop_condition_met od ltp bid ask
  | take_profit => take_profit_condition_met od ltp bid ask
  | _ => False
  end.

(** The order as the scan appends it to [to_activate]. *)
Definition scanned (od : Order) : Order :=
  if decide (type od = stop_limit) then set_type od limit else od.

(** [engine_steps st st']: the operations of the engine lead from [st] to
    [st']. *)
Inductive engine_steps : MatchingEngine -> MatchingEngine -> Prop :=
  | steps_refl st : engine_steps st st
  | steps_load st st' file :
      engine_steps st st' -> engine_steps st (load_state st' file)
  | steps_submit st st' req now :
      engine_steps st st' -> engine_steps st (submit_order st' req now).1
  | steps_cancel st st' oid :
      engine_steps st st' -> engine_steps st (cancel_order st' oid).1
  | steps_triggers st st' sym now :
      engine_steps st st' -> engine_steps st (process_triggers st' sym now).1.

(** An order after it was written by [save_state] and read back by
    [load_state] under the symbol [sym]. *)
Definition saved_order (sym : string) (o : Order) : Order :=
  order_of_dict sym (order_to_dict o).

(** A level whose orders went through a save and a load. *)
Definition saved_level (sym : string) (l : PriceLevel) : PriceLevel :=
  mkPriceLevel (pl_price l) (saved_order sym <$> queue l).

(** [add_limit] as [load_state] calls it: a call that raises leaves the
    book as it was. *)
Definition add_or_keep (b : OrderBook) (o : Order) : OrderBook :=
  match add_limit b o with
  | Ok b' => b'
  | Raise _ => b
  end.

(** The ids of the orders resting on a book, in the order [save_state]
    walks them. *)
Definition book_ids (b : OrderBook) : list string :=
  order_id <$> resting_orders b.

(** The ids of the orders resting on some book of the engine. *)
Definition resting_ids (st : MatchingEngine) : list string :=
  books st ≫= fun '(_, book) => book_ids book.

(** The ids of the orders pending in some triggers list. *)
Definition pending_ids (st : MatchingEngine) : list string :=
  triggers st ≫= fun '(_, lst) => order_id <$> lst.

(** The ids of the live orders of the engine. *)
Definition engine_ids (st : MatchingEngine) : list string :=
  resting_ids st ++ pending_ids st.

(** An order id that [next_id] has handed out in this process. *)
Definition minted (st : MatchingEngine) (id : string) : Prop :=
  exists k, (k < id_counter st)%nat /\ id = next_id "ord" k.

(** The ids of the makers that a list of fills has filled completely. *)
Definition filled_ids (ts : list RawTrade) : list string :=
  omap (fun '(maker, _, _, _) =>
          if decide (remaining maker <= 0) then Some (order_id maker)
          else None) ts.

(** No two live orders share an id, and every live id was minted. *)
Definition ids_ok (st : MatchingEngine) : Prop :=
  NoDup (engine_ids st) /\ Forall (minted st) (engine_ids st).

(** * Example states

    The two resting asks and the incoming orders of the repository's own
    tests ([test_orderbook.py], [test_engine.py]). *)

Definition test_order (oid : string) (s : Side) (t : OrderType)
    (qty : Decimal) (p : option Decimal) : Order :=
  mkOrder oid "BTC-USD" s t qty qty p "2024-01-01T00:00:00Z" None None None
    None.

Definition ok_or {A : Type} (d : A) (r : result A) : A :=
  match r with
  | Ok a => a
  | Raise _ => d
  end.

(** The book of [test_orderbook_bbo_and_match]: [a1] sells 2 at 100 and
    [a2] sells 3 at 101. *)
Definition test_book : OrderBook :=
  let b0 := new_book "BTC-USD" in
  let b1 := ok_or b0 (add_limit b0 (test_order "a1" sell limit (dec 2)
                                      (Some (dec 100)))) in
  ok_or b1 (add_limit b1 (test_order "a2" sell limit (dec 3)
                            (Some (dec 101)))).

(** The incoming market buy of 2.5 of the same test. *)
Definition test_buy : Order :=
  test_order "b1" buy market (25 * DEC_UNIT / 10) None.

(** The clock reading used in the examples. *)
Definition test_now : string := "2024-01-01T00:00:00Z".

Definition test_request (s : Side) (t : OrderType) (qty : Decimal)
    (p sp tp : option Decimal) : OrderRequest :=
  mkOrderRequest "BTC-USD" s t qty p None sp tp.

(** A fresh engine after [sell limit 1 @ 100] (the order [ord_1]). *)
Definition engine_one_ask : MatchingEngine :=
  (submit_order new_engine
     (test_request sell limit (dec 1) (Some (dec 100)) None None)
     test_now).1.


(** [buy fok 2 @ 100]: more than the book can give. *)
Definition fok_too_much : OrderRequest :=
  test_request buy fok (dec 2) (Some (dec 100)) None None.

(** [buy stop] of quantity -1 without a stop price. *)
Definition bad_stop_request : OrderRequest :=
  test_request buy stop (dec (-1)) None None None.

(** [buy limit 1] without a price. *)
Definition limit_without_price : OrderRequest :=
  test_request buy limit (dec 1) None None None.

(** A fresh engine after [buy stop 1, stop_price = 120] (the order
    [ord_1], pending). *)
Definition engine_one_stop : MatchingEngine :=
  (submit_order new_engine
     (test_request buy stop (dec 1) None (Some (dec 120)) None) test_now).1.

(** [engine_one_ask] after [buy market 1], which fills [ord_1]
    completely. *)
Definition engine_ask_filled : MatchingEngine :=
  (submit_order engine_one_ask (test_request buy market (dec 1) None None None)
     test_now).1.

(** [engine_one_ask] after [buy limit 1 @ 90] (resting, [ord_2]) and
    [buy take_profit 1, take_profit_price = 110] without a limit price
    (pending, [ord_3]).  The best bid 90 is below 110, so the take-profit
    condition of the buy holds. *)
Definition engine_take_profit : MatchingEngine :=
  let st1 :=
    (submit_order engine_one_ask
       (test_request buy limit (dec 1) (Some (dec 90)) None None) test_now).1 in
  (submit_order st1
     (test_request buy take_profit (dec 1) None None (Some (dec 110)))
     test_now).1.


(** The pending order of [engine_stop_with_price]. *)
Definition stop_with_price_order : Order :=
  mkOrder "ord_2" "BTC-USD" buy stop (dec 2) (dec 2) (Some (dec 100))
    test_now None (Some (dec 90)) None None.

(** [engine_one_ask] after [buy stop 1] without a stop price (pending,
    [ord_2]). *)
Definition engine_null_stop : MatchingEngine :=
  (submit_order engine_one_ask
     (test_request buy stop (dec 1) None None None) test_now).1.

(** The pending order of [engine_null_stop]. *)
Definition null_stop_order : Order :=
  mkOrder "ord_2" "BTC-USD" buy stop (dec 1) (dec 1) None test_now None None
    None None.


(** [sell limit 1 @ 100]. *)
Definition sell_one_at_100 : OrderRequest :=
  test_request sell limit (dec 1) (Some (dec 100)) None None.

(** [buy market 1]. *)
Definition buy_one_market : OrderRequest :=
  test_request buy market (dec 1) None None None.

(** A third ask, joining [a2] at 101. *)
Definition test_ask_a3 : Order :=
  test_order "a3" sell limit (dec 1) (Some (dec 101)).

(** * Lemmas on the containers *)

Section SortedDictLemmas.
Implicit Types (sd pre : SortedDict) (p : Decimal) (l x : PriceLevel).

Lemma sd_del_app_last pre x p :
  pl_price x = p ->
  (forall l, l ∈ pre -> pl_price l <> p) ->
  sd_del p (pre ++ [x]) = pre.
Proof.
  intros Hx. induction pre as [|l pre IH]; intros Hpre; simpl.
  - destruct (decide (pl_price x = p)); congruence.
  - destruct (decide (pl_price l = p)) as [e|_].
    + exfalso. apply (Hpre l); [left | exact e].
    + f_equal. apply IH. intros l' Hl'. apply Hpre. by right.
Qed.

Lemma sd_alter_app_last (f : PriceLevel -> PriceLevel) pre x p :
  pl_price x = p ->
  (forall l, l ∈ pre -> pl_price l <> p) ->
  sd_alter f p (pre ++ [x]) = pre ++ [f x].
Proof.
  intros Hx. induction pre as [|l pre IH]; intros Hpre; simpl.
  - destruct (decide (pl_price x = p)); congruence.
  - destruct (decide (pl_price l = p)) as [e|_].
    + exfalso. apply (Hpre l); [left | exact e].
    + f_equal. apply IH. intros l' Hl'. apply Hpre. by right.
Qed.

Lemma sd_size_cons l sd :
  sd_size (l :: sd) = (S (length (queue l)) + sd_size sd)%nat.
Proof. unfold sd_size. simpl. lia. Qed.

Lemma sd_size_reverse sd : sd_size (reverse sd) = sd_size sd.
Proof.
  induction sd as [|l sd IH]; [done|].
  rewrite reverse_cons. unfold sd_size in *.
  rewrite length_app, sum_list_with_app. simpl. lia.
Qed.
End SortedDictLemmas.

(** * The matching loop on the best-first view *)

(** Decides the tests [decide (x = x)] left by a lookup of a key that was
    just read. *)
Ltac decide_refl :=
  repeat match goal with
         | |- context [decide (?x = ?x)] =>
             let e := fresh in destruct (decide (x = x)) as [e|e]; [clear e|done]
         end.

Section MatchView.
Implicit Types (b : OrderBook) (incoming : Order) (v : list PriceLevel).

Lemma set_remaining_side o r : side (set_remaining o r) = side o.
Proof. done. Qed.

Lemma crossable_view b incoming :
  _crossable b incoming =
  match opp_view (side incoming) b with
  | [] => false
  | best :: _ => crosses incoming (pl_price best)
  end.
Proof.
  unfold _crossable, best_prices, crosses, opp_view.
  destruct (side incoming).
  - destruct (asks b) as [|best others]; simpl;
      destruct (decide (type incoming = market));
      destruct (price incoming); try done;
      apply bool_decide_eq_true; by eexists.
  - rewrite <- head_reverse.
    destruct (reverse (bids b)) as [|best others]; simpl;
      destruct (decide (type incoming = market));
      destruct (price incoming); try done;
      apply bool_decide_eq_true; by eexists.
Qed.

Lemma with_opp_view_id s b :
  with_opp_view s b (opp_view s b) (order_index b) (last_trade_price b) = b.
Proof.
  destruct b, s; simpl; [done|]. by rewrite reverse_involutive.
Qed.

Lemma opp_view_with s b v ix ltp :
  opp_view s (with_opp_view s b v ix ltp) = v.
Proof. destruct s; simpl; [done|]. by rewrite reverse_involutive. Qed.

Lemma with_opp_view_twice s b v ix ltp v' ix' ltp' :
  with_opp_view s (with_opp_view s b v ix ltp) v' ix' ltp'
  = with_opp_view s b v' ix' ltp'.
Proof. by destruct s. Qed.

(** The loop turn of the source is the turn on the view. *)
Lemma match_step_view b incoming :
  NoDup (pl_price <$> opp_view (side incoming) b) ->
  match_step b incoming =
  (fun '(v', ix', ltp', incoming', t) =>
     (with_opp_view (side incoming) b v' ix' ltp', incoming', t))
  <$> view_step (opp_view (side incoming) b) (order_index b)
        (last_trade_price b) incoming.
Proof.
  intros Hnd.
  assert (Hhead : forall best others,
             opp_view (side incoming) b = best :: others ->
             forall l, l ∈ others -> pl_price l <> pl_price best).
  { intros best others Hv l Hl He. rewrite Hv, fmap_cons in Hnd.
    apply NoDup_cons_1_1 in Hnd. apply Hnd. rewrite <- He.
    by apply list_elem_of_fmap_2. }
  clear Hnd. unfold match_step. rewrite crossable_view.
  destruct b as [sym bds aks ix ltp].
  destruct incoming as [oid osym sd ty qty rem pr ts cid sp tp uid].
  destruct sd; simpl in *.
  - (* buy: the asks, best level at the head *)
    destruct aks as [|best others]; simpl.
    { by rewrite andb_false_r. }
    destruct (bool_decide (0 < rem) && crosses _ (pl_price best)); [|done].
    simpl. unfold _best_ask. simpl.
    destruct best as [p [|maker rest]]; simpl.
    { by decide_refl. }
    decide_refl. simpl.
    destruct (decide (remaining maker - rem `min` remaining maker <= 0));
      simpl; [|done].
    decide_refl. destruct rest; simpl; by decide_refl.
  - (* sell: the bids, best level at the end *)
    set (v := reverse bds) in *.
    assert (Hb : bds = reverse v) by (unfold v; by rewrite reverse_involutive).
    clearbody v. subst bds.
    destruct v as [|best others]; simpl.
    { by rewrite andb_false_r. }
    destruct (bool_decide (0 < rem) && crosses _ (pl_price best)); [|done].
    simpl. unfold _best_bid. simpl. rewrite reverse_cons, last_snoc.
    assert (Hpre : forall l, l ∈ reverse others ->
                             pl_price l <> pl_price best).
    { intros l Hl. apply (Hhead best others); [done|].
      by apply elem_of_reverse. }
    clear Hhead.
    destruct best as [p [|maker rest]]; simpl in *.
    { by rewrite sd_del_app_last. }
    rewrite !sd_alter_app_last by done. simpl.
    destruct (decide (remaining maker - rem `min` remaining maker <= 0));
      simpl.
    + destruct rest; simpl.
      * by rewrite sd_del_app_last.
      * by rewrite reverse_cons.
    + by rewrite reverse_cons.
Qed.
End MatchView.

Section WalkLoop.
Implicit Types (b : OrderBook) (incoming : Order) (v : list PriceLevel).

Lemma crosses_set_remaining incoming r p :
  crosses (set_remaining incoming r) p = crosses incoming p.
Proof. done. Qed.

(** The walk satisfies the equation of the loop. *)
Lemma walk_unfold v ix ltp incoming :
  walk_levels v incoming =
  match view_step v ix ltp incoming with
  | None => ([], v, incoming)
  | Some (v', _, _, incoming', t) =>
      let '(ts, v'', incoming'') := walk_levels v' incoming' in
      (opt_list t ++ ts, v'', incoming'')
  end.
Proof.
  destruct v as [|[p q] others]; [done|].
  cbn [walk_levels view_step pl_price queue].
  destruct (bool_decide (0 < remaining incoming)) eqn:Hrem; [|done].
  cbn [andb]. destruct (crosses incoming p) eqn:Hcr; [|done].
  destruct q as [|maker rest].
  { cbn [walk_queue]. by destruct (walk_levels others incoming) as [[? ?] ?]. }
  cbn [walk_queue]. rewrite Hrem. unfold fill_of. cbn zeta.
  set (qty := remaining incoming `min` remaining maker).
  set (incoming1 := set_remaining incoming (remaining incoming - qty)).
  set (maker1 := set_remaining maker (remaining maker - qty)).
  destruct (decide (remaining maker1 <= 0)) as [Hfilled|Hleft].
  - destruct rest as [|m2 rest2].
    + cbn [walk_queue].
      by destruct (walk_levels others incoming1) as [[? ?] ?].
    + cbn [walk_levels pl_price queue set_queue].
      replace (crosses incoming1 p) with true by (symmetry; exact Hcr).
      rewrite andb_true_r.
      destruct (bool_decide (0 < remaining incoming1)) eqn:Hrem1.
      * destruct (walk_queue p (m2 :: rest2) incoming1) as [[ts q'] i].
        destruct q' as [|? ?]; [|done].
        by destruct (walk_levels others i) as [[? ?] ?].
      * cbn [walk_queue]. by rewrite Hrem1.
  - cbn [walk_levels pl_price queue set_queue].
    replace (bool_decide (0 < remaining incoming1)) with false; [done|].
    symmetry. apply bool_decide_eq_false. subst incoming1 maker1 qty.
    simpl in *. lia.
Qed.

Lemma view_step_facts v ix ltp incoming v' ix' ltp' incoming' t :
  view_step v ix ltp incoming = Some (v', ix', ltp', incoming', t) ->
  ix' = index_after ix (opt_list t)
  /\ ltp' = ltp_after ltp (opt_list t)
  /\ (side incoming' = side incoming /\ 0 < remaining incoming)
  /\ (exists best others,
        v = best :: others
        /\ (v' = others \/ exists q, v' = set_queue q best :: others))
  /\ ((sd_size v' < sd_size v)%nat
      \/ (sd_size v' = sd_size v /\ remaining incoming' <= 0)).
Proof.
  destruct v as [|[p q] others]; [done|]. cbn [view_step pl_price queue].
  destruct (bool_decide (0 < remaining incoming)) eqn:Hrem; [|done].
  apply bool_decide_eq_true in Hrem.
  destruct (crosses incoming p); [|done]. cbn [andb].
  destruct q as [|maker rest].
  { intros [= <- <- <- <- <-]. split_and!; try done.
    - exists (mkPriceLevel p []), others. auto.
    - left. rewrite sd_size_cons. lia. }
  unfold fill_of. cbn zeta.
  set (qty := remaining incoming `min` remaining maker).
  destruct (decide (remaining (set_remaining maker (remaining maker - qty))
                    <= 0)) as [Hfilled|Hleft].
  - intros [= <- <- <- <- <-]. split_and!; try done.
    + unfold index_after. simpl. by rewrite decide_True.
    + exists (mkPriceLevel p (maker :: rest)), others. split; [done|].
      destruct rest; [by left|right; by eexists].
    + left. destruct rest; rewrite !sd_size_cons; simpl; lia.
  - intros [= <- <- <- <- <-]. split_and!; try done.
    + unfold index_after. simpl. by rewrite decide_False.
    + exists (mkPriceLevel p (maker :: rest)), others. split; [done|].
      right; by eexists.
    + right. rewrite !sd_size_cons. simpl in *. split; [done|lia].
Qed.

Lemma view_step_NoDup v ix ltp incoming v' ix' ltp' incoming' t :
  view_step v ix ltp incoming = Some (v', ix', ltp', incoming', t) ->
  NoDup (pl_price <$> v) -> NoDup (pl_price <$> v').
Proof.
  intros (_ & _ & _ & (best & others & -> & Hv') & _)%view_step_facts Hnd.
  rewrite fmap_cons in Hnd.
  destruct Hv' as [->|[q ->]]; [by apply NoDup_cons_1_2 in Hnd|done].
Qed.

(** With enough fuel the loop of the source computes the walk. *)
Lemma match_loop_walk fuel : forall b incoming acc,
  NoDup (pl_price <$> opp_view (side incoming) b) ->
  (sd_size (opp_view (side incoming) b) + 1
   + (if bool_decide (0 < remaining incoming)%Z then 1 else 0) <= fuel)%nat ->
  match_loop fuel b incoming acc =
  let '(ts, v', incoming') :=
    walk_levels (opp_view (side incoming) b) incoming in
  (with_opp_view (side incoming) b v' (index_after (order_index b) ts)
     (ltp_after (last_trade_price b) ts),
   incoming', acc ++ ts).
Proof.
  induction fuel as [|n IH]; intros b incoming acc Hnd Hfuel; [lia|].
  cbn [match_loop]. rewrite match_step_view by done.
  rewrite (walk_unfold _ (order_index b) (last_trade_price b)).
  destruct (view_step _ _ _ incoming)
    as [[[[[v' ix'] ltp'] incoming'] t]|] eqn:Hstep; cbn [fmap option_fmap option_map].
  - pose proof (view_step_NoDup _ _ _ _ _ _ _ _ _ Hstep Hnd) as Hnd'.
    apply view_step_facts in Hstep as (-> & -> & [Hside Hpos] & _ & Hsize).
    pose proof (IH (with_opp_view (side incoming) b v'
                      (index_after (order_index b) (opt_list t))
                      (ltp_after (last_trade_price b) (opt_list t)))
                  incoming' (acc ++ opt_list t)) as IH'.
    rewrite Hside, opp_view_with in IH'. rewrite IH'; [|done|].
    + destruct (walk_levels v' incoming') as [[ts v''] incoming''].
      rewrite with_opp_view_twice. unfold index_after, ltp_after.
      rewrite !foldl_app, app_assoc. by destruct (side incoming).
    + rewrite bool_decide_eq_true_2 in Hfuel by done.
      case_bool_decide; destruct Hsize; lia.
  - by rewrite with_opp_view_id, app_nil_r.
Qed.
End WalkLoop.

Section MatchSpec.
Implicit Types (b : OrderBook) (incoming : Order) (v : list PriceLevel).

Lemma StronglySorted_lt_NoDup (l : list Z) : StronglySorted Z.lt l -> NoDup l.
Proof.
  induction 1 as [|a l _ IH Hall]; constructor; [|done].
  intros Hin. rewrite Forall_forall in Hall. specialize (Hall a Hin). lia.
Qed.

Lemma StronglySorted_reverse_flip (l : list Z) :
  StronglySorted Z.lt l -> StronglySorted (flip Z.lt) (reverse l).
Proof.
  induction 1 as [|a l _ IH Hall]; [constructor|].
  rewrite reverse_cons. apply StronglySorted_app. split_and!.
  - intros x1 x2 Hx1 ->%list_elem_of_singleton.
    rewrite elem_of_reverse in Hx1.
    rewrite Forall_forall in Hall. unfold flip. by apply Hall.
  - done.
  - repeat constructor.
Qed.

(** The view of a sorted side is sorted best first. *)
Lemma opp_view_best_first s b :
  sd_sorted (_get_side_book b (opposite s)) ->
  StronglySorted (better s) (pl_price <$> opp_view s b).
Proof.
  unfold sd_sorted. destruct s; simpl; [done|].
  rewrite fmap_reverse. apply StronglySorted_reverse_flip.
Qed.

Lemma opp_view_NoDup s b :
  sd_sorted (_get_side_book b (opposite s)) ->
  NoDup (pl_price <$> opp_view s b).
Proof.
  intros Hs%StronglySorted_lt_NoDup. destruct s; simpl in *; [done|].
  rewrite fmap_reverse. by rewrite reverse_Permutation.
Qed.

Lemma opp_view_size s b :
  sd_size (opp_view s b) = sd_size (_get_side_book b (opposite s)).
Proof. destruct s; simpl; [done|apply sd_size_reverse]. Qed.

(** [match] computes the walk through the opposite levels. *)
Lemma match_walk b incoming :
  NoDup (pl_price <$> opp_view (side incoming) b) ->
  match_ b incoming =
  let '(ts, v', incoming') :=
    walk_levels (opp_view (side incoming) b) incoming in
  (with_opp_view (side incoming) b v' (index_after (order_index b) ts)
     (ltp_after (last_trade_price b) ts),
   incoming', ts).
Proof.
  intros Hnd. unfold match_, match_fuel.
  rewrite match_loop_walk; [done|done|].
  rewrite opp_view_size. case_bool_decide; lia.
Qed.

(** The walk ends in a state where the loop condition fails. *)
Lemma walk_final n : forall v incoming ix ltp,
  (sd_size v + (if bool_decide (0 < remaining incoming)%Z then 1 else 0)
   <= n)%nat ->
  let '(_, v', incoming') := walk_levels v incoming in
  view_step v' ix ltp incoming' = None.
Proof.
  induction n as [|n IH]; intros v incoming ix ltp Hn.
  - rewrite (walk_unfold _ ix ltp).
    destruct (view_step v ix ltp incoming)
      as [[[[[v' ix'] ltp'] incoming'] t]|] eqn:Hstep; [|done].
    apply view_step_facts in Hstep as (_ & _ & [_ Hpos] & _).
    rewrite bool_decide_eq_true_2 in Hn by done. lia.
  - rewrite (walk_unfold _ ix ltp).
    destruct (view_step v ix ltp incoming)
      as [[[[[v' ix'] ltp'] incoming'] t]|] eqn:Hstep; [|done].
    apply view_step_facts in Hstep as (_ & _ & [_ Hpos] & _ & Hsize).
    rewrite bool_decide_eq_true_2 in Hn by done.
    specialize (IH v' incoming' ix ltp).
    destruct (walk_levels v' incoming') as [[ts v''] incoming''].
    apply IH. case_bool_decide; destruct Hsize; lia.
Qed.

(** The walk changes nothing of the incoming order but [remaining]. *)
Lemma walk_queue_incoming p q : forall incoming,
  let '(_, _, incoming') := walk_queue p q incoming in
  incoming' = set_remaining incoming (remaining incoming').
Proof.
  induction q as [|maker rest IH]; intros incoming; cbn [walk_queue].
  { by destruct incoming. }
  case_bool_decide; [|by destruct incoming].
  unfold fill_of. cbn zeta. case_decide; [|done].
  specialize (IH (set_remaining incoming
                    (remaining incoming
                     - remaining incoming `min` remaining maker))).
  destruct (walk_queue p rest _) as [[ts q'] incoming'].
  by rewrite IH.
Qed.

Lemma walk_levels_incoming v : forall incoming,
  let '(_, _, incoming') := walk_levels v incoming in
  incoming' = set_remaining incoming (remaining incoming').
Proof.
  induction v as [|level rest IH]; intros incoming; cbn [walk_levels].
  { by destruct incoming. }
  destruct (_ && _); [|by destruct incoming].
  pose proof (walk_queue_incoming (pl_price level) (queue level) incoming)
    as Hq.
  destruct (walk_queue _ _ incoming) as [[ts q'] incoming1].
  destruct q' as [|? ?]; [|done].
  specialize (IH incoming1).
  destruct (walk_levels rest incoming1) as [[ts2 rest'] incoming2].
  rewrite IH, Hq. done.
Qed.

(** The levels left by the walk keep the prices, in order, of a final
    segment of the levels it started from. *)
Lemma walk_levels_prices v : forall incoming,
  let '(_, v', _) := walk_levels v incoming in
  (pl_price <$> v') `suffix_of` (pl_price <$> v).
Proof.
  induction v as [|level rest IH]; intros incoming; cbn [walk_levels].
  { done. }
  destruct (_ && _); [|done].
  destruct (walk_queue _ _ incoming) as [[ts q'] incoming1].
  destruct q' as [|? ?]; [|done].
  specialize (IH incoming1).
  destruct (walk_levels rest incoming1) as [[ts2 rest'] incoming2].
  rewrite fmap_cons. by apply suffix_cons_r.
Qed.

Lemma walk_levels_NoDup v incoming :
  NoDup (pl_price <$> v) ->
  NoDup (pl_price <$> (walk_levels v incoming).1.2).
Proof.
  intros Hnd. pose proof (walk_levels_prices v incoming) as Hsuf.
  destruct (walk_levels v incoming) as [[ts v'] incoming']. simpl.
  destruct Hsuf as [k Hk]. rewrite Hk in Hnd.
  by apply NoDup_app in Hnd as (_ & _ & ?).
Qed.

(** Termination: [match] leaves the loop because its condition fails, not
    because the fuel of the model runs out. *)
Lemma match_exits b incoming :
  NoDup (pl_price <$> opp_view (side incoming) b) ->
  let '(b', incoming', _) := match_ b incoming in
  match_step b' incoming' = None.
Proof.
  intros Hnd. rewrite match_walk by done.
  pose proof (walk_final (S (sd_size (opp_view (side incoming) b)))
                (opp_view (side incoming) b) incoming) as Hfin.
  pose proof (walk_levels_incoming (opp_view (side incoming) b) incoming)
    as Hinc.
  pose proof (walk_levels_NoDup _ incoming Hnd) as Hnd'.
  destruct (walk_levels (opp_view (side incoming) b) incoming)
    as [[ts v'] incoming'] eqn:Hwalk.
  assert (Hside : side incoming' = side incoming) by by rewrite Hinc.
  rewrite match_step_view; rewrite Hside, opp_view_with; [|done].
  rewrite Hfin; [done|]. case_bool_decide; lia.
Qed.
End MatchSpec.

Section FifoFacts.
Implicit Types (b : OrderBook) (incoming : Order) (v : list PriceLevel).

Lemma walk_queue_cons p maker rest incoming :
  walk_queue p (maker :: rest) incoming =
  if bool_decide (0 < remaining incoming) then
    if decide (remaining maker
               - remaining incoming `min` remaining maker <= 0) then
      let '(ts, q', incoming') :=
        walk_queue p rest
          (set_remaining incoming
             (remaining incoming
              - remaining incoming `min` remaining maker)) in
      (fill_of p maker incoming :: ts, q', incoming')
    else
      ([fill_of p maker incoming],
       set_remaining maker
         (remaining maker - remaining incoming `min` remaining maker)
       :: rest,
       set_remaining incoming
         (remaining incoming - remaining incoming `min` remaining maker))
  else ([], maker :: rest, incoming).
Proof. done. Qed.

(** Each fill of a level queue is the fill of one of its makers by the
    incoming order, at the level price. *)
Lemma walk_queue_fills p q : forall incoming,
  Forall (fun t => exists maker taker,
              maker ∈ q
              /\ taker = set_remaining incoming (remaining taker)
              /\ t = fill_of p maker taker)
    (walk_queue p q incoming).1.1.
Proof.
  induction q as [|maker rest IH]; intros incoming.
  { constructor. }
  rewrite walk_queue_cons.
  case_bool_decide; [|constructor].
  assert (Hhead : exists maker0 taker,
             maker0 ∈ maker :: rest
             /\ taker = set_remaining incoming (remaining taker)
             /\ fill_of p maker incoming = fill_of p maker0 taker).
  { exists maker, incoming. split_and!; [left|by destruct incoming|done]. }
  case_decide; [|by repeat constructor].
  specialize (IH (set_remaining incoming
                    (remaining incoming
                     - remaining incoming `min` remaining maker))).
  destruct (walk_queue p rest _) as [[ts q'] incoming']. simpl in *.
  constructor; [done|].
  eapply Forall_impl; [exact IH|].
  intros t (maker0 & taker & Hin & Htaker & ->).
  exists maker0, taker. split_and!; [by right| |done].
  rewrite Htaker. done.
Qed.

Lemma walk_levels_fills v : forall incoming,
  Forall (fun t => exists level maker taker,
              level ∈ v /\ maker ∈ queue level
              /\ taker = set_remaining incoming (remaining taker)
              /\ t = fill_of (pl_price level) maker taker)
    (walk_levels v incoming).1.1.
Proof.
  induction v as [|level rest IH]; intros incoming; cbn [walk_levels].
  { constructor. }
  destruct (_ && _); [|constructor].
  pose proof (walk_queue_fills (pl_price level) (queue level) incoming) as Hq.
  pose proof (walk_queue_incoming (pl_price level) (queue level) incoming)
    as Hinc.
  destruct (walk_queue _ _ incoming) as [[ts q'] incoming1]. simpl in Hq.
  assert (Hts : Forall (fun t => exists level0 maker taker,
              level0 ∈ level :: rest /\ maker ∈ queue level0
              /\ taker = set_remaining incoming (remaining taker)
              /\ t = fill_of (pl_price level0) maker taker) ts).
  { eapply Forall_impl; [exact Hq|].
    intros t (maker & taker & ? & ? & ->).
    exists level, maker, taker. split_and!; [left|done..]. }
  destruct q' as [|? ?]; [|done].
  specialize (IH incoming1).
  destruct (walk_levels rest incoming1) as [[ts2 rest'] incoming2].
  simpl in *. apply Forall_app. split; [done|].
  eapply Forall_impl; [exact IH|].
  intros t (level0 & maker & taker & ? & ? & Htaker & ->).
  exists level0, maker, taker. split_and!; [by right|done| |done].
  rewrite Htaker, Hinc. done.
Qed.

(** Makers leave a queue from its front, one after the other. *)
Lemma walk_queue_ids p q : forall incoming,
  let '(ts, q', _) := walk_queue p q incoming in
  maker_ids ts `prefix_of` (order_id <$> q)
  /\ (q' = [] -> maker_ids ts = order_id <$> q).
Proof.
  induction q as [|maker rest IH]; intros incoming.
  { done. }
  rewrite walk_queue_cons.
  case_bool_decide; [|split; [apply prefix_nil|done]].
  case_decide.
  - specialize (IH (set_remaining incoming
                      (remaining incoming
                       - remaining incoming `min` remaining maker))).
    destruct (walk_queue p rest _) as [[ts q'] incoming'].
    destruct IH as [Hpre Hall]. split.
    + by apply prefix_cons.
    + intros Hq'. simpl. f_equal. by apply Hall.
  - split; [|done]. simpl. apply prefix_cons, prefix_nil.
Qed.

(** Strict price-time priority: the makers are filled in the order of
    the priority queue, none is skipped. *)
Lemma walk_levels_ids v : forall incoming,
  maker_ids (walk_levels v incoming).1.1
    `prefix_of` (order_id <$> priority_queue v).
Proof.
  unfold priority_queue.
  induction v as [|level rest IH]; intros incoming; cbn [walk_levels].
  { done. }
  destruct (_ && _); [|apply prefix_nil].
  pose proof (walk_queue_ids (pl_price level) (queue level) incoming) as Hq.
  destruct (walk_queue _ _ incoming) as [[ts q'] incoming1].
  destruct Hq as [Hpre Hall].
  rewrite bind_cons, fmap_app.
  destruct q' as [|? ?]; [|by apply prefix_app_r].
  specialize (IH incoming1).
  destruct (walk_levels rest incoming1) as [[ts2 rest'] incoming2].
  simpl in *. unfold maker_ids in *. rewrite fmap_app, Hall by done.
  by apply prefix_app.
Qed.
End FifoFacts.

(** * C1: price-time priority of [OrderBook.match] *)

(** C1.  For every incoming order matched against a book whose opposite
    side is a well-formed sorted dictionary, [match] performs the FIFO walk
    [walk_levels] through the opposite levels taken best price first: each
    fill is [fill_of] a maker of a level against the incoming order, so it
    executes at the price of the maker's level with quantity
    [min(incoming.remaining, maker.remaining)]; the makers are filled in the
    order of the priority queue (best level first, each queue front to
    back) with none skipped; a maker filled completely is popped and loses
    its [order_index] entry, and a level whose queue is emptied is removed;
    [last_trade_price] is the price of the last fill; and the loop stops
    because its own condition fails. *)
Theorem match_price_time_priority (b : OrderBook) (incoming : Order) :
  sd_sorted (_get_side_book b (opposite (side incoming))) ->
  let v := opp_view (side incoming) b in
  let b' := (match_ b incoming).1.1 in
  let incoming' := (match_ b incoming).1.2 in
  let trades := (match_ b incoming).2 in
  StronglySorted (better (side incoming)) (pl_price <$> v)
  /\ walk_levels v incoming = (trades, opp_view (side incoming) b', incoming')
  /\ Forall (fun t => exists level maker taker,
                 level ∈ v /\ maker ∈ queue level
                 /\ taker = set_remaining incoming (remaining taker)
                 /\ t = fill_of (pl_price level) maker taker) trades
  /\ maker_ids trades `prefix_of` (order_id <$> priority_queue v)
  /\ order_index b' = index_after (order_index b) trades
  /\ last_trade_price b' = ltp_after (last_trade_price b) trades
  /\ _get_side_book b' (side incoming) = _get_side_book b (side incoming)
  /\ match_step b' incoming' = None.
Proof.
  intros Hsorted. cbn zeta.
  pose proof (opp_view_NoDup _ _ Hsorted) as Hnd.
  pose proof (match_exits b incoming Hnd) as Hexit.
  pose proof (walk_levels_fills (opp_view (side incoming) b) incoming) as Hfills.
  pose proof (walk_levels_ids (opp_view (side incoming) b) incoming) as Hids.
  rewrite match_walk in * by done.
  destruct (walk_levels (opp_view (side incoming) b) incoming)
    as [[ts v'] incoming'] eqn:Hwalk.
  cbn [fst snd] in *. rewrite opp_view_with. split_and!; try done.
  - by apply opp_view_best_first.
  - by destruct (side incoming).
  - by destruct (side incoming).
  - by destruct (side incoming).
Qed.

(** The theorem at the book and the market buy of the repository's test:
    two fills, 2 at 100 from [a1] and then 0.5 at 101 from [a2]. *)
Lemma match_price_time_priority_witness :
  sd_sorted (_get_side_book test_book (opposite (side test_buy)))
  /\ maker_ids (match_ test_book test_buy).2 = ["a1"; "a2"]
  /\ (fun '(_, _, p, q) => (p, q)) <$> (match_ test_book test_buy).2
     = [(dec 100, dec 2); (dec 101, 5 * DEC_UNIT / 10)]
  /\ match_step (match_ test_book test_buy).1.1 (match_ test_book test_buy).1.2
     = None.
Proof.
  assert (Hsorted : sd_sorted (_get_side_book test_book
                                 (opposite (side test_buy)))).
  { unfold sd_sorted. apply (bool_decide_unpack _). by vm_compute. }
  split; [exact Hsorted|].
  destruct (match_price_time_priority test_book test_buy Hsorted)
    as (_ & _ & _ & _ & _ & _ & _ & Hexit).
  split_and!; [by vm_compute..|exact Hexit].
Defined.

(** * C10: the frame of [OrderBook.match] *)

Section Frame.
Implicit Types (b : OrderBook) (incoming : Order) (sd : SortedDict).

Lemma in_sd_alter_set_queue q p sd o :
  o ∈ sd_alter (set_queue q) p sd ≫= queue ->
  o ∈ sd ≫= queue \/ o ∈ q.
Proof.
  induction sd as [|l sd IH]; cbn [sd_alter]; [by left|].
  case_decide.
  - rewrite !bind_cons, !elem_of_app. simpl. tauto.
  - rewrite !bind_cons, !elem_of_app. tauto.
Qed.

Lemma in_sd_del p sd o : o ∈ sd_del p sd ≫= queue -> o ∈ sd ≫= queue.
Proof.
  induction sd as [|l sd IH]; cbn [sd_del]; [done|].
  case_decide; rewrite !bind_cons, !elem_of_app; tauto.
Qed.

Lemma in_level_queue (l : PriceLevel) sd o :
  l ∈ sd -> o ∈ queue l -> o ∈ sd ≫= queue.
Proof. intros. apply list_elem_of_bind. by exists l. Qed.

(** What one turn of the loop may change. *)
Lemma match_step_frame b incoming b' incoming' t :
  match_step b incoming = Some (b', incoming', t) ->
  ob_symbol b' = ob_symbol b
  /\ _get_side_book b' (side incoming) = _get_side_book b (side incoming)
  /\ incoming' = set_remaining incoming (remaining incoming')
  /\ (order_index b' = order_index b
      \/ exists m tk p q,
           t = Some (m, tk, p, q) /\ remaining m <= 0
           /\ order_index b' = delete (order_id m) (order_index b))
  /\ (forall o', o' ∈ _get_side_book b' (opposite (side incoming)) ≫= queue ->
        exists o, o ∈ _get_side_book b (opposite (side incoming)) ≫= queue
                  /\ o' = set_remaining o (remaining o')).
Proof.
  unfold match_step. destruct (_ && _); [|done].
  destruct (match side incoming with
            | buy => _best_ask b
            | sell => _best_bid b
            end) as [best|] eqn:Hbest; [|done].
  assert (Hin : best ∈ _get_side_book b (opposite (side incoming))).
  { destruct (side incoming); simpl in *.
    - by apply head_Some_elem_of.
    - by apply last_Some_elem_of. }
  assert (Hself : forall o, o ∈ _get_side_book b (opposite (side incoming))
                                ≫= queue ->
                  exists o0, o0 ∈ _get_side_book b (opposite (side incoming))
                                 ≫= queue
                             /\ o = set_remaining o0 (remaining o)).
  { intros o Ho. exists o. split; [done|by destruct o]. }
  destruct (queue best) as [|maker rest] eqn:Hq.
  { intros [= <- <- <-]. split_and!.
    - by destruct b, (side incoming).
    - by destruct b, (side incoming).
    - by destruct incoming.
    - left. by destruct b, (side incoming).
    - intros o' Ho'. apply Hself.
      destruct b, (side incoming); simpl in *; by apply in_sd_del in Ho'. }
  set (qty := remaining incoming `min` remaining maker).
  assert (Hmaker : maker ∈ _get_side_book b (opposite (side incoming))
                             ≫= queue).
  { apply (in_level_queue best); [done|]. rewrite Hq. left. }
  assert (Hrest : forall o, o ∈ rest ->
                    o ∈ _get_side_book b (opposite (side incoming))
                        ≫= queue).
  { intros o Ho. apply (in_level_queue best); [done|].
    rewrite Hq. by right. }
  assert (Hnew : forall o',
             o' ∈ set_remaining maker (remaining maker - qty) :: rest ->
             exists o, o ∈ _get_side_book b (opposite (side incoming))
                           ≫= queue
                       /\ o' = set_remaining o (remaining o')).
  { intros o' [->|Ho']%elem_of_cons.
    - by exists maker.
    - apply Hself. by apply Hrest. }
  intros [= <- <- <-]. cbn [remaining set_remaining]. split_and!.
  - case_decide; destruct b, (side incoming), rest; done.
  - case_decide; destruct b, (side incoming), rest; done.
  - done.
  - case_decide.
    + right. eexists _, _, _, _. split_and!; [done|done|].
      destruct b, (side incoming), rest; done.
    + left. by destruct b, (side incoming).
  - intros o'. case_decide.
    + intros Ho'.
      assert (o' ∈ sd_alter (set_queue rest) (pl_price best)
                   (sd_alter
                      (set_queue
                         (set_remaining maker (remaining maker - qty) :: rest))
                      (pl_price best)
                      (_get_side_book b (opposite (side incoming))))
                 ≫= queue) as Ho.
      { destruct b, (side incoming), rest; simpl in *;
          try done; by apply in_sd_del in Ho'. }
      apply in_sd_alter_set_queue in Ho as [Ho|Ho].
      * apply in_sd_alter_set_queue in Ho as [Ho|Ho]; [by apply Hself|].
        by apply Hnew.
      * apply Hself. by apply Hrest.
    + intros Ho'.
      assert (o' ∈ sd_alter
                     (set_queue
                        (set_remaining maker (remaining maker - qty) :: rest))
                     (pl_price best)
                     (_get_side_book b (opposite (side incoming)))
                 ≫= queue) as Ho.
      { by destruct b, (side incoming). }
      apply in_sd_alter_set_queue in Ho as [Ho|Ho]; [by apply Hself|].
      by apply Hnew.
Qed.

(** The frame of the whole loop, for any amount of fuel. *)
Lemma match_loop_frame fuel : forall b incoming acc,
  let r := match_loop fuel b incoming acc in
  ob_symbol r.1.1 = ob_symbol b
  /\ _get_side_book r.1.1 (side incoming) = _get_side_book b (side incoming)
  /\ r.1.2 = set_remaining incoming (remaining r.1.2)
  /\ (exists new,
        r.2 = acc ++ new
        /\ forall id,
             order_index r.1.1 !! id = order_index b !! id
             \/ (order_index r.1.1 !! id = None
                 /\ exists m tk p q,
                      (m, tk, p, q) ∈ new /\ order_id m = id
                      /\ remaining m <= 0))
  /\ (forall o',
        o' ∈ _get_side_book r.1.1 (opposite (side incoming)) ≫= queue ->
        exists o, o ∈ _get_side_book b (opposite (side incoming)) ≫= queue
                  /\ o' = set_remaining o (remaining o')).
Proof.
  induction fuel as [|n IH]; intros b incoming acc; cbn [match_loop].
  { cbn zeta. cbn [fst snd]. split_and!; try done.
    - by destruct incoming.
    - exists []. rewrite app_nil_r. split; [done|]. by left.
    - intros o' Ho'. exists o'. split; [done|by destruct o']. }
  destruct (match_step b incoming) as [[[b1 incoming1] t]|] eqn:Hstep.
  2:{ cbn zeta. cbn [fst snd]. split_and!; try done.
      - by destruct incoming.
      - exists []. rewrite app_nil_r. split; [done|]. by left.
      - intros o' Ho'. exists o'. split; [done|by destruct o']. }
  apply match_step_frame in Hstep as (Hsym & Hown & Hinc & Hix & Hopp).
  assert (Hside : side incoming1 = side incoming) by by rewrite Hinc.
  specialize (IH b1 incoming1 (acc ++ opt_list t)). cbn zeta in IH |- *.
  rewrite Hside in IH.
  destruct IH as (Hsym' & Hown' & Hinc' & (new & Hnew & Hix') & Hopp').
  split_and!.
  - congruence.
  - congruence.
  - rewrite Hinc', Hinc. done.
  - exists (opt_list t ++ new). split; [by rewrite Hnew, app_assoc|].
    intros id. destruct (Hix' id) as [Hsame|(Hnone & m & tk & p & q & Hin & ?)].
    + destruct Hix as [Hb1|(m & tk & p & q & Ht & Hm & Hb1)];
        rewrite Hb1 in Hsame; [by left|].
      subst t. rewrite Hsame.
      destruct (decide (order_id m = id)) as [<-|Hne].
      * right. rewrite lookup_delete_eq. split; [done|].
        exists m, tk, p, q. split_and!; [left|done|done].
      * left. by rewrite lookup_delete_ne.
    + right. split; [done|]. exists m, tk, p, q.
      split; [|done]. apply elem_of_app. by right.
  - intros o' Ho'. destruct (Hopp' o' Ho') as (o1 & Ho1 & Heq).
    destruct (Hopp o1 Ho1) as (o & Ho & Heq1). exists o. split; [done|].
    rewrite Heq, Heq1. done.
Qed.

(** [match] on the orders: the incoming order and every order left on the
    book are orders met before, changed in [remaining] at most. *)
Lemma match_effects b incoming :
  _get_side_book (match_ b incoming).1.1 (side incoming)
  = _get_side_book b (side incoming)
  /\ (match_ b incoming).1.2
     = set_remaining incoming (remaining (match_ b incoming).1.2)
  /\ (forall o',
        o' ∈ _get_side_book (match_ b incoming).1.1
               (opposite (side incoming)) ≫= queue ->
        exists o, o ∈ _get_side_book b (opposite (side incoming)) ≫= queue
                  /\ o' = set_remaining o (remaining o')).
Proof.
  unfold match_.
  destruct (match_loop_frame
              (match_fuel (_get_side_book b (opposite (side incoming))))
              b incoming [])
    as (_ & Hown & Hinc & _ & Hopp).
  by split_and!.
Qed.
End Frame.


(** * C3: fill-or-kill *)

Section Liquidity.
Implicit Types (q : list Order) (v : list PriceLevel) (need r : Decimal).

Lemma foldl_remaining q : forall a,
  foldl (fun qty o => qty + remaining o) a q
  = a + foldl (fun qty o => qty + remaining o) 0 q.
Proof.
  induction q as [|o q IH]; intros a; simpl; [lia|].
  rewrite (IH (a + remaining o)), (IH (0 + remaining o)). lia.
Qed.

Lemma total_quantity_cons p o q :
  total_quantity (mkPriceLevel p (o :: q))
  = remaining o + total_quantity (mkPriceLevel p q).
Proof. unfold total_quantity. simpl. rewrite foldl_remaining. lia. Qed.

Lemma total_quantity_nonneg p q :
  (forall o, o ∈ q -> 0 <= remaining o) ->
  0 <= total_quantity (mkPriceLevel p q).
Proof.
  induction q as [|o q IH]; intros Hq; [done|].
  rewrite total_quantity_cons.
  assert (0 <= remaining o) by (apply Hq; left).
  assert (0 <= total_quantity (mkPriceLevel p q)).
  { apply IH. intros o' Ho'. apply Hq. by right. }
  lia.
Qed.







End Liquidity.

Section DictLemmas.
Context {V : Type}.
Implicit Types (d : dict V) (k : string) (v : V).

Lemma dict_get_set_same k v d : dict_get k (dict_set k v d) = Some v.
Proof.
  induction d as [|[k' v'] d IH]; simpl.
  - by rewrite decide_True.
  - case_decide; simpl; [by rewrite decide_True|by rewrite decide_False].
Qed.


Lemma dict_set_get_id k v d : dict_get k d = Some v -> dict_set k v d = d.
Proof.
  induction d as [|[k' v'] d IH]; simpl; [done|].
  case_decide; [by intros [= ->]; subst|]. intros ?. f_equal. by apply IH.
Qed.
End DictLemmas.

Section FillOrKill.
Implicit Types (b book : OrderBook) (incoming : Order)
  (v : list PriceLevel) (st : MatchingEngine).









Lemma ensure_book_get st sym :
  dict_get sym (books (_ensure_book st sym)) = Some (book_of st sym).
Proof.
  unfold _ensure_book, book_of.
  destruct (dict_get sym (books st)) as [bk|] eqn:Hget; simpl; [done|].
  apply dict_get_set_same.
Qed.

Lemma put_book_same st sym book :
  dict_get sym (books st) = Some book -> put_book st sym book = st.
Proof.
  intros Hget. unfold put_book. rewrite dict_set_get_id by done.
  by destruct st.
Qed.
End FillOrKill.




(** Scenario 4 of the specification, evaluated: on the same engine
    [buy fok 2 @ 100] is accepted with nothing filled and no trade. *)
Example fok_reject_scenario :
  exists order,
    (submit_order engine_one_ask fok_too_much test_now).2 = Ok (order, [])
    /\ remaining order = quantity order
    /\ books (submit_order engine_one_ask fok_too_much test_now).1
       = books engine_one_ask.
Proof. eexists. by vm_compute. Qed.

(** * C2: what [submit_order] does with the requests the specification
    calls invalid *)

Section NoValidation.
Implicit Types (b : OrderBook) (incoming : Order) (st : MatchingEngine).

Lemma match_nothing_left b incoming :
  remaining incoming <= 0 -> match_ b incoming = (b, incoming, []).
Proof.
  intros Hrem. unfold match_, match_fuel. cbn [match_loop].
  unfold match_step. by rewrite bool_decide_eq_false_2 by lia.
Qed.

Lemma match_not_crossable b incoming :
  _crossable b incoming = false -> match_ b incoming = (b, incoming, []).
Proof.
  intros Hcr. unfold match_, match_fuel. cbn [match_loop].
  unfold match_step. by rewrite Hcr, andb_false_r.
Qed.

Lemma crossable_without_price b incoming :
  type incoming <> market -> price incoming = None ->
  _crossable b incoming = false.
Proof.
  intros Hty Hp. unfold _crossable. destruct (best_prices b).
  by rewrite decide_False, Hp.
Qed.

Lemma ensure_book_triggers st sym :
  triggers (_ensure_book st sym) = triggers st.
Proof. unfold _ensure_book. by destruct (dict_get sym (books st)). Qed.


Lemma ensure_book_recent_trades st sym :
  recent_trades (_ensure_book st sym) = recent_trades st.
Proof. unfold _ensure_book. by destruct (dict_get sym (books st)). Qed.
End NoValidation.

(** C2, the claim as stated fails: a stop request with quantity -1 and no
    stop price is accepted without any error and is appended to the
    triggers list of its symbol. *)
Lemma submit_validation_counterexample :
  ~ (forall st req now,
       invalid_request req ->
       is_ok (submit_order st req now).2 = false
       /\ triggers (submit_order st req now).1 = triggers st).
Proof.
  intros Hclaim.
  destruct (Hclaim new_engine bad_stop_request test_now) as [Herr _].
  - left. by vm_compute.
  - by vm_compute in Herr.
Qed.

(** C2, amended.  [submit_order] validates nothing.  (1) A stop, stop_limit
    or take_profit request is always accepted: the order, built from the
    request as it is, is appended to the triggers list of its symbol and
    indexed, whatever its quantity and trigger prices.  (2) A market,
    limit, ioc or fok request with a non-positive quantity is accepted with
    no trade and does not rest.  (3) A limit request with a positive
    quantity and a null price raises the [AssertionError] of [add_limit].
    In (2) and (3) the engine state after the call is the state before it
    but for the id counter and the empty book that [_ensure_book] creates
    for a new symbol: no level, trigger, index entry or recent trade
    changes. *)
Theorem submit_without_validation (st : MatchingEngine) (req : OrderRequest)
    (now : string) :
  let sym := req_symbol req in
  let st0 := _ensure_book st sym in
  let st1 := set_id_counter st0 (S (id_counter st0)) in
  let order :=
    mkOrder (next_id "ord" (id_counter st0)) sym (req_side req) (req_type req)
      (req_quantity req) (req_quantity req) (req_price req) now
      (req_client_order_id req) (req_stop_price req)
      (req_take_profit_price req) None in
  (is_trigger_type (req_type req) = true ->
     (submit_order st req now).2 = Ok (order, [])
     /\ triggers_of (submit_order st req now).1 sym
        = triggers_of st sym ++ [order]
     /\ order_symbol_index (submit_order st req now).1 !! order_id order
        = Some sym)
  /\ (is_trigger_type (req_type req) = false -> req_quantity req <= 0 ->
        submit_order st req now = (st1, Ok (order, [])))
  /\ (req_type req = limit -> req_price req = None -> 0 < req_quantity req ->
        submit_order st req now = (st1, Raise AssertionError)).
Proof.
  intros sym st0 st1 order. unfold submit_order. fold sym st0 st1 order.
  assert (Hget : dict_get sym (books st1) = Some (book_of st sym))
    by apply ensure_book_get.
  rewrite Hget. cbn [type order]. split_and!.
  - intros ->. cbn [fst snd]. split_and!; [done| |].
    + unfold triggers_of. cbn [triggers set_order_symbol_index set_triggers].
      rewrite dict_get_set_same. unfold st1, st0. cbn [triggers set_id_counter].
      by rewrite ensure_book_triggers.
    + cbn [order_symbol_index set_order_symbol_index].
      by rewrite lookup_insert_eq.
  - intros -> Hqty.
    rewrite (match_nothing_left _ order) by done.
    rewrite put_book_same by done. cbn [_record_trades remaining order].
    rewrite (bool_decide_eq_false_2 (0 < req_quantity req)) by lia.
    cbn [andb]. by destruct (_ && _).
  - intros Hty Hprice Hqty. rewrite Hty. cbn [is_trigger_type].
    rewrite (bool_decide_eq_false_2 (limit = fok)) by done. cbn [andb].
    rewrite (match_not_crossable _ order).
    2:{ apply crossable_without_price; simpl; [by rewrite Hty|done]. }
    rewrite put_book_same by done. cbn [_record_trades remaining type order].
    rewrite bool_decide_eq_true_2 by done.
    rewrite Hty, bool_decide_eq_true_2 by done. cbn [andb].
    unfold add_limit. cbn [price order]. by rewrite Hprice.
Qed.

(** The theorem at a fresh engine: the stop request with quantity -1 and no
    stop price is pending afterwards, and the limit request without a
    price raises. *)
Lemma submit_without_validation_witness :
  is_trigger_type (req_type bad_stop_request) = true
  /\ is_ok (submit_order new_engine bad_stop_request test_now).2 = true
  /\ length (triggers_of (submit_order new_engine bad_stop_request test_now).1
               "BTC-USD") = 1%nat
  /\ req_type limit_without_price = limit
  /\ req_price limit_without_price = None
  /\ 0 < req_quantity limit_without_price
  /\ (submit_order new_engine limit_without_price test_now).2
     = Raise AssertionError.
Proof.
  destruct (submit_without_validation new_engine bad_stop_request test_now)
    as ([Hres [Htrig _]] & _); [done|].
  destruct (submit_without_validation new_engine limit_without_price test_now)
    as (_ & _ & Hraise).
  split_and!.
  - done.
  - by rewrite Hres.
  - change (req_symbol bad_stop_request) with "BTC-USD"%string in Htrig.
    by rewrite Htrig.
  - done.
  - done.
  - done.
  - by rewrite Hraise.
Defined.

(** * C8: the depth of [snapshot_l2] *)

Section Snapshot.
Implicit Types (levels : list PriceLevel) (acc : list L2Entry).

(** One side of a snapshot extends the list built so far by the entries,
    in order, of some of the next levels with a positive quantity, none of
    them skipped. *)
Lemma snapshot_side_entries levels depth : forall acc,
  exists k,
    snapshot_side levels depth acc
    = acc ++ take k (l2_entry <$>
                       filter (fun l => 0 < total_quantity l) levels).
Proof.
  induction levels as [|level rest IH]; intros acc; cbn [snapshot_side].
  { exists 0%nat. by rewrite app_nil_r. }
  rewrite filter_cons.
  destruct (decide (0 < total_quantity level)) as [Hpos|Hzero].
  - destruct (decide (depth <= Z.of_nat (length (acc ++ [_])))).
    + exists 1%nat. done.
    + destruct (IH (acc ++ [mkL2Entry (pl_price level)
                              (quantize_8 (total_quantity level))]))
        as [k Hk].
      exists (S k). rewrite Hk, <- app_assoc. done.
  - destruct (decide (depth <= Z.of_nat (length acc))).
    + exists 0%nat. by rewrite app_nil_r.
    + apply IH.
Qed.

(** For a depth of at least one, a side never holds more than [depth]
    entries. *)
Lemma snapshot_side_length levels depth : forall acc,
  Z.of_nat (length acc) < depth ->
  Z.of_nat (length (snapshot_side levels depth acc)) <= depth.
Proof.
  induction levels as [|level rest IH]; intros acc Hacc; cbn [snapshot_side].
  { lia. }
  destruct (decide (0 < total_quantity level)) as [Hpos|Hzero].
  - destruct (decide (depth <= Z.of_nat (length (acc ++ [_])))) as [Hge|Hlt].
    + rewrite length_app in *. simpl in *. lia.
    + apply IH. lia.
  - destruct (decide (depth <= Z.of_nat (length acc))); [lia|]. by apply IH.
Qed.
End Snapshot.

(** C8, at the failing input: on the book of the repository's test
    (asks 2 at 100 and 3 at 101), [snapshot_l2(0)] returns one ask level,
    not at most zero.  The test [len(asks) >= depth] comes after the
    append. *)
Theorem snapshot_depth_zero_returns_a_level :
  l2_asks (snapshot_l2 test_book 0) = [mkL2Entry (dec 100) (dec 2)]
  /\ (length (l2_asks (snapshot_l2 test_book 0)) > 0)%nat.
Proof. split; [by vm_compute|vm_compute; lia]. Qed.

(** * C6: cancelling a pending trigger order *)

(** Whatever trigger request is submitted under a non-empty symbol, a
    cancel of the id it was given does not find it: [submit_order] puts
    the id in [order_symbol_index], so [cancel_order] looks in the book
    and never scans the triggers lists. *)
Lemma cancel_after_trigger_submit (st : MatchingEngine) (req : OrderRequest)
    (now : string) :
  is_trigger_type (req_type req) = true ->
  req_symbol req <> EmptyString ->
  let st' := (submit_order st req now).1 in
  let oid := next_id "ord" (id_counter st) in
  order_index (book_of st (req_symbol req)) !! oid = None ->
  cancel_order st' oid = (st', Ok None).
Proof.
  intros Htrig Hsym st' oid Hfresh. subst st'. unfold submit_order.
  set (sym := req_symbol req) in *. set (st0 := _ensure_book st sym).
  set (st1 := set_id_counter st0 (S (id_counter st0))).
  assert (Hget : dict_get sym (books st1) = Some (book_of st sym))
    by apply ensure_book_get.
  assert (Hctr : id_counter st0 = id_counter st).
  { unfold st0, _ensure_book. by destruct (dict_get sym (books st)). }
  rewrite Hget. cbn [type]. rewrite Htrig. cbn [fst order_id].
  rewrite Hctr. fold oid. unfold cancel_order.
  cbn [order_symbol_index set_order_symbol_index].
  rewrite lookup_insert_eq. destruct sym as [|c sym'] eqn:Hs; [done|].
  rewrite <- Hs in *. cbn [books set_order_symbol_index set_triggers].
  rewrite Hget. unfold remove_order. rewrite Hfresh.
  by rewrite put_book_same.
Qed.

(** C6, at the failing input: on a fresh engine [buy stop 1] with stop
    price 120 is accepted as [ord_1] and is pending; [cancel_order("ord_1")]
    returns [None] and the order is still in the triggers list. *)
Theorem cancel_pending_trigger_not_found :
  (order_id <$> triggers_of engine_one_stop "BTC-USD") = ["ord_1"]
  /\ (forall book, dict_get "BTC-USD" (books engine_one_stop) = Some book ->
                   resting_orders book = [])
  /\ cancel_order engine_one_stop "ord_1" = (engine_one_stop, Ok None).
Proof.
  split_and!.
  - by vm_compute.
  - intros book [= <-]. by vm_compute.
  - by apply (cancel_after_trigger_submit new_engine
                (test_request buy stop (dec 1) None (Some (dec 120)) None)
                test_now).
Qed.

(** * C7: [order_symbol_index] and the residency of orders *)

(** C7, at the failing input: after [sell limit 1 @ 100] ([ord_1]) and
    [buy market 1], which fills [ord_1] completely, [ord_1] is still in
    [order_symbol_index] although it rests on no level and is pending in
    no triggers list.  [match] drops the maker from the book's own
    [order_index] only. *)
Theorem index_keeps_filled_order :
  order_symbol_index engine_ask_filled !! "ord_1" = Some "BTC-USD"
  /\ resting_with_id engine_ask_filled "ord_1" = []
  /\ pending_with_id engine_ask_filled "ord_1" = []
  /\ (forall book, dict_get "BTC-USD" (books engine_ask_filled) = Some book ->
                   order_index book !! "ord_1" = None).
Proof.
  split_and!; try by vm_compute.
  intros book Hbook. vm_compute in Hbook. injection Hbook as <-.
  by vm_compute.
Qed.

(** * C5: activation of a take-profit order *)

(** An order that is neither a market order nor carries a limit price
    fills nothing, whatever the book holds. *)
Lemma match_without_price (b : OrderBook) (incoming : Order) :
  type incoming <> market -> price incoming = None ->
  match_ b incoming = (b, incoming, []).
Proof.
  intros Hty Hp. apply match_not_crossable.
  by apply crossable_without_price.
Qed.

(** C5, at the failing input: with an ask of 1 at 100 and a bid of 1 at 90
    resting, the pending [buy take_profit 1] with take-profit price 110 and
    no limit price meets its condition (bid 90 <= 110).  [process_triggers]
    takes it off the triggers list and matches it as it is: since its type
    is not [market] and its price is null, [_crossable] is false and it
    fills nothing, although the ask at 100 is there; no trade is recorded
    and the order is gone. *)
Theorem take_profit_activation_fills_nothing :
  (order_id <$> triggers_of engine_take_profit "BTC-USD") = ["ord_3"]
  /\ (process_triggers engine_take_profit "BTC-USD" test_now).2 = Ok tt
  /\ triggers_of (process_triggers engine_take_profit "BTC-USD" test_now).1
       "BTC-USD" = []
  /\ recent_trades (process_triggers engine_take_profit "BTC-USD" test_now).1
     = []
  /\ books (process_triggers engine_take_profit "BTC-USD" test_now).1
     = books engine_take_profit
  /\ (l2_price <$> l2_asks (snapshot_l2 (book_of engine_take_profit "BTC-USD")
                              10)) = [dec 100].
Proof. split_and!; by vm_compute. Qed.

(** * C4: activation of a stop order *)

Section Activation.
Implicit Types (st : MatchingEngine) (b book : OrderBook) (od : Order)
  (sd : SortedDict).

(** Recording trades touches the recent trades and the id counter only. *)
Lemma record_trades_frame sym now raw : forall st,
  books (_record_trades st sym now raw).1 = books st
  /\ triggers (_record_trades st sym now raw).1 = triggers st
  /\ order_symbol_index (_record_trades st sym now raw).1
     = order_symbol_index st.
Proof.
  induction raw as [|[[[maker taker] p] qty] raw IH]; intros st; [done|].
  cbn [_record_trades]. destruct (_fees st p qty) as [mfee tfee].
  match goal with
  | |- context [_record_trades ?s sym now raw] =>
      specialize (IH s); destruct (_record_trades s sym now raw) as [st2 trs]
  end.
  exact IH.
Qed.

Lemma sd_get_set_new p q sd :
  sd_get p sd = None ->
  sd_get p (sd_set (mkPriceLevel p q) sd) = Some (mkPriceLevel p q).
Proof.
  induction sd as [|l sd IH]; cbn [sd_get sd_set pl_price].
  { intros _. by rewrite decide_True. }
  destruct (decide (pl_price l = p)) as [|Hne]; [done|]. intros Hnone.
  destruct (decide (p < pl_price l)).
  { cbn [sd_get pl_price]. by rewrite decide_True. }
  destruct (decide (p = pl_price l)); [congruence|].
  cbn [sd_get]. rewrite decide_False by done. by apply IH.
Qed.

Lemma sd_get_price p sd l : sd_get p sd = Some l -> pl_price l = p.
Proof.
  induction sd as [|l' sd IH]; cbn [sd_get]; [done|].
  case_decide; [by intros [= <-]|done].
Qed.

Lemma sd_get_alter (f : PriceLevel -> PriceLevel) p sd l :
  sd_get p sd = Some l -> pl_price (f l) = p ->
  sd_get p (sd_alter f p sd) = Some (f l).
Proof.
  intros Hget Hf. induction sd as [|l' sd IH]; cbn [sd_get sd_alter] in *;
    [done|].
  destruct (decide (pl_price l' = p)).
  - injection Hget as <-. cbn [sd_get]. by rewrite decide_True.
  - cbn [sd_get]. rewrite decide_False by done. by apply IH.
Qed.

Lemma get_set_side_book b s sd :
  _get_side_book (set_side_book b s sd) s = sd.
Proof. by destruct s. Qed.

(** [add_limit] puts the order at the tail of the queue of the level at
    its price, on its own side. *)
Lemma add_limit_tail b od p :
  price od = Some p ->
  exists book2 level,
    add_limit b od = Ok book2
    /\ sd_get p (_get_side_book book2 (side od)) = Some level
    /\ last (queue level) = Some od
    /\ order_index book2 !! order_id od = Some (side od, p).
Proof.
  intros Hp. unfold add_limit. rewrite Hp.
  set (sd := _get_side_book b (side od)).
  set (sd1 := match sd_get p sd with
              | Some _ => sd
              | None => sd_set (mkPriceLevel p []) sd
              end).
  assert (exists l0, sd_get p sd1 = Some l0) as [l0 Hl0].
  { unfold sd1. destruct (sd_get p sd) as [l|] eqn:Hget; [by exists l|].
    eexists. by apply sd_get_set_new. }
  eexists _, _. split_and!; [done| | |].
  - cbn [set_order_index]. 
    replace (_get_side_book
               (set_order_index (set_side_book b (side od) _) _) (side od))
      with (sd_alter (fun l => set_queue (queue l ++ [od]) l) p sd1)
      by (by destruct b, (side od)).
    apply (sd_get_alter _ p sd1 l0 Hl0). simpl. by eapply sd_get_price.
  - simpl. apply last_snoc.
  - simpl. apply lookup_insert_eq.
Qed.


(** An order that the scan of one order selects is in [to_activate] and,
    as the scan left it, in the pending list. *)
Lemma scan_triggers_complete ltp bid ask od od_s : forall pending pending' acts,
  scan_one ltp bid ask od = Ok (od_s, true) ->
  scan_triggers ltp bid ask pending = (pending', Ok acts) ->
  od ∈ pending -> od_s ∈ acts /\ od_s ∈ pending'.
Proof.
  induction pending as [|x rest IH]; intros pending' acts Hone Hscan Hin.
  { by apply elem_of_nil in Hin. }
  cbn [scan_triggers] in Hscan.
  destruct (scan_one ltp bid ask x) as [[x1 hit]|e] eqn:Hx; [|done].
  destruct (scan_triggers ltp bid ask rest) as [rest1 [acts1|e]] eqn:Hrest;
    [|done].
  injection Hscan as <- <-.
  apply elem_of_cons in Hin as [->|Hin].
  - rewrite Hone in Hx. injection Hx as <- <-. split; left.
  - destruct (IH rest1 acts1 Hone eq_refl Hin) as [Ha Hp].
    split; [destruct hit|]; by repeat right.
Qed.

End Activation.




(** * C9: what [save_state] writes and what a load brings back *)

Section RestingTypes.
Implicit Types (st : MatchingEngine) (b book : OrderBook) (od o : Order)
  (sd : SortedDict) (bs : dict OrderBook).

Lemma elem_of_resting_orders b o :
  o ∈ resting_orders b
  <-> exists level, (level ∈ bids b \/ level ∈ asks b) /\ o ∈ queue level.
Proof.
  unfold resting_orders. rewrite elem_of_app, !list_elem_of_bind. split.
  - intros [(level & ? & ?)|(level & ? & ?)]; exists level; auto.
  - intros (level & [?|?] & ?); [left|right]; by exists level.
Qed.

Lemma elem_of_resting_side b o :
  o ∈ resting_orders b <-> exists s, o ∈ _get_side_book b s ≫= queue.
Proof.
  unfold resting_orders. rewrite elem_of_app. split.
  - intros [?|?]; [by exists buy|by exists sell].
  - intros [[] ?]; [by left|by right].
Qed.

Lemma dict_get_elem {V : Type} k (v : V) (d : dict V) :
  dict_get k d = Some v -> (k, v) ∈ d.
Proof.
  induction d as [|[k' v'] d IH]; simpl; [done|].
  case_decide; [intros [= ->]; subst; left|intros ?; right; by apply IH].
Qed.

Lemma elem_of_dict_set {V : Type} k (v : V) (d : dict V) k' v' :
  (k', v') ∈ dict_set k v d -> (k', v') ∈ d \/ (k', v') = (k, v).
Proof.
  induction d as [|[k0 v0] d IH]; simpl.
  - intros ->%list_elem_of_singleton. by right.
  - case_decide.
    + intros [->|?]%elem_of_cons; [by right|left; by right].
    + intros [->|Hin]%elem_of_cons; [left; left|].
      destruct (IH Hin) as [?|?]; [left; by right|by right].
Qed.

Lemma book_limit_new sym : book_limit (new_book sym).
Proof. intros o Ho. by apply elem_of_nil in Ho. Qed.

(** [match] keeps the type of every resting order. *)
Lemma book_limit_match b incoming :
  book_limit b -> book_limit (match_ b incoming).1.1.
Proof.
  intros Hb o' Ho'. destruct (match_effects b incoming)
    as (Hown & _ & Hopp).
  apply elem_of_resting_side in Ho' as [s Ho'].
  destruct (decide (s = side incoming)) as [->|Hs].
  - rewrite Hown in Ho'. apply Hb, elem_of_resting_side. by eexists.
  - assert (s = opposite (side incoming)) as ->
      by (destruct s, (side incoming); done).
    destruct (Hopp o' Ho') as (o & Ho & ->). simpl.
    apply Hb, elem_of_resting_side. by eexists.
Qed.

Lemma in_sd_set level sd o :
  o ∈ sd_set level sd ≫= queue -> o ∈ sd ≫= queue \/ o ∈ queue level.
Proof.
  induction sd as [|l sd IH]; cbn [sd_set].
  { rewrite bind_cons, elem_of_app. tauto. }
  repeat case_decide; rewrite !bind_cons, !elem_of_app; tauto.
Qed.

Lemma in_sd_alter_append od p sd o :
  o ∈ sd_alter (fun l => set_queue (queue l ++ [od]) l) p sd ≫= queue ->
  o ∈ sd ≫= queue \/ o = od.
Proof.
  induction sd as [|l sd IH]; cbn [sd_alter]; [by left|].
  case_decide; rewrite !bind_cons, !elem_of_app; simpl.
  - rewrite elem_of_app, list_elem_of_singleton. tauto.
  - tauto.
Qed.

(** [add_limit] adds the order and nothing else. *)
Lemma add_limit_resting b od book2 o :
  add_limit b od = Ok book2 -> o ∈ resting_orders book2 ->
  o ∈ resting_orders b \/ o = od.
Proof.
  unfold add_limit. destruct (price od) as [p|]; [|done].
  intros [= <-] [s Ho]%elem_of_resting_side.
  destruct (decide (s = side od)) as [->|Hs].
  - replace (_get_side_book (set_order_index (set_side_book b (side od) _) _)
               (side od))
      with (sd_alter (fun l => set_queue (queue l ++ [od]) l) p
              match sd_get p (_get_side_book b (side od)) with
              | Some _ => _get_side_book b (side od)
              | None => sd_set (mkPriceLevel p []) (_get_side_book b (side od))
              end) in Ho by (by destruct b, (side od)).
    apply in_sd_alter_append in Ho as [Ho|?]; [|by right]. left.
    apply elem_of_resting_side. exists (side od).
    destruct (sd_get p (_get_side_book b (side od))); [done|].
    apply in_sd_set in Ho as [?|Ho]; [done|]. by apply elem_of_nil in Ho.
  - left. apply elem_of_resting_side. exists s.
    by destruct b, s, (side od).
Qed.

Lemma book_limit_add b od book2 :
  book_limit b -> type od = limit -> add_limit b od = Ok book2 ->
  book_limit book2.
Proof.
  intros Hb Hty Hadd o Ho.
  destruct (add_limit_resting _ _ _ _ Hadd Ho) as [?| ->]; [by apply Hb|done].
Qed.

Lemma split_queue_kept oid q : forall removed o,
  o ∈ (split_queue oid q removed).1 -> o ∈ q.
Proof.
  induction q as [|x q IH]; intros removed o; cbn [split_queue]; [done|].
  case_decide.
  - intros ?. right. by eapply IH.
  - specialize (IH removed o).
    destruct (split_queue oid q removed) as [kept r]. simpl in *.
    intros [->|?]%elem_of_cons; [left|right; by apply IH].
Qed.

(** [remove_order] adds no order. *)
Lemma remove_order_resting b oid o :
  o ∈ resting_orders (remove_order b oid).1 -> o ∈ resting_orders b.
Proof.
  unfold remove_order.
  destruct (order_index b !! oid) as [[s p]|]; [|done].
  destruct (sd_get p (_get_side_book b s)) as [level|] eqn:Hget.
  2:{ by destruct b. }
  pose proof (split_queue_kept oid (queue level) None) as Hkept.
  destruct (split_queue oid (queue level) None) as [new_queue removed].
  cbn [fst snd] in *. intros [s' Ho]%elem_of_resting_side.
  apply elem_of_resting_side.
  destruct (decide (s' = s)) as [->|Hs].
  2:{ exists s'. by destruct b, s, s', new_queue. }
  exists s.
  assert (Hlevel : forall o, o ∈ queue level ->
                     o ∈ _get_side_book b s ≫= queue).
  { intros o' Ho'. apply list_elem_of_bind. exists level. split; [done|].
    clear -Hget. induction (_get_side_book b s) as [|l sd IH];
      cbn [sd_get] in Hget; [done|].
    case_decide; [injection Hget as ->; left|right; by apply IH]. }
  assert (Ho1 : o ∈ sd_alter (set_queue new_queue) p (_get_side_book b s)
                    ≫= queue).
  { destruct b, s, new_queue; simpl in *; try done; by apply in_sd_del in Ho. }
  apply in_sd_alter_set_queue in Ho1 as [?|?]; [done|].
  by apply Hlevel, Hkept.
Qed.

Lemma book_limit_remove b oid :
  book_limit b -> book_limit (remove_order b oid).1.
Proof. intros Hb o Ho. by apply Hb, (remove_order_resting b oid). Qed.
End RestingTypes.

Section BooksAll.
Context (P : OrderBook -> Prop).
Implicit Types (bs : dict OrderBook) (book : OrderBook).

Lemma books_all_nil : books_all P [].
Proof. intros sym book Hin. by apply elem_of_nil in Hin. Qed.

Lemma books_all_set bs sym book :
  books_all P bs -> P book -> books_all P (dict_set sym book bs).
Proof.
  intros Hbs Hb sym' book' [Hin|[= -> ->]]%elem_of_dict_set; [|done].
  by apply (Hbs sym').
Qed.

Lemma books_all_get bs sym book :
  books_all P bs -> dict_get sym bs = Some book -> P book.
Proof. intros Hbs Hget. apply (Hbs sym). by apply dict_get_elem. Qed.
End BooksAll.

Section ReachableStates.
Implicit Types (st : MatchingEngine) (b book : OrderBook) (od o : Order)
  (bs : dict OrderBook).

(** A property of books that the operations of [OrderBook] used by the
    engine keep.  [add_limit] is only ever called with a limit order that
    has quantity left: by [submit_order] and [_submit_activated] on what
    [match] returns ([P_rest]), and by [load_state] on a saved order
    ([P_load]). *)
Variable P : OrderBook -> Prop.

(** A property of the dictionary of books that holds of the empty
    dictionary, that storing a book with [P] keeps, and that gives [P] of
    every book looked up. *)
Variable R : dict OrderBook -> Prop.
Hypothesis R_nil : R [].
Hypothesis R_set : forall bs sym book,
  R bs -> P book -> R (dict_set sym book bs).
Hypothesis R_get : forall bs sym book,
  R bs -> dict_get sym bs = Some book -> P book.

Hypothesis P_new : forall sym, P (new_book sym).
Hypothesis P_match : forall b incoming, P b -> P (match_ b incoming).1.1.
Hypothesis P_rest : forall b incoming book2,
  P b ->
  type (match_ b incoming).1.2 = limit ->
  0 < remaining (match_ b incoming).1.2 ->
  add_limit (match_ b incoming).1.1 (match_ b incoming).1.2 = Ok book2 ->
  P book2.
Hypothesis P_remove : forall b oid, P b -> P (remove_order b oid).1.
Hypothesis P_load : forall b od book2,
  P b -> type od = limit -> 0 < remaining od -> add_limit b od = Ok book2 ->
  P book2.

Lemma ensure_book_all st sym :
  R (books st) -> R (books (_ensure_book st sym)).
Proof.
  intros Hst. unfold _ensure_book.
  destruct (dict_get sym (books st)); [done|].
  by apply R_set.
Qed.

(** Matching an order and resting its residual when it is a limit order
    with quantity left, the common end of [submit_order] and
    [_submit_activated]. *)
Lemma match_and_rest_all st sym now book incoming :
  R (books st) -> P book ->
  let m := match_ book incoming in
  let rec := _record_trades (put_book st sym m.1.1) sym now m.2 in
  R (books rec.1)
  /\ forall book2,
       type m.1.2 = limit -> 0 < remaining m.1.2 ->
       add_limit m.1.1 m.1.2 = Ok book2 ->
       R (books (put_book rec.1 sym book2)).
Proof.
  intros Hst Hbook m rec.
  pose proof (P_match book incoming Hbook) as Hm. fold m in Hm.
  destruct (record_trades_frame sym now m.2 (put_book st sym m.1.1))
    as (Hbooks & _ & _).
  fold rec in Hbooks.
  assert (Hrec : R (books rec.1)).
  { rewrite Hbooks. by apply R_set. }
  split; [done|]. intros book2 Hty Hrem Hadd. cbn [books put_book set_books].
  apply R_set; [done|]. by apply (P_rest book incoming).
Qed.

Lemma submit_order_all st req now :
  R (books st) -> R (books (submit_order st req now).1).
Proof.
  intros Hst. unfold submit_order.
  set (sym := req_symbol req). set (st0 := _ensure_book st sym).
  set (st1 := set_id_counter st0 (S (id_counter st0))).
  assert (Hst1 : R (books st1)) by by apply ensure_book_all.
  destruct (dict_get sym (books st1)) as [book|] eqn:Hget; [|done].
  pose proof (R_get _ _ _ Hst1 Hget) as Hbook.
  destruct (is_trigger_type _); [done|].
  destruct (_ && negb _); [done|].
  match goal with
  | |- context [match_ book ?o] =>
      destruct (match_and_rest_all st1 sym now book o Hst1 Hbook)
        as [Hrec Hrest];
      destruct (match_ book o) as [[book1 order1] raw]
  end.
  cbn [fst snd] in *.
  destruct (_record_trades (put_book st1 sym book1) sym now raw)
    as [st3 trades].
  cbn [fst snd] in *.
  case_bool_decide; cbn [andb]; [|done].
  case_bool_decide; [|done].
  destruct (add_limit book1 order1) as [book2|e] eqn:Hadd; [|done].
  by apply Hrest.
Qed.

Lemma submit_activated_all st sym od now :
  R (books st) ->
  R (books (_submit_activated st sym od now).1).
Proof.
  intros Hst. unfold _submit_activated.
  destruct (dict_get sym (books st)) as [book|] eqn:Hget; [|done].
  pose proof (R_get _ _ _ Hst Hget) as Hbook.
  destruct (match_and_rest_all st sym now book od Hst Hbook)
    as [Hrec Hrest].
  destruct (match_ book od) as [[book1 od1] raw]. cbn [fst snd] in *.
  destruct (_record_trades (put_book st sym book1) sym now raw)
    as [st2 trades].
  cbn [fst snd] in *.
  case_bool_decide; cbn [andb]; [|done].
  case_bool_decide; cbn [andb]; [|done].
  destruct (bool_decide (is_Some (price od1))); [|done].
  destruct (add_limit book1 od1) as [book2|e] eqn:Hadd; [|done].
  by apply Hrest.
Qed.

Lemma activate_all_all sym now acts : forall st,
  R (books st) ->
  R (books (activate_all st sym acts now).1).
Proof.
  induction acts as [|od acts IH]; intros st Hst; cbn [activate_all]; [done|].
  assert (Hone : R (books (activate_one st sym od now).1)).
  { unfold activate_one. by apply submit_activated_all. }
  destruct (activate_one st sym od now) as [st1 [[]|e]]; [by apply IH|done].
Qed.

Lemma process_triggers_all st sym now :
  R (books st) ->
  R (books (process_triggers st sym now).1).
Proof.
  intros Hst. unfold process_triggers.
  destruct (dict_get sym (books st)) as [book|]; [|done].
  destruct (best_prices book) as [bid ask].
  destruct (scan_triggers _ _ _ _) as [pending [acts|e]]; [|done].
  by apply activate_all_all.
Qed.

Lemma cancel_order_all st oid :
  R (books st) -> R (books (cancel_order st oid).1).
Proof.
  intros Hst. unfold cancel_order.
  assert (Hscan : R (books (let '(tg, r) :=
                              cancel_trigger_scan oid (triggers st) in
                            (set_triggers st tg, Ok r)).1)).
  { by destruct (cancel_trigger_scan oid (triggers st)). }
  destruct (order_symbol_index st !! oid) as [[|c sym]|]; [done| |done].
  destruct (dict_get _ (books st)) as [book|] eqn:Hget; [|done].
  pose proof (P_remove book oid (R_get _ _ _ Hst Hget)) as Hrem.
  destruct (remove_order book oid) as [book1 [removed|]]; cbn [fst] in *;
    by apply R_set.
Qed.

Lemma load_orders_all sym orders : forall st,
  R (books st) -> R (books (load_orders st sym orders)).
Proof.
  induction orders as [|od orders IH]; intros st Hst; cbn [load_orders];
    [done|].
  apply IH. cbn [type remaining price order_of_dict].
  case_bool_decide as Hty; cbn [andb].
  2:{ by destruct (is_trigger_type _). }
  case_bool_decide as Hrem; cbn [andb].
  2:{ by destruct (is_trigger_type _). }
  destruct (bool_decide (is_Some (od_price od)));
    [|by destruct (is_trigger_type _)].
  destruct (dict_get sym (books st)) as [book|] eqn:Hget; [|done].
  destruct (add_limit book (order_of_dict sym od)) as [book1|e] eqn:Hadd;
    [|done].
  apply R_set; [done|].
  apply (P_load book (order_of_dict sym od));
    [by eapply R_get|exact Hty|exact Hrem|exact Hadd].
Qed.

Lemma load_open_orders_all saved : forall st,
  R (books st) -> R (books (load_open_orders st saved)).
Proof.
  induction saved as [|[sym orders] saved IH]; intros st Hst; [done|].
  cbn [load_open_orders]. by apply IH, load_orders_all, ensure_book_all.
Qed.

Lemma load_trades_frame sym trs : forall st,
  books (load_trades st sym trs) = books st
  /\ triggers (load_trades st sym trs) = triggers st.
Proof.
  induction trs as [|tr trs IH]; intros st; [done|]. cbn [load_trades].
  match goal with
  | |- context [load_trades ?s sym trs] => destruct (IH s) as [-> ->]
  end.
  done.
Qed.

Lemma load_recent_trades_frame saved : forall st,
  books (load_recent_trades st saved) = books st
  /\ triggers (load_recent_trades st saved) = triggers st.
Proof.
  induction saved as [|[sym trs] saved IH]; intros st; [done|].
  cbn [load_recent_trades].
  destruct (IH (load_trades st sym trs)) as [-> ->]. apply load_trades_frame.
Qed.

Lemma load_state_all st file :
  R (books st) -> R (books (load_state st file)).
Proof.
  intros Hst. unfold load_state.
  destruct (load_recent_trades_frame
              (snap_recent_trades (persistence_load_state file))
              (load_open_orders st (open_orders (persistence_load_state file))))
    as [-> _].
  by apply load_open_orders_all.
Qed.

(** Such a property holds of the books of every reachable state. *)
Lemma reachable_books_rel st : reachable st -> R (books st).
Proof.
  induction 1 as [mr tf lim n|st file _ IH|st req now _ IH|st oid _ IH
                  |st sym now _ IH].
  - exact R_nil.
  - by apply load_state_all.
  - by apply submit_order_all.
  - by apply cancel_order_all.
  - by apply process_triggers_all.
Qed.

(** Without [load_state], [P_load] is not needed. *)
Lemma live_books_rel st : reachable_live st -> R (books st).
Proof.
  induction 1 as [mr tf lim n|st req now _ IH|st oid _ IH|st sym now _ IH].
  - exact R_nil.
  - by apply submit_order_all.
  - by apply cancel_order_all.
  - by apply process_triggers_all.
Qed.
End ReachableStates.

(** The case of a property of each book. *)
Lemma reachable_books_all (P : OrderBook -> Prop) :
  (forall sym, P (new_book sym)) ->
  (forall b incoming, P b -> P (match_ b incoming).1.1) ->
  (forall b incoming book2,
     P b ->
     type (match_ b incoming).1.2 = limit ->
     0 < remaining (match_ b incoming).1.2 ->
     add_limit (match_ b incoming).1.1 (match_ b incoming).1.2 = Ok book2 ->
     P book2) ->
  (forall b oid, P b -> P (remove_order b oid).1) ->
  (forall b od book2,
     P b -> type od = limit -> 0 < remaining od -> add_limit b od = Ok book2 ->
     P book2) ->
  forall st, reachable st -> books_all P (books st).
Proof.
  intros P_new P_match P_rest P_remove P_load.
  apply (reachable_books_rel P (books_all P)); try done.
  - apply books_all_nil.
  - apply books_all_set.
  - apply books_all_get.
Qed.

Lemma live_books_all (P : OrderBook -> Prop) :
  (forall sym, P (new_book sym)) ->
  (forall b incoming, P b -> P (match_ b incoming).1.1) ->
  (forall b incoming book2,
     P b ->
     type (match_ b incoming).1.2 = limit ->
     0 < remaining (match_ b incoming).1.2 ->
     add_limit (match_ b incoming).1.1 (match_ b incoming).1.2 = Ok book2 ->
     P book2) ->
  (forall b oid, P b -> P (remove_order b oid).1) ->
  forall st, reachable_live st -> books_all P (books st).
Proof.
  intros P_new P_match P_rest P_remove.
  apply (live_books_rel P (books_all P)); try done.
  - apply books_all_nil.
  - apply books_all_set.
  - apply books_all_get.
Qed.

(** [books] is a dictionary: no symbol is stored twice. *)
Lemma dict_set_keys {V : Type} k (v : V) (d : dict V) :
  NoDup d.*1 -> NoDup (dict_set k v d).*1.
Proof.
  induction d as [|[k' w] d IH]; cbn [dict_set].
  { intros _. apply NoDup_singleton. }
  rewrite fmap_cons, NoDup_cons. intros [Hnotin Hnd].
  case_decide as Hk; [subst; by apply NoDup_cons|].
  rewrite fmap_cons. apply NoDup_cons. split; [|by apply IH].
  cbn [fst] in *. intros ([k1 v1] & Hk1 & [?|[= -> ->]]%elem_of_dict_set)
                    %list_elem_of_fmap; cbn [fst] in Hk1; subst.
  - apply Hnotin. by apply (list_elem_of_fmap_2 fst _ (k1, v1)).
  - done.
Qed.

Lemma reachable_books_keys (st : MatchingEngine) :
  reachable st -> NoDup (books st).*1.
Proof.
  apply (reachable_books_rel (fun _ => True) (fun bs => NoDup bs.*1));
    try done.
  - apply NoDup_nil_2.
  - intros bs sym book Hbs _. by apply dict_set_keys.
Qed.

(** A property kept by [match] and by [add_limit] is kept by their
    composition. *)
Lemma rest_of_match_add (P : OrderBook -> Prop) :
  (forall b incoming, P b -> P (match_ b incoming).1.1) ->
  (forall b od book2,
     P b -> type od = limit -> 0 < remaining od -> add_limit b od = Ok book2 ->
     P book2) ->
  forall b incoming book2,
    P b ->
    type (match_ b incoming).1.2 = limit ->
    0 < remaining (match_ b incoming).1.2 ->
    add_limit (match_ b incoming).1.1 (match_ b incoming).1.2 = Ok book2 ->
    P book2.
Proof.
  intros Hmatch Hadd b incoming book2 Hb Hty Hrem Hrest.
  apply (Hadd (match_ b incoming).1.1 (match_ b incoming).1.2); auto.
Qed.

(** In every reachable state the resting orders are limit orders. *)
Lemma reachable_books_limit (st : MatchingEngine) :
  reachable st -> books_all book_limit (books st).
Proof.
  assert (Hadd : forall b od book2,
            book_limit b -> type od = limit -> 0 < remaining od ->
            add_limit b od = Ok book2 -> book_limit book2).
  { intros b od book2 Hb Hty _ Hadd. by eapply book_limit_add. }
  apply reachable_books_all.
  - apply book_limit_new.
  - apply book_limit_match.
  - apply rest_of_match_add; [apply book_limit_match|exact Hadd].
  - apply book_limit_remove.
  - exact Hadd.
Qed.

Section WellFormedBooks.
Implicit Types (b book : OrderBook) (od o : Order) (sd : SortedDict)
  (v : list PriceLevel).

Lemma sd_alter_prices (f : PriceLevel -> PriceLevel) p sd :
  (forall l, pl_price (f l) = pl_price l) ->
  pl_price <$> sd_alter f p sd = pl_price <$> sd.
Proof.
  intros Hf. induction sd as [|l sd IH]; cbn [sd_alter]; [done|].
  case_decide; rewrite !fmap_cons; [by rewrite Hf|by rewrite IH].
Qed.

Lemma sd_alter_sorted (f : PriceLevel -> PriceLevel) p sd :
  (forall l, pl_price (f l) = pl_price l) ->
  sd_sorted sd -> sd_sorted (sd_alter f p sd).
Proof. intros Hf. unfold sd_sorted. by rewrite sd_alter_prices. Qed.

Lemma elem_of_sd_del p sd l : l ∈ sd_del p sd -> l ∈ sd.
Proof.
  induction sd as [|l' sd IH]; cbn [sd_del]; [done|].
  case_decide; [by right|].
  intros [->|?]%elem_of_cons; [left|right; by apply IH].
Qed.

Lemma sd_del_sorted p sd : sd_sorted sd -> sd_sorted (sd_del p sd).
Proof.
  unfold sd_sorted. induction sd as [|l sd IH]; cbn [sd_del]; [done|].
  rewrite fmap_cons. intros [Hsd Hall]%StronglySorted_inv.
  case_decide; [done|]. rewrite fmap_cons. constructor; [by apply IH|].
  rewrite Forall_forall in *. intros x (l' & -> & Hl')%list_elem_of_fmap.
  apply Hall, list_elem_of_fmap_2. by eapply elem_of_sd_del.
Qed.

Lemma elem_of_sd_set level sd l : l ∈ sd_set level sd -> l = level \/ l ∈ sd.
Proof.
  induction sd as [|l' sd IH]; cbn [sd_set].
  { intros ->%list_elem_of_singleton. by left. }
  repeat case_decide.
  - intros [->|?]%elem_of_cons; [by left|by right].
  - intros [->|?]%elem_of_cons; [by left|right; by right].
  - intros [->|Hin]%elem_of_cons; [right; left|].
    destruct (IH Hin) as [?|?]; [by left|right; by right].
Qed.

Lemma sd_set_sorted level sd : sd_sorted sd -> sd_sorted (sd_set level sd).
Proof.
  unfold sd_sorted. induction sd as [|l sd IH]; cbn [sd_set].
  { intros _. repeat constructor. }
  rewrite fmap_cons. intros Hsorted.
  pose proof Hsorted as [Hsd Hall]%StronglySorted_inv.
  rewrite Forall_forall in Hall.
  destruct (decide (pl_price level < pl_price l)) as [Hlt|Hge].
  { rewrite !fmap_cons. constructor; [by rewrite <- fmap_cons|].
    rewrite <- fmap_cons. apply Forall_forall.
    intros x [->|Hx]%elem_of_cons; [done|]. specialize (Hall x Hx). lia. }
  destruct (decide (pl_price level = pl_price l)) as [Heq|Hne].
  { rewrite fmap_cons, Heq. by constructor; [|apply Forall_forall]. }
  rewrite fmap_cons. constructor; [by apply IH|].
  apply Forall_forall. intros x (l' & -> & Hl')%list_elem_of_fmap.
  apply elem_of_sd_set in Hl' as [->|Hl']; [lia|].
  by apply Hall, list_elem_of_fmap_2.
Qed.

Lemma StronglySorted_suffix (R : relation Z) (l1 l2 : list Z) :
  l1 `suffix_of` l2 -> StronglySorted R l2 -> StronglySorted R l1.
Proof. intros [k ->]. apply StronglySorted_app_1_r. Qed.

(** The makers that the walk leaves behind have no negative remaining. *)
Lemma walk_queue_nonneg p q : forall incoming o,
  (forall o, o ∈ q -> 0 <= remaining o) ->
  o ∈ (walk_queue p q incoming).1.2 -> 0 <= remaining o.
Proof.
  induction q as [|maker rest IH]; intros incoming o Hq.
  { intros Ho. by apply elem_of_nil in Ho. }
  rewrite walk_queue_cons.
  assert (0 <= remaining maker) by (apply Hq; left).
  assert (Hrest : forall o, o ∈ rest -> 0 <= remaining o).
  { intros o' Ho'. apply Hq. by right. }
  case_bool_decide; [|apply Hq].
  case_decide.
  - specialize (IH (set_remaining incoming
                      (remaining incoming
                       - remaining incoming `min` remaining maker)) o Hrest).
    by destruct (walk_queue p rest _) as [[ts q'] incoming'].
  - cbn [fst snd]. intros [->|?]%elem_of_cons; [simpl; lia|by apply Hrest].
Qed.

Lemma walk_levels_nonneg v : forall incoming o,
  (forall o, o ∈ v ≫= queue -> 0 <= remaining o) ->
  o ∈ (walk_levels v incoming).1.2 ≫= queue -> 0 <= remaining o.
Proof.
  induction v as [|level rest IH]; intros incoming o Hv; cbn [walk_levels].
  { intros Ho. by apply elem_of_nil in Ho. }
  assert (Hq : forall o, o ∈ queue level -> 0 <= remaining o).
  { intros o' Ho'. apply Hv. rewrite bind_cons, elem_of_app. by left. }
  assert (Hrest : forall o, o ∈ rest ≫= queue -> 0 <= remaining o).
  { intros o' Ho'. apply Hv. rewrite bind_cons, elem_of_app. by right. }
  destruct (_ && _); [|apply Hv].
  pose proof (walk_queue_nonneg (pl_price level) (queue level) incoming) as Hwq.
  destruct (walk_queue _ _ incoming) as [[ts q'] incoming1].
  cbn [fst snd] in Hwq.
  destruct q' as [|o1 q'].
  - specialize (IH incoming1 o Hrest).
    by destruct (walk_levels rest incoming1) as [[ts2 rest'] incoming2].
  - cbn [fst snd]. rewrite bind_cons, elem_of_app. simpl.
    intros [Ho|Ho]; [by apply (Hwq o)|by apply Hrest].
Qed.

Lemma elem_of_bind_reverse v o :
  o ∈ reverse v ≫= queue <-> o ∈ v ≫= queue.
Proof.
  rewrite !list_elem_of_bind. split; intros (l & ? & ?); exists l;
    (split; [done|]); by apply elem_of_reverse.
Qed.

Lemma book_wf_new sym : book_wf (new_book sym).
Proof.
  split.
  - intros []; constructor.
  - intros o Ho. by apply elem_of_nil in Ho.
Qed.

(** [match] keeps the book well formed. *)
Lemma book_wf_match b incoming :
  book_wf b -> book_wf (match_ b incoming).1.1.
Proof.
  intros [Hsorted Hnn].
  pose proof (opp_view_NoDup (side incoming) b (Hsorted _)) as Hnd.
  rewrite match_walk by done.
  pose proof (walk_levels_prices (opp_view (side incoming) b) incoming)
    as Hprices.
  pose proof (walk_levels_nonneg (opp_view (side incoming) b) incoming)
    as Hwalk.
  destruct (walk_levels (opp_view (side incoming) b) incoming)
    as [[ts v'] incoming'].
  cbn [fst snd] in *. split.
  - intros s. pose proof (Hsorted buy) as Hbids.
    pose proof (Hsorted sell) as Hasks. unfold sd_sorted in *.
    destruct (side incoming) eqn:Hside, s; cbn in *; try done.
    + by eapply StronglySorted_suffix.
    + rewrite fmap_reverse in Hprices.
      apply suffix_prefix_reverse in Hprices.
      rewrite reverse_involutive, <- fmap_reverse in Hprices.
      destruct Hprices as [k Hk]. rewrite Hk in Hbids.
      by apply StronglySorted_app_1_l in Hbids.
  - intros o [s Ho]%elem_of_resting_side.
    assert (Hview : forall o, o ∈ opp_view (side incoming) b ≫= queue ->
                      0 <= remaining o).
    { intros o' Ho'. apply Hnn, elem_of_resting_side.
      exists (opposite (side incoming)).
      destruct (side incoming); cbn in *; [done|].
      by apply elem_of_bind_reverse. }
    destruct (side incoming) eqn:Hside, s; cbn in Ho.
    + apply Hnn, elem_of_resting_side. by exists buy.
    + by apply (Hwalk o Hview).
    + apply (Hwalk o Hview). by apply elem_of_bind_reverse.
    + apply Hnn, elem_of_resting_side. by exists sell.
Qed.

(** [add_limit] of an order with quantity left keeps the book well
    formed. *)
Lemma book_wf_add b od book2 :
  book_wf b -> 0 < remaining od -> add_limit b od = Ok book2 ->
  book_wf book2.
Proof.
  intros [Hsorted Hnn] Hrem Hadd. split.
  - intros s. unfold add_limit in Hadd.
    destruct (price od) as [p|]; [|done]. injection Hadd as <-.
    destruct (decide (s = side od)) as [->|Hs].
    + replace (_get_side_book
                 (set_order_index (set_side_book b (side od) _) _) (side od))
        with (sd_alter (fun l => set_queue (queue l ++ [od]) l) p
                match sd_get p (_get_side_book b (side od)) with
                | Some _ => _get_side_book b (side od)
                | None => sd_set (mkPriceLevel p [])
                            (_get_side_book b (side od))
                end) by (by destruct b, (side od)).
      apply sd_alter_sorted; [done|].
      destruct (sd_get p _); [done|]. by apply sd_set_sorted.
    + specialize (Hsorted s). by destruct b, s, (side od).
  - intros o Ho.
    destruct (add_limit_resting _ _ _ _ Hadd Ho) as [?| ->];
      [by apply Hnn|lia].
Qed.

(** [remove_order] keeps the book well formed. *)
Lemma book_wf_remove b oid : book_wf b -> book_wf (remove_order b oid).1.
Proof.
  intros [Hsorted Hnn]. split.
  2:{ intros o Ho. by apply Hnn, (remove_order_resting b oid). }
  intros s'. unfold remove_order.
  destruct (order_index b !! oid) as [[s p]|]; [|done].
  destruct (sd_get p (_get_side_book b s)) as [level|].
  2:{ specialize (Hsorted s'). by destruct b, s'. }
  destruct (split_queue oid (queue level) None) as [new_queue removed].
  cbn [fst].
  destruct (decide (s' = s)) as [->|Hs].
  2:{ specialize (Hsorted s'). by destruct b, s, s', new_queue. }
  assert (Halter : sd_sorted (sd_alter (set_queue new_queue) p
                                (_get_side_book b s)))
    by by apply sd_alter_sorted.
  pose proof (sd_del_sorted p _ Halter) as Hdel.
  destruct b, s, new_queue; done.
Qed.
End WellFormedBooks.

(** In every reachable state the books are well formed. *)
Lemma reachable_books_wf (st : MatchingEngine) :
  reachable st -> books_all book_wf (books st).
Proof.
  assert (Hadd : forall b od book2,
            book_wf b -> type od = limit -> 0 < remaining od ->
            add_limit b od = Ok book2 -> book_wf book2).
  { intros b od book2 Hb _ Hrem Hadd. by eapply book_wf_add. }
  apply reachable_books_all.
  - apply book_wf_new.
  - apply book_wf_match.
  - apply rest_of_match_add; [apply book_wf_match|exact Hadd].
  - apply book_wf_remove.
  - exact Hadd.
Qed.

Section SaveLoad.
Implicit Types (st : MatchingEngine) (b book : OrderBook).

Lemma load_orders_triggers sym orders : forall st,
  Forall (fun od => is_trigger_type (od_type od) = false) orders ->
  triggers (load_orders st sym orders) = triggers st.
Proof.
  induction orders as [|od orders IH]; intros st Hall; [done|].
  apply Forall_cons in Hall as [Hod Hall]. cbn [load_orders].
  rewrite IH by done. cbn [type order_of_dict]. rewrite Hod.
  destruct (_ && _); [|done].
  destruct (dict_get sym (books st)); [|done].
  by destruct (add_limit _ _).
Qed.

Lemma load_open_orders_triggers saved : forall st,
  Forall (fun '(_, orders) =>
            Forall (fun od => is_trigger_type (od_type od) = false) orders)
    saved ->
  triggers (load_open_orders st saved) = triggers st.
Proof.
  induction saved as [|[sym orders] saved IH]; intros st Hall; [done|].
  apply Forall_cons in Hall as [Hod Hall]. cbn [load_open_orders].
  rewrite IH, load_orders_triggers by done. apply ensure_book_triggers.
Qed.

(** The saved orders of a book whose resting orders are limit orders hold
    no trigger order. *)
Lemma snapshot_no_trigger st :
  books_all book_limit (books st) ->
  Forall (fun '(_, orders) =>
            Forall (fun od => is_trigger_type (od_type od) = false) orders)
    (open_orders (build_snapshot st)).
Proof.
  intros Hst. cbn [build_snapshot open_orders].
  apply Forall_fmap, Forall_forall. intros [sym book] Hin. simpl.
  apply Forall_fmap, Forall_forall. intros o Ho. simpl.
  by rewrite (Hst sym book Hin o Ho).
Qed.
End SaveLoad.

(** C9.  For every reachable engine state: the snapshot that [save_state]
    builds lists under [open_orders], for each book, exactly the orders
    resting on some level of its bids or asks; the triggers lists have no
    part in it; a save that succeeds commits exactly this snapshot; and a
    load of it into an engine without pending orders leaves the triggers
    empty, so no pending stop, stop_limit or take_profit order comes
    back. *)
Theorem save_state_omits_triggers (st : MatchingEngine) :
  reachable st ->
  let snap := build_snapshot st in
  (forall sym orders,
     (sym, orders) ∈ open_orders snap
     <-> exists book, (sym, book) ∈ books st
                      /\ orders = order_to_dict <$> resting_orders book)
  /\ (forall book o,
        o ∈ resting_orders book
        <-> exists level,
              (level ∈ bids book \/ level ∈ asks book) /\ o ∈ queue level)
  /\ (forall tg, build_snapshot (set_triggers st tg) = snap)
  /\ (forall file file',
        save_state st file = (file', Ok tt) -> file' = Some snap)
  /\ (forall fresh,
        triggers fresh = [] -> triggers (load_state fresh (Some snap)) = []).
Proof.
  intros Hreach snap. split_and!.
  - intros sym orders. unfold snap. cbn [build_snapshot open_orders].
    rewrite list_elem_of_fmap. split.
    + intros ([sym' book] & [= -> ->] & Hin). by exists book.
    + intros (book & Hin & ->). by exists (sym, book).
  - apply elem_of_resting_orders.
  - done.
  - intros file file'. unfold save_state, persistence_save_state. fold snap.
    destruct (forallb _ _); [by intros [= <-]|done].
  - intros fresh Hfresh.
    change (load_state fresh (Some snap))
      with (load_recent_trades (load_open_orders fresh (open_orders snap))
              (snap_recent_trades snap)).
    destruct (load_recent_trades_frame (snap_recent_trades snap)
                (load_open_orders fresh (open_orders snap))) as [_ Htrig].
    rewrite Htrig, load_open_orders_triggers; [done|].
    by apply snapshot_no_trigger, reachable_books_limit.
Qed.

(** The theorem at the engine with one pending stop order: the state is
    reachable, its save succeeds, and the load of what was saved into a
    fresh engine has no pending order, while the saved engine had one. *)
Lemma save_state_omits_triggers_witness :
  reachable engine_one_stop
  /\ length (triggers_of engine_one_stop "BTC-USD") = 1%nat
  /\ save_state engine_one_stop None
     = (Some (build_snapshot engine_one_stop), Ok tt)
  /\ triggers (load_state new_engine (Some (build_snapshot engine_one_stop)))
     = [].
Proof.
  assert (Hreach : reachable engine_one_stop).
  { apply reach_submit. apply (reach_new (- DEC_UNIT) (25 * DEC_UNIT / 10)). }
  destruct (save_state_omits_triggers engine_one_stop Hreach)
    as (_ & _ & _ & _ & Hload).
  split_and!.
  - exact Hreach.
  - by vm_compute.
  - by vm_compute.
  - by apply Hload.
Defined.

(** * The invariant of the books *)

Section BookInvariant.
Implicit Types (b book : OrderBook) (od o : Order) (sd : SortedDict)
  (v : list PriceLevel) (l : PriceLevel).

Lemma book_inv_wf b : book_inv b -> book_wf b.
Proof.
  intros [Hsorted Hlevels]. split; [done|].
  intros o [s Ho]%elem_of_resting_side.
  apply list_elem_of_bind in Ho as (l & Ho & Hl).
  destruct (Hlevels s l Hl) as [_ Hq].
  destruct (Hq o Ho) as (_ & _ & _ & Hact).
  unfold is_active in Hact. apply bool_decide_eq_true_1 in Hact. lia.
Qed.

Lemma walk_queue_ok s p q : forall incoming o,
  (forall o, o ∈ q -> order_ok s p o) ->
  o ∈ (walk_queue p q incoming).1.2 -> order_ok s p o.
Proof.
  induction q as [|maker rest IH]; intros incoming o Hq.
  { intros Ho. by apply elem_of_nil in Ho. }
  rewrite walk_queue_cons.
  assert (Hmaker : order_ok s p maker) by (apply Hq; left).
  assert (Hrest : forall o, o ∈ rest -> order_ok s p o).
  { intros o' Ho'. apply Hq. by right. }
  case_bool_decide; [|apply Hq].
  case_decide as Hfilled.
  - specialize (IH (set_remaining incoming
                      (remaining incoming
                       - remaining incoming `min` remaining maker)) o Hrest).
    by destruct (walk_queue p rest _) as [[ts q'] incoming'].
  - cbn [fst snd]. intros [->|?]%elem_of_cons; [|by apply Hrest].
    destruct Hmaker as (? & ? & ? & _). split_and!; try done.
    unfold is_active. apply bool_decide_eq_true_2. simpl. lia.
Qed.

Lemma walk_levels_ok s v : forall incoming l,
  (forall l, l ∈ v -> level_ok s l) ->
  l ∈ (walk_levels v incoming).1.2 -> level_ok s l.
Proof.
  induction v as [|level rest IH]; intros incoming l Hv; cbn [walk_levels].
  { intros Hl. by apply elem_of_nil in Hl. }
  assert (Hlevel : level_ok s level) by (apply Hv; left).
  assert (Hrest : forall l, l ∈ rest -> level_ok s l).
  { intros l' Hl'. apply Hv. by right. }
  destruct (_ && _); [|apply Hv].
  pose proof (walk_queue_ok s (pl_price level) (queue level) incoming) as Hwq.
  destruct (walk_queue _ _ incoming) as [[ts q'] incoming1].
  cbn [fst snd] in Hwq.
  destruct q' as [|o1 q'].
  - specialize (IH incoming1 l Hrest).
    by destruct (walk_levels rest incoming1) as [[ts2 rest'] incoming2].
  - cbn [fst snd]. intros [->|?]%elem_of_cons; [|by apply Hrest].
    split; [done|]. intros o Ho. apply Hwq; [apply Hlevel|done].
Qed.

Lemma book_inv_new sym : book_inv (new_book sym).
Proof.
  split.
  - intros []; constructor.
  - intros [] l Hl; by apply elem_of_nil in Hl.
Qed.

Lemma book_inv_match b incoming :
  book_inv b -> book_inv (match_ b incoming).1.1.
Proof.
  intros Hb. pose proof (book_inv_wf b Hb) as Hwf.
  split; [by apply book_wf_match|].
  destruct Hb as [Hsorted Hlevels].
  pose proof (opp_view_NoDup (side incoming) b (Hsorted _)) as Hnd.
  rewrite match_walk by done.
  pose proof (walk_levels_ok (opposite (side incoming))
                (opp_view (side incoming) b) incoming) as Hwalk.
  destruct (walk_levels (opp_view (side incoming) b) incoming)
    as [[ts v'] incoming'].
  cbn [fst snd] in *.
  assert (Hview : forall l, l ∈ opp_view (side incoming) b ->
                    level_ok (opposite (side incoming)) l).
  { intros l Hl. apply Hlevels.
    destruct (side incoming); cbn in *; [done|].
    by apply elem_of_reverse. }
  intros s l Hl.
  destruct (side incoming) eqn:Hside, s; cbn in Hl.
  - by apply (Hlevels buy).
  - by apply (Hwalk l Hview).
  - apply (Hwalk l Hview). by apply elem_of_reverse.
  - by apply (Hlevels sell).
Qed.

Lemma elem_of_sd_alter (f : PriceLevel -> PriceLevel) p sd l :
  NoDup (pl_price <$> sd) ->
  l ∈ sd_alter f p sd ->
  (l ∈ sd /\ pl_price l <> p) \/ exists l0, sd_get p sd = Some l0 /\ l = f l0.
Proof.
  induction sd as [|l' sd IH]; cbn [sd_alter sd_get].
  { intros _ Hl. by apply elem_of_nil in Hl. }
  rewrite fmap_cons, NoDup_cons. intros [Hnotin Hnd].
  case_decide as Hp.
  - intros [->|Hl]%elem_of_cons; [right; by eexists|left].
    split; [by right|]. intros Hl'. apply Hnotin.
    rewrite Hp, <- Hl'. by apply list_elem_of_fmap_2.
  - intros [->|Hl]%elem_of_cons; [left; split; [left|done]|].
    destruct (IH Hnd Hl) as [[? ?]|?]; [left; split; [by right|done]|by right].
Qed.

Lemma elem_of_sd_get p sd l : sd_get p sd = Some l -> l ∈ sd.
Proof.
  induction sd as [|l' sd IH]; cbn [sd_get]; [done|].
  case_decide; [intros [= ->]; left|intros ?; right; by apply IH].
Qed.

Lemma sd_sorted_NoDup sd : sd_sorted sd -> NoDup (pl_price <$> sd).
Proof. apply StronglySorted_lt_NoDup. Qed.

Lemma get_side_book_add b od p s :
  price od = Some p ->
  forall book2, add_limit b od = Ok book2 ->
  _get_side_book book2 s =
  if decide (s = side od) then
    sd_alter (fun l => set_queue (queue l ++ [od]) l) p
      match sd_get p (_get_side_book b (side od)) with
      | Some _ => _get_side_book b (side od)
      | None => sd_set (mkPriceLevel p []) (_get_side_book b (side od))
      end
  else _get_side_book b s.
Proof.
  intros Hp book2. unfold add_limit. rewrite Hp. intros [= <-].
  destruct (decide (s = side od)) as [->|Hs].
  - by destruct b, (side od).
  - by destruct b, s, (side od).
Qed.

Lemma book_inv_add b od book2 :
  book_inv b -> type od = limit -> 0 < remaining od ->
  add_limit b od = Ok book2 -> book_inv book2.
Proof.
  intros Hb Hty Hrem Hadd. pose proof (book_inv_wf b Hb) as Hwf.
  split; [by eapply book_wf_add|].
  destruct Hb as [Hsorted Hlevels]. intros s l.
  destruct (price od) as [p|] eqn:Hp.
  2:{ unfold add_limit in Hadd. by rewrite Hp in Hadd. }
  rewrite (get_side_book_add b od p s Hp book2 Hadd).
  case_decide as Hs; [subst s|apply Hlevels].
  assert (Hod : order_ok (side od) p od).
  { split_and!; try done. by apply bool_decide_eq_true_2. }
  set (sd := _get_side_book b (side od)).
  assert (Hsd1 : sd_sorted match sd_get p sd with
                           | Some _ => sd
                           | None => sd_set (mkPriceLevel p []) sd
                           end).
  { destruct (sd_get p sd); [apply Hsorted|apply sd_set_sorted, Hsorted]. }
  intros [[Hl Hne]|(l0 & Hget & ->)]%elem_of_sd_alter;
    [| |by apply sd_sorted_NoDup].
  - destruct (sd_get p sd) eqn:Hget0; [by apply Hlevels|].
    apply elem_of_sd_set in Hl as [->|?]; [done|by apply Hlevels].
  - pose proof (sd_get_price _ _ _ Hget) as Hprice.
    split; [by destruct (queue l0)|]. cbn [queue set_queue pl_price].
    rewrite Hprice. intros o [Ho| ->%list_elem_of_singleton]%elem_of_app;
      [|done].
    destruct (sd_get p sd) as [l1|] eqn:Hget0.
    + rewrite <- Hprice. apply (Hlevels (side od) l0); [|done].
      by apply (elem_of_sd_get p).
    + rewrite sd_get_set_new in Hget by done. injection Hget as <-.
      by apply elem_of_nil in Ho.
Qed.

Lemma book_inv_remove b oid : book_inv b -> book_inv (remove_order b oid).1.
Proof.
  intros Hb. pose proof (book_inv_wf b Hb) as Hwf.
  split; [by apply book_wf_remove|].
  destruct Hb as [Hsorted Hlevels]. intros s' l. unfold remove_order.
  destruct (order_index b !! oid) as [[s p]|]; [|apply Hlevels].
  destruct (sd_get p (_get_side_book b s)) as [level|] eqn:Hget.
  2:{ intros Hl. apply Hlevels. by destruct b, s'. }
  pose proof (split_queue_kept oid (queue level) None) as Hkept.
  destruct (split_queue oid (queue level) None) as [new_queue removed].
  cbn [fst] in *.
  destruct (decide (s' = s)) as [->|Hs].
  2:{ intros Hl. apply Hlevels. by destruct b, s, s', new_queue. }
  pose proof (sd_get_price _ _ _ Hget) as Hprice.
  pose proof (elem_of_sd_get _ _ _ Hget) as Hlevel.
  assert (Halter : forall l,
            l ∈ sd_alter (set_queue new_queue) p (_get_side_book b s) ->
            (l ∈ _get_side_book b s /\ pl_price l <> p)
            \/ l = set_queue new_queue level).
  { intros l' [?|(l0 & Hget' & ->)]%elem_of_sd_alter;
      [by left|right; congruence|by apply sd_sorted_NoDup]. }
  destruct new_queue as [|o1 new_queue].
  - intros Hl.
    assert (Hdel : l ∈ sd_del p (sd_alter (set_queue []) p
                                   (_get_side_book b s)))
      by (by destruct b, s).
    assert (Hne : pl_price l <> p).
    { clear -Hdel Hsorted. specialize (Hsorted s).
      apply sd_sorted_NoDup in Hsorted.
      rewrite <- (sd_alter_prices (set_queue []) p) in Hsorted by done.
      induction (sd_alter (set_queue []) p (_get_side_book b s))
        as [|l' sd IH]; cbn [sd_del] in Hdel; [by apply elem_of_nil in Hdel|].
      rewrite fmap_cons, NoDup_cons in Hsorted. destruct Hsorted as [Hn Hnd].
      case_decide as Hp.
      - intros Hl. apply Hn. rewrite Hp, <- Hl. by apply list_elem_of_fmap_2.
      - apply elem_of_cons in Hdel as [->|?]; [done|by apply IH]. }
    apply elem_of_sd_del in Hdel.
    destruct (Halter l Hdel) as [[? _]| ->]; [by apply Hlevels|done].
  - intros Hl.
    assert (Hl' : l ∈ sd_alter (set_queue (o1 :: new_queue)) p
                        (_get_side_book b s)) by (by destruct b, s).
    destruct (Halter l Hl') as [[? _]| ->]; [by apply Hlevels|].
    split; [done|]. cbn [queue set_queue pl_price]. intros o Ho.
    by apply (Hlevels s level), Hkept.
Qed.
End BookInvariant.

(** X1.  In every reachable state, each side of every book is a sorted
    dictionary, no level is empty, and every resting order is an active
    limit order that rests at the level of its own price on its own
    side. *)
Theorem reachable_books_inv (st : MatchingEngine) :
  reachable st -> books_all book_inv (books st).
Proof.
  apply reachable_books_all.
  - apply book_inv_new.
  - apply book_inv_match.
  - apply rest_of_match_add; [apply book_inv_match|apply book_inv_add].
  - apply book_inv_remove.
  - apply book_inv_add.
Qed.

(** The theorem at the engine with an ask at 100, a bid at 90 and a
    pending take-profit order. *)
Lemma reachable_books_inv_witness :
  reachable engine_take_profit
  /\ books_all book_inv (books engine_take_profit).
Proof.
  assert (Hreach : reachable engine_take_profit).
  { do 3 apply reach_submit.
    apply (reach_new (- DEC_UNIT) (25 * DEC_UNIT / 10)). }
  split; [exact Hreach|]. exact (reachable_books_inv _ Hreach).
Defined.

(** * The book is not crossed *)

Section Uncrossed.
Implicit Types (b book : OrderBook) (od o incoming : Order) (sd : SortedDict)
  (v : list PriceLevel) (l : PriceLevel).

Lemma uncrossed_prices b :
  uncrossed b <->
  forall pb pa, pb ∈ pl_price <$> bids b -> pa ∈ pl_price <$> asks b ->
                pb < pa.
Proof.
  split.
  - intros Hb pb pa (lb & -> & Hlb)%list_elem_of_fmap
      (la & -> & Hla)%list_elem_of_fmap. by apply Hb.
  - intros Hb lb la Hlb Hla. apply Hb; by apply list_elem_of_fmap_2.
Qed.

(** [match] adds no price to either side. *)
Lemma match_side_prices b incoming s p :
  sd_sorted (_get_side_book b (opposite (side incoming))) ->
  p ∈ pl_price <$> _get_side_book (match_ b incoming).1.1 s ->
  p ∈ pl_price <$> _get_side_book b s.
Proof.
  intros Hsorted.
  pose proof (opp_view_NoDup (side incoming) b Hsorted) as Hnd.
  rewrite match_walk by done.
  pose proof (walk_levels_prices (opp_view (side incoming) b) incoming)
    as Hprices.
  destruct (walk_levels (opp_view (side incoming) b) incoming)
    as [[ts v'] incoming'].
  cbn [fst snd].
  destruct (side incoming), s; cbn in *; try done.
  - destruct Hprices as [k ->]. intros ?. apply elem_of_app. by right.
  - rewrite !fmap_reverse in *. rewrite elem_of_reverse.
    destruct Hprices as [k Hk]. intros Hp.
    apply elem_of_reverse. rewrite Hk. apply elem_of_app. by right.
Qed.

Lemma uncrossed_match b incoming :
  book_wf b -> uncrossed b -> uncrossed (match_ b incoming).1.1.
Proof.
  intros [Hsorted _]. rewrite !uncrossed_prices. intros Hb pb pa Hpb Hpa.
  apply Hb.
  - by apply (match_side_prices b incoming buy).
  - by apply (match_side_prices b incoming sell).
Qed.

(** When [match] returns a limit order with quantity left, every level
    left on the opposite side is beyond the limit price. *)
Lemma match_rest_beyond b incoming p l :
  book_wf b ->
  0 < remaining (match_ b incoming).1.2 ->
  type (match_ b incoming).1.2 = limit ->
  price (match_ b incoming).1.2 = Some p ->
  l ∈ _get_side_book (match_ b incoming).1.1 (opposite (side incoming)) ->
  match side incoming with
  | buy => p < pl_price l
  | sell => pl_price l < p
  end.
Proof.
  intros Hwf Hrem Hty Hp Hl.
  pose proof (book_wf_match b incoming Hwf) as [Hsorted' _].
  destruct Hwf as [Hsorted _].
  pose proof (match_exits b incoming (opp_view_NoDup _ _ (Hsorted _)))
    as Hexit.
  destruct (match_effects b incoming) as (_ & Hinc & _).
  destruct (match_ b incoming) as [[b' incoming'] ts]. cbn [fst snd] in *.
  assert (Hside : side incoming' = side incoming) by by rewrite Hinc.
  rewrite <- Hside in *.
  rewrite match_step_view in Hexit by apply opp_view_NoDup, Hsorted'.
  apply fmap_None in Hexit.
  pose proof (opp_view_best_first (side incoming') b' (Hsorted' _)) as Hbest.
  assert (Hview : l ∈ opp_view (side incoming') b').
  { destruct (side incoming'); cbn in *; [done|by apply elem_of_reverse]. }
  destruct (opp_view (side incoming') b') as [|best others];
    [by apply elem_of_nil in Hview|].
  cbn [view_step] in Hexit.
  rewrite bool_decide_eq_true_2 in Hexit by done. cbn [andb] in Hexit.
  destruct (crosses incoming' (pl_price best)) eqn:Hcross.
  { destruct (queue best) as [|maker rest]; [done|].
    destruct (fill_of (pl_price best) maker incoming') as [[[? ?] ?] ?].
    by case_decide. }
  unfold crosses in Hcross. rewrite Hty, Hp in Hcross.
  rewrite decide_False in Hcross by done.
  rewrite fmap_cons in Hbest. apply StronglySorted_inv in Hbest as [_ Hall].
  rewrite Forall_forall in Hall.
  assert (Hle : l = best \/ better (side incoming') (pl_price best) (pl_price l)).
  { apply elem_of_cons in Hview as [->|?]; [by left|right].
    by apply Hall, list_elem_of_fmap_2. }
  destruct (side incoming'); apply bool_decide_eq_false_1 in Hcross;
    destruct Hle as [->|Hlt]; cbn in *; lia.
Qed.

(** [add_limit] adds at most the price of the order to its own side. *)
Lemma add_limit_side_prices b od book2 s q :
  add_limit b od = Ok book2 ->
  q ∈ pl_price <$> _get_side_book book2 s ->
  q ∈ pl_price <$> _get_side_book b s \/ (s = side od /\ price od = Some q).
Proof.
  intros Hadd. destruct (price od) as [p|] eqn:Hp.
  2:{ unfold add_limit in Hadd. by rewrite Hp in Hadd. }
  rewrite (get_side_book_add b od p s Hp book2 Hadd).
  case_decide as Hs; [subst s|by left].
  rewrite sd_alter_prices by done.
  destruct (sd_get p _); [by left|].
  intros (l & -> & [->|Hl]%elem_of_sd_set)%list_elem_of_fmap; [by right|left].
  by apply list_elem_of_fmap_2.
Qed.

Lemma remove_order_side_prices b oid s q :
  q ∈ pl_price <$> _get_side_book (remove_order b oid).1 s ->
  q ∈ pl_price <$> _get_side_book b s.
Proof.
  unfold remove_order.
  destruct (order_index b !! oid) as [[s' p]|]; [|done].
  destruct (sd_get p (_get_side_book b s')) as [level|].
  2:{ by destruct b, s. }
  destruct (split_queue oid (queue level) None) as [new_queue removed].
  cbn [fst].
  destruct (decide (s = s')) as [->|Hs].
  2:{ by destruct b, s, s', new_queue. }
  assert (Hsub : q ∈ pl_price <$> sd_alter (set_queue new_queue) p
                                    (_get_side_book b s')
                 -> q ∈ pl_price <$> _get_side_book b s').
  { by rewrite sd_alter_prices. }
  assert (Hdel : q ∈ pl_price <$> sd_del p (sd_alter (set_queue new_queue) p
                                              (_get_side_book b s'))
                 -> q ∈ pl_price <$> _get_side_book b s').
  { intros (l & -> & Hl%elem_of_sd_del)%list_elem_of_fmap.
    by apply Hsub, list_elem_of_fmap_2. }
  destruct b, s', new_queue; done.
Qed.

Lemma book_live_new sym : book_live (new_book sym).
Proof.
  split; [apply book_inv_new|]. intros lb la Hlb. by apply elem_of_nil in Hlb.
Qed.

Lemma book_live_match b incoming :
  book_live b -> book_live (match_ b incoming).1.1.
Proof.
  intros [Hinv Hb]. split; [by apply book_inv_match|].
  by apply uncrossed_match; [apply book_inv_wf|].
Qed.

Lemma book_live_rest b incoming book2 :
  book_live b ->
  type (match_ b incoming).1.2 = limit ->
  0 < remaining (match_ b incoming).1.2 ->
  add_limit (match_ b incoming).1.1 (match_ b incoming).1.2 = Ok book2 ->
  book_live book2.
Proof.
  intros [Hinv Hb] Hty Hrem Hadd. split.
  { apply (book_inv_add (match_ b incoming).1.1 (match_ b incoming).1.2);
      [by apply book_inv_match|done..]. }
  pose proof (book_inv_wf b Hinv) as Hwf.
  pose proof (uncrossed_match b incoming Hwf Hb) as Hb'.
  pose proof (fun p l => match_rest_beyond b incoming p l Hwf Hrem Hty)
    as Hbeyond.
  destruct (match_effects b incoming) as (_ & Hinc & _).
  destruct (match_ b incoming) as [[b' incoming'] ts]. cbn [fst snd] in *.
  assert (Hside : side incoming' = side incoming) by by rewrite Hinc.
  intros lb la Hlb Hla.
  apply (list_elem_of_fmap_2 pl_price) in Hlb, Hla.
  destruct (add_limit_side_prices _ _ _ buy _ Hadd Hlb) as [Hlb'|[Hs Hp]];
    destruct (add_limit_side_prices _ _ _ sell _ Hadd Hla) as [Hla'|[Hs' Hp']].
  - by apply (proj1 (uncrossed_prices b') Hb').
  - apply list_elem_of_fmap in Hlb' as (l & -> & Hl).
    specialize (Hbeyond _ l Hp'). rewrite <- Hside, <- Hs' in Hbeyond.
    by apply Hbeyond.
  - apply list_elem_of_fmap in Hla' as (l & -> & Hl).
    specialize (Hbeyond _ l Hp). rewrite <- Hside, <- Hs in Hbeyond.
    by apply Hbeyond.
  - congruence.
Qed.

Lemma book_live_remove b oid : book_live b -> book_live (remove_order b oid).1.
Proof.
  intros [Hinv Hb]. split; [by apply book_inv_remove|].
  revert Hb. rewrite !uncrossed_prices. intros Hb pb pa Hpb Hpa.
  apply Hb.
  - by apply (remove_order_side_prices b oid buy).
  - by apply (remove_order_side_prices b oid sell).
Qed.
End Uncrossed.

(** X2.  Without [load_state] the book is never crossed: in every state
    reached from a fresh engine by submits, cancels and trigger scans,
    every bid price of a book is below every ask price, so a best bid is
    below a best ask whenever both exist. *)
Theorem live_books_uncrossed (st : MatchingEngine) :
  reachable_live st ->
  forall sym book,
    (sym, book) ∈ books st ->
    uncrossed book
    /\ forall bid ask, best_prices book = (Some bid, Some ask) -> bid < ask.
Proof.
  intros Hlive sym book Hin.
  assert (Hall : books_all book_live (books st)).
  { apply live_books_all; [apply book_live_new|apply book_live_match
                          |apply book_live_rest|apply book_live_remove|done]. }
  destruct (Hall sym book Hin) as [_ Hb]. split; [done|].
  unfold best_prices. intros bid ask [= Hbid Hask].
  destruct (last (bids book)) as [lb|] eqn:Hlast; [|done].
  destruct (head (asks book)) as [la|] eqn:Hhead; [|done].
  injection Hbid as <-. injection Hask as <-.
  apply Hb; [by apply last_Some_elem_of|by apply head_Some_elem_of].
Qed.

(** The theorem at the same engine: its best bid 90 is below its best
    ask 100. *)
Lemma live_books_uncrossed_witness :
  reachable_live engine_take_profit
  /\ best_prices (book_of engine_take_profit "BTC-USD")
     = (Some (dec 90), Some (dec 100))
  /\ dec 90 < dec 100.
Proof.
  assert (Hlive : reachable_live engine_take_profit).
  { do 3 apply live_submit.
    apply (live_new (- DEC_UNIT) (25 * DEC_UNIT / 10)). }
  assert (Hin : ("BTC-USD"%string, book_of engine_take_profit "BTC-USD")
                ∈ books engine_take_profit).
  { apply dict_get_elem. by vm_compute. }
  assert (Hbest : best_prices (book_of engine_take_profit "BTC-USD")
                  = (Some (dec 90), Some (dec 100))) by (by vm_compute).
  destruct (live_books_uncrossed _ Hlive _ _ Hin) as [_ Hbbo].
  split_and!; [exact Hlive|exact Hbest|exact (Hbbo _ _ Hbest)].
Defined.

(** * The quantities filled by [match] *)

Section Conservation.
Implicit Types (b book : OrderBook) (od o incoming : Order) (sd : SortedDict)
  (v : list PriceLevel) (l : PriceLevel) (ts : list RawTrade).



End Conservation.



Section FillAmount.
Implicit Types (b book : OrderBook) (od o incoming : Order) (sd : SortedDict)
  (v : list PriceLevel) (l : PriceLevel) (ts : list RawTrade).




End FillAmount.




(** * The depth of [snapshot_l2] *)

Section SnapshotDepth.
Implicit Types (levels : list PriceLevel) (acc : list L2Entry).

End SnapshotDepth.



(** * Market data read from the engine *)

Section MarketData.
Implicit Types (b book : OrderBook) (st : MatchingEngine) (l : PriceLevel)
  (sd : SortedDict).

Lemma level_ok_quantity s l : level_ok s l -> 0 < total_quantity l.
Proof.
  intros [Hne Hq]. destruct l as [p [|o q]]; [done|].
  rewrite total_quantity_cons.
  assert (0 < remaining o).
  { destruct (Hq o ltac:(left)) as (_ & _ & _ & Hact).
    by apply bool_decide_eq_true_1 in Hact. }
  assert (0 <= total_quantity (mkPriceLevel p q)); [|lia].
  apply total_quantity_nonneg. intros o' Ho'.
  destruct (Hq o' ltac:(by right)) as (_ & _ & _ & Hact).
  apply bool_decide_eq_true_1 in Hact. lia.
Qed.


Lemma book_of_inv st sym : reachable st -> book_inv (book_of st sym).
Proof.
  intros Hreach. unfold book_of.
  destruct (dict_get sym (books st)) as [book|] eqn:Hget; simpl.
  - apply (reachable_books_all _ book_inv_new book_inv_match
             (rest_of_match_add _ book_inv_match book_inv_add)
             book_inv_remove book_inv_add st Hreach sym).
    by apply dict_get_elem.
  - apply book_inv_new.
Qed.

Lemma sorted_last_max (ps : list Z) x y :
  StronglySorted Z.lt ps -> last ps = Some x -> y ∈ ps -> y <= x.
Proof.
  intros Hs Hlast Hy. apply last_Some in Hlast as [pre ->].
  apply elem_of_app in Hy as [Hy| ->%list_elem_of_singleton]; [|lia].
  pose proof (StronglySorted_app_1_elem_of _ _ _ y x Hs Hy ltac:(left)). lia.
Qed.

Lemma sorted_head_min (ps : list Z) x y :
  StronglySorted Z.lt ps -> head ps = Some x -> y ∈ ps -> x <= y.
Proof.
  destruct ps as [|x' ps]; [done|]. intros [Hs Hall]%StronglySorted_inv [= ->].
  intros [->|Hy]%elem_of_cons; [lia|].
  rewrite Forall_forall in Hall. specialize (Hall y Hy). lia.
Qed.
End MarketData.



(** X7.  In a reachable state [get_bbo] never raises; the bid it reports
    is the bid level of the highest price with the summed remaining
    quantity of that level, the ask is the ask level of the lowest price,
    each quantity is positive, and a side is [None] exactly when that
    side of the book is empty. *)
Theorem get_bbo_best_levels (st : MatchingEngine) (sym now : string) :
  reachable st ->
  let book := book_of st sym in
  exists r,
    get_bbo st sym now = (_ensure_book st sym, Ok r)
    /\ bbo_timestamp r = now
    /\ (bbo_bid r = None <-> bids book = [])
    /\ (bbo_ask r = None <-> asks book = [])
    /\ (forall lv, bbo_bid r = Some lv ->
          0 < lv_quantity lv
          /\ (exists l, l ∈ bids book /\ lv_price lv = pl_price l
                        /\ lv_quantity lv = total_quantity l)
          /\ (forall l, l ∈ bids book -> pl_price l <= lv_price lv))
    /\ (forall lv, bbo_ask r = Some lv ->
          0 < lv_quantity lv
          /\ (exists l, l ∈ asks book /\ lv_price lv = pl_price l
                        /\ lv_quantity lv = total_quantity l)
          /\ (forall l, l ∈ asks book -> lv_price lv <= pl_price l)).
Proof.
  intros Hreach book.
  pose proof (book_of_inv st sym Hreach) as [Hsorted Hlevels].
  fold book in Hsorted, Hlevels.
  exists (bbo book now). unfold get_bbo. rewrite ensure_book_get. fold book.
  unfold bbo, _best_bid, _best_ask. cbn [bbo_bid bbo_ask bbo_timestamp].
  split_and!; [done|done| | | |].
  - rewrite fmap_None. apply last_None.
  - rewrite fmap_None. apply head_None.
  - intros lv (l & Hl & ->)%fmap_Some. cbn [lv_price lv_quantity].
    pose proof (last_Some_elem_of _ _ Hl) as Hin.
    split_and!.
    + by apply (level_ok_quantity buy), (Hlevels buy).
    + by exists l.
    + intros l' Hl'. apply (sorted_last_max (pl_price <$> bids book)).
      * apply (Hsorted buy).
      * by rewrite fmap_last, Hl.
      * by apply list_elem_of_fmap_2.
  - intros lv (l & Hl & ->)%fmap_Some. cbn [lv_price lv_quantity].
    pose proof (head_Some_elem_of _ _ Hl) as Hin.
    split_and!.
    + by apply (level_ok_quantity sell), (Hlevels sell).
    + by exists l.
    + intros l' Hl'. apply (sorted_head_min (pl_price <$> asks book)).
      * apply (Hsorted sell).
      * destruct (asks book); [done|]. by injection Hl as ->.
      * by apply list_elem_of_fmap_2.
Qed.

(** The theorem at the same engine. *)
Lemma get_bbo_best_levels_witness :
  reachable engine_take_profit
  /\ exists r,
       get_bbo engine_take_profit "BTC-USD" test_now
       = (_ensure_book engine_take_profit "BTC-USD", Ok r)
       /\ bbo_timestamp r = test_now.
Proof.
  assert (Hreach : reachable engine_take_profit).
  { do 3 apply reach_submit.
    apply (reach_new (- DEC_UNIT) (25 * DEC_UNIT / 10)). }
  destruct (get_bbo_best_levels engine_take_profit "BTC-USD" test_now Hreach)
    as (r & Hget & Hts & _).
  split; [exact Hreach|]. exists r. split; [exact Hget|exact Hts].
Defined.

(** * [add_limit] and [remove_order] *)

Section RemoveOrder.
Implicit Types (b book : OrderBook) (od o : Order) (sd : SortedDict)
  (l : PriceLevel) (q : list Order).

Lemma split_queue_spec oid q : forall removed,
  (split_queue oid q removed).1 = filter (fun o => order_id o <> oid) q
  /\ (split_queue oid q removed).2
     = from_option Some removed
         (last (filter (fun o => order_id o = oid) q)).
Proof.
  induction q as [|o q IH]; intros removed; cbn [split_queue]; [done|].
  rewrite !filter_cons. destruct (decide (order_id o = oid)) as [Ho|Ho].
  - rewrite decide_False by (intros ?; contradiction).
    destruct (IH (Some o)) as [-> ->]. split; [done|].
    rewrite last_cons. by destruct (last (filter _ q)).
  - rewrite decide_True by done. specialize (IH removed).
    destruct (split_queue oid q removed) as [kept r]. simpl in *.
    destruct IH as [-> ->]. done.
Qed.

Lemma filter_other_ids oid q :
  (forall o, o ∈ q -> order_id o <> oid) ->
  filter (fun o => order_id o <> oid) q = q
  /\ filter (fun o => order_id o = oid) q = [].
Proof.
  induction q as [|o q IH]; intros Hids; [done|].
  rewrite !filter_cons, decide_True, decide_False by (apply Hids; left).
  destruct IH as [-> ->]; [|done]. intros o' Ho'. apply Hids. by right.
Qed.

Lemma sd_del_alter (f : PriceLevel -> PriceLevel) p sd :
  (forall l, pl_price (f l) = pl_price l) ->
  sd_del p (sd_alter f p sd) = sd_del p sd.
Proof.
  intros Hf. induction sd as [|l sd IH]; cbn [sd_alter sd_del]; [done|].
  case_decide as Hp; cbn [sd_del].
  - by rewrite decide_True by by rewrite Hf.
  - rewrite decide_False by done. by rewrite IH.
Qed.

Lemma sd_del_set_new p q sd :
  sd_get p sd = None -> sd_del p (sd_set (mkPriceLevel p q) sd) = sd.
Proof.
  induction sd as [|l sd IH]; cbn [sd_get sd_set sd_del pl_price].
  { intros _. by rewrite decide_True. }
  destruct (decide (pl_price l = p)) as [|Hne]; [done|]. intros Hnone.
  destruct (decide (p < pl_price l)).
  { cbn [sd_del pl_price]. by rewrite decide_True. }
  destruct (decide (p = pl_price l)); [congruence|].
  cbn [sd_del]. rewrite decide_False by done. by rewrite IH.
Qed.

Lemma sd_alter_alter (f g : PriceLevel -> PriceLevel) p sd :
  (forall l, pl_price (f l) = pl_price l) ->
  sd_alter g p (sd_alter f p sd) = sd_alter (g ∘ f) p sd.
Proof.
  intros Hf. induction sd as [|l sd IH]; cbn [sd_alter]; [done|].
  case_decide as Hp; cbn [sd_alter].
  - by rewrite decide_True by by rewrite Hf.
  - rewrite decide_False by done. by rewrite IH.
Qed.

Lemma sd_alter_same (f : PriceLevel -> PriceLevel) p sd l :
  sd_get p sd = Some l -> f l = l -> sd_alter f p sd = sd.
Proof.
  intros Hget Hf. induction sd as [|l' sd IH]; cbn [sd_get sd_alter] in *;
    [done|].
  case_decide; [by injection Hget as ->; rewrite Hf|by rewrite IH].
Qed.

Lemma set_side_book_same b s : set_side_book b s (_get_side_book b s) = b.
Proof. by destruct b, s. Qed.
End RemoveOrder.

(** X9.  [add_limit] followed by [remove_order] of the same id gives back
    the book and the order, provided the id was not indexed and no order
    of the level has it. *)
Theorem add_limit_remove_order (b : OrderBook) (od : Order) (p : Decimal) :
  price od = Some p ->
  order_index b !! order_id od = None ->
  (forall l, sd_get p (_get_side_book b (side od)) = Some l ->
             queue l <> [] /\ forall o, o ∈ queue l -> order_id o <> order_id od) ->
  exists book2,
    add_limit b od = Ok book2
    /\ remove_order book2 (order_id od) = (b, Some od).
Proof.
  intros Hp Hix Hlevel.
  destruct (add_limit_tail b od p Hp) as (book2 & level & Hadd & _ & _ & Hix2).
  exists book2. split; [done|].
  pose proof (get_side_book_add b od p (side od) Hp book2 Hadd) as Hside.
  rewrite decide_True in Hside by done.
  pose proof (get_side_book_add b od p (opposite (side od)) Hp book2 Hadd)
    as Hother.
  rewrite decide_False in Hother by by destruct (side od).
  assert (Hindex : order_index book2
                   = <[order_id od := (side od, p)]> (order_index b)).
  { unfold add_limit in Hadd. rewrite Hp in Hadd. by injection Hadd as <-. }
  assert (Hfields : ob_symbol book2 = ob_symbol b
                    /\ last_trade_price book2 = last_trade_price b).
  { unfold add_limit in Hadd. rewrite Hp in Hadd. injection Hadd as <-.
    by destruct b, (side od). }
  set (f := fun l => set_queue (queue l ++ [od]) l) in *.
  assert (Hrestore :
            exists l2 kept,
              sd_get p (_get_side_book book2 (side od)) = Some l2
              /\ split_queue (order_id od) (queue l2) None = (kept, Some od)
              /\ match kept with
                 | [] => sd_del p (sd_alter (set_queue kept) p
                                     (_get_side_book book2 (side od)))
                 | _ :: _ => sd_alter (set_queue kept) p
                               (_get_side_book book2 (side od))
                 end = _get_side_book b (side od)).
  { rewrite Hside.
    destruct (sd_get p (_get_side_book b (side od))) as [l0|] eqn:Hget.
    - destruct (Hlevel l0 eq_refl) as [Hne Hids].
      exists (f l0), (queue l0). split_and!.
      + apply sd_get_alter; [done|]. by apply sd_get_price in Hget.
      + destruct (filter_other_ids (order_id od) (queue l0) Hids)
          as [Hkeep Hnone].
        apply injective_projections; cbn [fst snd].
        * rewrite (proj1 (split_queue_spec _ _ _)). cbn [f queue set_queue].
          rewrite filter_app, filter_cons, decide_False, filter_nil, app_nil_r
            by (intros ?; contradiction).
          exact Hkeep.
        * rewrite (proj2 (split_queue_spec _ _ _)). cbn [f queue set_queue].
          by rewrite filter_app, filter_cons, decide_True, filter_nil,
            last_snoc.
      + destruct (queue l0) as [|o q] eqn:Hq; [done|].
        rewrite sd_alter_alter by done.
        apply (sd_alter_same _ p _ l0 Hget). cbn. rewrite <- Hq.
        by destruct l0.
    - exists (f (mkPriceLevel p [])), []. split_and!.
      + apply sd_get_alter; [by apply sd_get_set_new|done].
      + cbn. by rewrite decide_True.
      + rewrite !sd_del_alter by done. by apply sd_del_set_new. }
  destruct Hrestore as (l2 & kept & Hget2 & Hsplit & Hkept).
  unfold remove_order. rewrite Hix2, Hget2, Hsplit. f_equal.
  rewrite Hindex, delete_insert_id by done.
  assert (Hsides : forall sd,
            sd = _get_side_book b (side od) ->
            set_order_index (set_side_book book2 (side od) sd) (order_index b)
            = b).
  { intros sd ->. clear -Hother Hfields.
    destruct b, book2, (side od); cbn in *;
      destruct Hfields as [-> ->]; by subst. }
  destruct kept; by apply Hsides.
Qed.

(** The theorem at the test book and a third ask at 101. *)
Lemma add_limit_remove_order_witness :
  exists book2,
    add_limit test_book test_ask_a3 = Ok book2
    /\ remove_order book2 "a3" = (test_book, Some test_ask_a3).
Proof.
  apply (add_limit_remove_order test_book test_ask_a3 (dec 101)).
  - by vm_compute.
  - by vm_compute.
  - intros l Hl. vm_compute in Hl. injection Hl as <-. split; [done|].
    intros o ->%list_elem_of_singleton. by vm_compute.
Defined.

Section RemoveEffects.
Implicit Types (b book : OrderBook) (od o : Order) (sd : SortedDict)
  (l : PriceLevel) (q : list Order).

Lemma in_sd_alter_filter oid p sd level o :
  sd_get p sd = Some level -> o ∈ sd ≫= queue -> order_id o <> oid ->
  o ∈ sd_alter (set_queue (filter (fun o => order_id o <> oid) (queue level)))
        p sd ≫= queue.
Proof.
  intros Hget Ho Hid. induction sd as [|l sd IH]; cbn [sd_get sd_alter] in *;
    [done|].
  rewrite bind_cons, elem_of_app in Ho.
  case_decide; rewrite bind_cons, elem_of_app.
  - injection Hget as ->. destruct Ho as [Ho|Ho]; [left|by right].
    cbn [queue set_queue]. by apply list_elem_of_filter.
  - destruct Ho as [Ho|Ho]; [by left|right; by apply IH].
Qed.

Lemma in_sd_del_other p sd level o :
  sd_get p sd = Some level -> o ∈ sd ≫= queue -> o ∉ queue level ->
  o ∈ sd_del p sd ≫= queue.
Proof.
  intros Hget Ho Hnot. induction sd as [|l sd IH]; cbn [sd_get sd_del] in *;
    [done|].
  rewrite bind_cons, elem_of_app in Ho.
  case_decide.
  - injection Hget as ->. by destruct Ho.
  - rewrite bind_cons, elem_of_app.
    destruct Ho as [Ho|Ho]; [by left|right; by apply IH].
Qed.
End RemoveEffects.

(** X8.  What [remove_order] changes: the id leaves [order_index] and no
    other index entry changes; an id that is not indexed leaves the book
    as it is and returns [None]; an order returned has the id and was
    resting; no order appears; every resting order with another id
    stays. *)
Theorem remove_order_effects (b : OrderBook) (oid : string) :
  let b' := (remove_order b oid).1 in
  let removed := (remove_order b oid).2 in
  order_index b' !! oid = None
  /\ (forall id, id <> oid -> order_index b' !! id = order_index b !! id)
  /\ (order_index b !! oid = None -> b' = b /\ removed = None)
  /\ (forall o, removed = Some o -> order_id o = oid /\ o ∈ resting_orders b)
  /\ (forall o, o ∈ resting_orders b' -> o ∈ resting_orders b)
  /\ (forall o, o ∈ resting_orders b -> order_id o <> oid ->
                o ∈ resting_orders b')
  /\ ob_symbol b' = ob_symbol b
  /\ last_trade_price b' = last_trade_price b.
Proof.
  cbn zeta. split_and!.
  - unfold remove_order.
    destruct (order_index b !! oid) as [[s p]|] eqn:Hix; [|done].
    destruct (sd_get p (_get_side_book b s)) as [level|].
    + destruct (split_queue oid (queue level) None) as [new_queue removed].
      cbn. apply lookup_delete_eq.
    + cbn. apply lookup_delete_eq.
  - intros id Hid. unfold remove_order.
    destruct (order_index b !! oid) as [[s p]|] eqn:Hix; [|done].
    destruct (sd_get p (_get_side_book b s)) as [level|].
    + destruct (split_queue oid (queue level) None) as [new_queue removed].
      cbn. by apply lookup_delete_ne.
    + cbn. by apply lookup_delete_ne.
  - intros Hix. unfold remove_order. by rewrite Hix.
  - intros o. unfold remove_order.
    destruct (order_index b !! oid) as [[s p]|] eqn:Hix; [|done].
    destruct (sd_get p (_get_side_book b s)) as [level|] eqn:Hget; [|done].
    pose proof (split_queue_spec oid (queue level) None) as [_ Hrem].
    destruct (split_queue oid (queue level) None) as [new_queue removed].
    cbn in *. intros ->.
    destruct (last (filter _ (queue level))) as [o'|] eqn:Hlast; [|done].
    injection Hrem as <-.
    apply last_Some_elem_of, list_elem_of_filter in Hlast as [Hid Ho].
    split; [done|]. apply elem_of_resting_side. exists s.
    apply list_elem_of_bind. exists level. split; [done|].
    by apply (elem_of_sd_get p).
  - apply remove_order_resting.
  - intros o [s' Ho]%elem_of_resting_side Hid. unfold remove_order.
    destruct (order_index b !! oid) as [[s p]|] eqn:Hix;
      [|apply elem_of_resting_side; by exists s'].
    destruct (sd_get p (_get_side_book b s)) as [level|] eqn:Hget.
    2:{ cbn. apply elem_of_resting_side. exists s'. by destruct b, s'. }
    pose proof (split_queue_spec oid (queue level) None) as [Hkept _].
    destruct (split_queue oid (queue level) None) as [new_queue removed].
    cbn [fst snd] in *. subst new_queue.
    apply elem_of_resting_side. exists s'.
    destruct (decide (s' = s)) as [->|Hs].
    2:{ by destruct b, s, s', (filter _ (queue level)). }
    pose proof (in_sd_alter_filter oid p _ level o Hget Ho Hid) as Halter.
    assert (Hdel : filter (fun o => order_id o <> oid) (queue level) = [] ->
              o ∈ sd_del p (sd_alter (set_queue []) p (_get_side_book b s))
                  ≫= queue).
    { intros Hnil. rewrite sd_del_alter by done.
      apply (in_sd_del_other p _ level); [done|done|].
      intros Hin. assert (Hf : o ∈ filter (fun o => order_id o <> oid)
                                     (queue level))
        by by apply list_elem_of_filter.
      rewrite Hnil in Hf. by apply elem_of_nil in Hf. }
    destruct (filter _ (queue level)) as [|o1 q1] eqn:Hfilter.
    + specialize (Hdel eq_refl). by destruct b, s.
    + by destruct b, s.
  - unfold remove_order.
    destruct (order_index b !! oid) as [[s p]|]; [|done].
    destruct (sd_get p (_get_side_book b s)) as [level|]; [|done].
    destruct (split_queue oid (queue level) None) as [new_queue removed].
    by destruct b, s, new_queue.
  - unfold remove_order.
    destruct (order_index b !! oid) as [[s p]|]; [|done].
    destruct (sd_get p (_get_side_book b s)) as [level|]; [|done].
    destruct (split_queue oid (queue level) None) as [new_queue removed].
    by destruct b, s, new_queue.
Qed.

(** * Recent trades *)

Section TradesSince.
Implicit Types (trades pre post filtered : list Trade) (tr : Trade).

Lemma trades_after_seen id trades : forall filtered,
  trades_after id trades true filtered = (filtered ++ trades, true).
Proof.
  induction trades as [|tr rest IH]; intros filtered; cbn [trades_after].
  - by rewrite app_nil_r.
  - by rewrite IH, <- app_assoc.
Qed.

Lemma trades_after_unseen id trades filtered :
  id ∉ trade_id <$> trades ->
  trades_after id trades false filtered = (filtered, false).
Proof.
  induction trades as [|tr rest IH]; cbn [trades_after]; [done|].
  rewrite fmap_cons, not_elem_of_cons. intros [Hne Hrest].
  rewrite decide_False by done. by apply IH.
Qed.

Lemma trades_after_first id pre tr post filtered :
  id ∉ trade_id <$> pre -> trade_id tr = id ->
  trades_after id (pre ++ tr :: post) false filtered = (filtered ++ post, true).
Proof.
  induction pre as [|x pre IH]; cbn [trades_after app].
  - intros _ Htr. rewrite decide_True by done. apply trades_after_seen.
  - rewrite fmap_cons, not_elem_of_cons. intros [Hne Hpre] Htr.
    rewrite decide_False by done. by apply IH.
Qed.
End TradesSince.

(** X10.  [get_trades_since]: the second component is the id of the
    last trade of the ring; without [since], with an empty [since], or
    with an id the ring does not hold, the whole ring is returned;
    otherwise the trades after the first trade with that id. *)
Theorem get_trades_since_spec (st : MatchingEngine) (sym : string)
    (since : option string) :
  let trades := get_trades st sym in
  let r := get_trades_since st sym since in
  r.2 = trade_id <$> last trades
  /\ (since = None \/ since = Some EmptyString -> r.1 = trades)
  /\ (forall id, since = Some id -> id ∉ trade_id <$> trades -> r.1 = trades)
  /\ (forall id pre tr post,
        since = Some id -> id <> EmptyString ->
        trades = pre ++ tr :: post -> trade_id tr = id ->
        id ∉ trade_id <$> pre ->
        r.1 = post).
Proof.
  cbn zeta. unfold get_trades_since. split_and!.
  - destruct since as [[|c id]|]; [done| |done].
    by destruct (trades_after _ _ _ _).
  - by intros [->| ->].
  - intros id -> Hid. destruct id as [|c id]; [done|].
    by rewrite trades_after_unseen.
  - intros id pre tr post -> Hne Htrades Htr Hpre.
    destruct id as [|c id]; [done|].
    by rewrite Htrades, trades_after_first.
Qed.

Section TradeRing.
Context {A : Type}.
Implicit Types (l q : list A) (n limit : nat).



Lemma deque_append_last_n limit q x :
  deque_append limit q x = last_n limit (q ++ [x]).
Proof. done. Qed.
End TradeRing.

Section RecordTrades.
Implicit Types (st : MatchingEngine) (raw : list RawTrade).


End RecordTrades.

Lemma next_id_inj (prefix : string) (n m : nat) :
  next_id prefix n = next_id prefix m -> n = m.
Proof.
  unfold next_id. intros Heq.
  apply String.app_inj, String.app_inj in Heq.
  apply DecimalNat.Unsigned.to_uint_inj.
  pose proof (NilEmpty.usu (Nat.to_uint n)) as Hn.
  rewrite Heq, NilEmpty.usu in Hn. by injection Hn.
Qed.



(** * Orders that match at once *)

Section SubmitOrder.
Implicit Types (b book : OrderBook) (od o incoming : Order)
  (st : MatchingEngine) (raw : list RawTrade).


Lemma record_trades_fields sym now raw : forall st,
  Forall2 (fun t '(maker, taker, p, qty) =>
             tr_symbol t = sym /\ aggressor_side t = side taker
             /\ taker_order_id t = order_id taker
             /\ maker_order_id t = order_id maker
             /\ tr_price t = quantize_8 p /\ tr_quantity t = quantize_8 qty
             /\ tr_timestamp t = now)
    (_record_trades st sym now raw).2 raw.
Proof.
  induction raw as [|[[[maker taker] p] qty] rest IH]; intros st;
    cbn [_record_trades]; [constructor|].
  destruct (_fees st p qty) as [mfee tfee].
  match goal with
  | |- context [_record_trades ?s sym now rest] =>
      specialize (IH s); destruct (_record_trades s sym now rest)
        as [st2 trades]
  end.
  cbn [fst snd] in *. by constructor.
Qed.

End SubmitOrder.



(** * The trigger scan *)

Section TriggerScan.
Implicit Types (od : Order) (ltp bid ask level : option Decimal)
  (pending acts : list Order).

Lemma ge_guard_true x y :
  ge_guard x (Some y) = Ok true <-> exists a, x = Some a /\ y <= a.
Proof.
  destruct x as [a|]; cbn.
  - split.
    + intros [= H%bool_decide_eq_true]. by exists a.
    + intros (? & [= <-] & ?). by rewrite bool_decide_eq_true_2.
  - split; [done|]. by intros (? & ? & ?).
Qed.

Lemma le_guard_true x y :
  le_guard x (Some y) = Ok true <-> exists a, x = Some a /\ a <= y.
Proof.
  destruct x as [a|]; cbn.
  - split.
    + intros [= H%bool_decide_eq_true]. by exists a.
    + intros (? & [= <-] & ?). by rewrite bool_decide_eq_true_2.
  - split; [done|]. by intros (? & ? & ?).
Qed.

Lemma or_else_true (a b : result bool) :
  (exists x, a = Ok x) ->
  or_else a b = Ok true <-> a = Ok true \/ b = Ok true.
Proof.
  intros [[] ->]; cbn; [split; [by left|done]|].
  split; [by right|]. by intros [|].
Qed.

Lemma ge_guard_ok x y : exists r, ge_guard x (Some y) = Ok r.
Proof. destruct x; cbn; by eexists. Qed.

Lemma le_guard_ok x y : exists r, le_guard x (Some y) = Ok r.
Proof. destruct x; cbn; by eexists. Qed.

(** The pair of tests of one trigger kind, for a level that is set. *)
Lemma trigger_hit_true od up lv ltp bid ask :
  trigger_hit od up (Some lv) ltp bid ask = Ok true
  <-> if decide (side od = up)
      then (exists l, ltp = Some l /\ lv <= l)
           \/ (exists a, ask = Some a /\ lv <= a)
      else (exists l, ltp = Some l /\ l <= lv)
           \/ (exists bd, bid = Some bd /\ bd <= lv).
Proof.
  unfold trigger_hit. case_decide.
  - rewrite or_else_true by apply ge_guard_ok. by rewrite !ge_guard_true.
  - rewrite or_else_true by apply le_guard_ok. by rewrite !le_guard_true.
Qed.

Lemma stop_condition_iff od ltp bid ask sp :
  stop_price od = Some sp ->
  trigger_hit od buy (Some sp) ltp bid ask = Ok true
  <-> stop_condition_met od ltp bid ask.
Proof.
  intros Hsp. rewrite trigger_hit_true. unfold stop_condition_met.
  rewrite Hsp. destruct (side od); cbn.
  - split; [intros ?; by exists sp|by intros (? & [= <-] & ?)].
  - split; [intros ?; by exists sp|by intros (? & [= <-] & ?)].
Qed.

Lemma take_profit_condition_iff od ltp bid ask tp :
  take_profit_price od = Some tp ->
  trigger_hit od sell (Some tp) ltp bid ask = Ok true
  <-> take_profit_condition_met od ltp bid ask.
Proof.
  intros Htp. rewrite trigger_hit_true. unfold take_profit_condition_met.
  rewrite Htp. destruct (side od); cbn.
  - split; [intros ?; by exists tp|by intros (? & [= <-] & ?)].
  - split; [intros ?; by exists tp|by intros (? & [= <-] & ?)].
Qed.

(** The scan selects an order exactly when it is due. *)
Lemma scan_one_due ltp bid ask od od' :
  scan_one ltp bid ask od = Ok (od', true)
  <-> trigger_due od ltp bid ask /\ od' = scanned od.
Proof.
  unfold scan_one, trigger_due, scanned.
  destruct (type od) eqn:Hty; try (split; [done|by intros [[] _]]).
  - (* stop *)
    rewrite decide_False by done.
    destruct (stop_price od) as [sp|] eqn:Hsp.
    + rewrite <- (stop_condition_iff od ltp bid ask sp Hsp).
      destruct (trigger_hit od buy (Some sp) ltp bid ask) as [[]|e];
        split; try done; try by intros [? _].
      * by intros [= <-].
      * by intros [_ ->].
    + split.
      * destruct (trigger_hit od buy None ltp bid ask) as [hit|e] eqn:Hhit;
          [|done].
        intros [= <- ->]. exfalso. revert Hhit. unfold trigger_hit.
        case_decide; destruct ltp, ask, bid; cbn; try done.
      * intros [(sp & ? & _) _]. congruence.
  - (* stop-limit *)
    rewrite decide_True by done.
    destruct (stop_price od) as [sp|] eqn:Hsp.
    2:{ split; [done|]. intros [[_ (sp & ? & _)] _]. congruence. }
    destruct (price od) as [p|] eqn:Hp.
    2:{ split; [done|]. by intros [[[? ?] _] _]. }
    rewrite <- (stop_condition_iff od ltp bid ask sp Hsp).
    destruct (trigger_hit od buy (Some sp) ltp bid ask) as [[]|e];
      split; try done; try by intros [[_ ?] _].
    + by intros [= <-].
    + by intros [_ ->].
  - (* take-profit *)
    rewrite decide_False by done.
    destruct (take_profit_price od) as [tp|] eqn:Htp.
    2:{ split; [done|]. intros [(tp & ? & _) _]. congruence. }
    rewrite <- (take_profit_condition_iff od ltp bid ask tp Htp).
    destruct (trigger_hit od sell (Some tp) ltp bid ask) as [[]|e];
      split; try done; try by intros [? _].
    + by intros [= <-].
    + by intros [_ ->].
Qed.

Lemma scan_one_keeps ltp bid ask od od' :
  scan_one ltp bid ask od = Ok (od', false) -> od' = od.
Proof.
  unfold scan_one.
  destruct (type od); try by intros [= <-].
  - by destruct (trigger_hit _ _ _ _ _ _) as [[]|]; intros [= <-].
  - destruct (stop_price od), (price od); try by intros [= <-].
    by destruct (trigger_hit _ _ _ _ _ _) as [[]|]; intros [= <-].
  - destruct (take_profit_price od); try by intros [= <-].
    by destruct (trigger_hit _ _ _ _ _ _) as [[]|]; intros [= <-].
Qed.

Lemma scan_triggers_sound ltp bid ask od' : forall pending pending' acts,
  scan_triggers ltp bid ask pending = (pending', Ok acts) ->
  od' ∈ acts ->
  exists od, od ∈ pending /\ scan_one ltp bid ask od = Ok (od', true).
Proof.
  induction pending as [|x rest IH]; intros pending' acts Hscan Hin;
    cbn [scan_triggers] in Hscan.
  { injection Hscan as <- <-. by apply elem_of_nil in Hin. }
  destruct (scan_one ltp bid ask x) as [[x1 hit]|e] eqn:Hx; [|done].
  destruct (scan_triggers ltp bid ask rest) as [rest1 [acts1|e]] eqn:Hrest;
    [|done].
  injection Hscan as <- <-.
  assert (Hcases : (hit = true /\ od' = x1) \/ od' ∈ acts1).
  { destruct hit; [|by right].
    apply elem_of_cons in Hin as [->|?]; [by left|by right]. }
  destruct Hcases as [[-> ->]|Hin'].
  - exists x. split; [left|done].
  - destruct (IH rest1 acts1 eq_refl Hin') as (od & ? & ?).
    exists od. split; [by right|done].
Qed.

Lemma scan_triggers_pending ltp bid ask : forall pending pending' acts,
  scan_triggers ltp bid ask pending = (pending', Ok acts) ->
  Forall2 (fun od od1 => od1 = od \/ (od1 = scanned od /\ od1 ∈ acts))
    pending pending'
  /\ acts `sublist_of` pending'.
Proof.
  induction pending as [|x rest IH]; intros pending' acts Hscan;
    cbn [scan_triggers] in Hscan.
  { injection Hscan as <- <-. by split; constructor. }
  destruct (scan_one ltp bid ask x) as [[x1 hit]|e] eqn:Hx; [|done].
  destruct (scan_triggers ltp bid ask rest) as [rest1 [acts1|e]] eqn:Hrest;
    [|done].
  injection Hscan as <- <-.
  destruct (IH rest1 acts1 eq_refl) as [Hall Hsub]. destruct hit.
  - apply scan_one_due in Hx as [_ ->]. split.
    + constructor; [right; split; [done|left]|].
      eapply Forall2_impl; [exact Hall|].
      intros od od1 [?|[? ?]]; [by left|right; split; [done|by right]].
    + by apply sublist_skip.
  - apply scan_one_keeps in Hx as ->. split.
    + constructor; [by left|done].
    + by apply sublist_cons.
Qed.
End TriggerScan.

(** X14.  The scan of [process_triggers], when it does not raise,
    selects exactly the pending orders that are due (a stop order, a
    stop-limit order with a limit price, or a take-profit order, whose
    condition is met), in their order; a stop-limit order selected has
    its type set to [limit]; every other pending order is left as it
    is. *)
Theorem scan_triggers_exact (ltp bid ask : option Decimal)
    (pending pending' acts : list Order) :
  scan_triggers ltp bid ask pending = (pending', Ok acts) ->
  (forall od', od' ∈ acts
     <-> exists od, od ∈ pending /\ trigger_due od ltp bid ask
                    /\ od' = scanned od)
  /\ acts `sublist_of` pending'
  /\ Forall2 (fun od od1 => od1 = od \/ (od1 = scanned od /\ od1 ∈ acts))
       pending pending'.
Proof.
  intros Hscan.
  destruct (scan_triggers_pending _ _ _ _ _ _ Hscan) as [Hall Hsub].
  split_and!; [|done|done].
  intros od'. split.
  - intros Hin.
    destruct (scan_triggers_sound _ _ _ _ _ _ _ Hscan Hin) as (od & ? & Hone).
    apply scan_one_due in Hone as [? ?]. by exists od.
  - intros (od & Hin & Hdue & ->).
    apply (scan_triggers_complete ltp bid ask od (scanned od) pending
             pending' acts); [|done|done].
    by apply scan_one_due.
Qed.

(** The theorem at the scan of one due stop order. *)
Lemma scan_triggers_exact_witness :
  scan_triggers None None (Some (dec 100)) [stop_with_price_order]
  = ([stop_with_price_order], Ok [stop_with_price_order])
  /\ trigger_due stop_with_price_order None None (Some (dec 100)).
Proof.
  assert (Hscan : scan_triggers None None (Some (dec 100))
                    [stop_with_price_order]
                  = ([stop_with_price_order], Ok [stop_with_price_order]))
    by (by vm_compute).
  destruct (scan_triggers_exact _ _ _ _ _ _ Hscan) as (Hacts & _).
  split; [exact Hscan|].
  destruct (proj1 (Hacts stop_with_price_order) ltac:(left))
    as (od & ->%list_elem_of_singleton & Hdue & _).
  exact Hdue.
Defined.

Section NullStop.
Implicit Types (od : Order) (ltp bid ask level : option Decimal)
  (pending acts : list Order) (st : MatchingEngine).

Lemma scan_one_raise ltp bid ask od e :
  scan_one ltp bid ask od = Raise e -> e = TypeError.
Proof.
  assert (Hhit : forall up lv e',
            trigger_hit od up lv ltp bid ask = Raise e' -> e' = TypeError).
  { intros up lv e'. unfold trigger_hit.
    case_decide; destruct ltp, ask, bid, lv; cbn; try done;
      repeat case_bool_decide; cbn; congruence. }
  unfold scan_one. destruct (type od); try done.
  - destruct (trigger_hit _ _ _ _ _ _) eqn:Hh; [done|].
    intros [= <-]. by eapply Hhit.
  - destruct (stop_price od), (price od); try done.
    destruct (trigger_hit _ _ _ _ _ _) as [[]|] eqn:Hh; try done.
    intros [= <-]. by eapply Hhit.
  - destruct (take_profit_price od); try done.
    destruct (trigger_hit _ _ _ _ _ _) eqn:Hh; [done|].
    intros [= <-]. by eapply Hhit.
Qed.

Lemma scan_triggers_raise ltp bid ask od : forall pending,
  od ∈ pending -> scan_one ltp bid ask od = Raise TypeError ->
  (scan_triggers ltp bid ask pending).2 = Raise TypeError
  /\ od ∈ (scan_triggers ltp bid ask pending).1.
Proof.
  induction pending as [|x rest IH]; intros Hin Hod.
  { by apply elem_of_nil in Hin. }
  cbn [scan_triggers].
  destruct (scan_one ltp bid ask x) as [[x1 hit]|e] eqn:Hx.
  - apply elem_of_cons in Hin as [->|Hin]; [congruence|].
    destruct (IH Hin Hod) as [Hr Hp].
    destruct (scan_triggers ltp bid ask rest) as [rest1 r]. cbn [fst snd] in *.
    rewrite Hr. split; [done|by right].
  - apply scan_one_raise in Hx as ->. done.
Qed.

Lemma triggers_of_default st sym sym' :
  triggers_of (set_triggers st (dict_default sym [] (triggers st))) sym'
  = triggers_of st sym'.
Proof.
  unfold triggers_of, dict_default. cbn [triggers set_triggers].
  destruct (dict_get sym (triggers st)) eqn:Hget; [done|].
  induction (triggers st) as [|[k v] d IH]; cbn [dict_get app] in *.
  - by case_decide.
  - case_decide; [done|]. case_decide; [done|]. by apply IH.
Qed.
End NullStop.

(** X13.  A pending stop order without a stop price makes
    [process_triggers] raise [TypeError] as soon as a price to compare
    with exists (a last trade price, or the best ask for a buy, the best
    bid for a sell); no order is activated, the books, trades, index and
    id counter are as before, and the order is still pending. *)
Theorem process_triggers_null_stop (st : MatchingEngine) (sym now : string)
    (book : OrderBook) (od : Order) :
  dict_get sym (books st) = Some book ->
  od ∈ triggers_of st sym ->
  type od = stop -> stop_price od = None ->
  match side od with
  | buy => is_Some (last_trade_price book) \/ is_Some (best_prices book).2
  | sell => is_Some (last_trade_price book) \/ is_Some (best_prices book).1
  end ->
  let r := process_triggers st sym now in
  r.2 = Raise TypeError
  /\ od ∈ triggers_of r.1 sym
  /\ books r.1 = books st
  /\ recent_trades r.1 = recent_trades st
  /\ order_symbol_index r.1 = order_symbol_index st
  /\ id_counter r.1 = id_counter st.
Proof.
  intros Hget Hin Hty Hsp Hprices. cbn zeta. unfold process_triggers.
  rewrite Hget. destruct (best_prices book) as [bid ask]. cbn [fst snd] in *.
  rewrite triggers_of_default.
  assert (Hone : scan_one (last_trade_price book) bid ask od = Raise TypeError).
  { unfold scan_one, trigger_hit. rewrite Hty, Hsp.
    destruct (side od), (last_trade_price book), ask, bid; cbn;
      try done; by destruct Hprices as [[]|[]]. }
  destruct (scan_triggers_raise _ _ _ od _ Hin Hone) as [Hr Hp].
  destruct (scan_triggers _ _ _ _) as [pending r]. cbn [fst snd] in *.
  subst r. cbn [fst snd]. split_and!; try done.
  unfold triggers_of. cbn [triggers set_triggers].
  by rewrite dict_get_set_same.
Qed.

(** The theorem at the engine with an ask at 100 and a pending buy stop
    without a stop price. *)
Lemma process_triggers_null_stop_witness :
  null_stop_order ∈ triggers_of engine_null_stop "BTC-USD"
  /\ (process_triggers engine_null_stop "BTC-USD" test_now).2
     = Raise TypeError
  /\ null_stop_order
     ∈ triggers_of (process_triggers engine_null_stop "BTC-USD" test_now).1
         "BTC-USD".
Proof.
  assert (Hget : dict_get "BTC-USD" (books engine_null_stop)
                 = Some (book_of engine_null_stop "BTC-USD"))
    by (by vm_compute).
  assert (Hin : null_stop_order ∈ triggers_of engine_null_stop "BTC-USD").
  { apply (bool_decide_unpack _). by vm_compute. }
  assert (Hty : type null_stop_order = stop) by reflexivity.
  assert (Hsp : stop_price null_stop_order = None) by reflexivity.
  assert (Hprices :
            match side null_stop_order with
            | buy =>
                is_Some (last_trade_price (book_of engine_null_stop "BTC-USD"))
                \/ is_Some (best_prices
                              (book_of engine_null_stop "BTC-USD")).2
            | sell =>
                is_Some (last_trade_price (book_of engine_null_stop "BTC-USD"))
                \/ is_Some (best_prices
                              (book_of engine_null_stop "BTC-USD")).1
            end).
  { unfold null_stop_order at 1. cbn [side]. right. exists (dec 100).
    vm_compute. reflexivity. }
  destruct (process_triggers_null_stop engine_null_stop "BTC-USD" test_now
              _ null_stop_order Hget Hin Hty Hsp Hprices)
    as (Hraise & Hstill & _).
  split; [exact Hin|]. split; [exact Hraise|exact Hstill].
Defined.

(** * Order and trade ids *)

Section IdCounter.
Implicit Types (st : MatchingEngine) (od : Order).

Lemma ensure_book_counter st sym :
  id_counter (_ensure_book st sym) = id_counter st.
Proof. unfold _ensure_book. by destruct (dict_get sym (books st)). Qed.

Lemma record_trades_counter sym now raw : forall st,
  id_counter (_record_trades st sym now raw).1
  = (id_counter st + length raw)%nat.
Proof.
  induction raw as [|[[[maker taker] p] qty] rest IH]; intros st;
    cbn [_record_trades]; [cbn; lia|].
  destruct (_fees st p qty) as [mfee tfee].
  match goal with
  | |- context [_record_trades ?s sym now rest] =>
      specialize (IH s); destruct (_record_trades s sym now rest)
        as [st2 trades]
  end.
  cbn [fst snd length] in *. rewrite IH. cbn. lia.
Qed.

Lemma record_trades_ids sym now raw : forall st,
  trade_id <$> (_record_trades st sym now raw).2
  = (fun i => next_id "tr" (id_counter st + i)) <$> seq 0 (length raw).
Proof.
  induction raw as [|[[[maker taker] p] qty] rest IH]; intros st;
    cbn [_record_trades]; [done|].
  destruct (_fees st p qty) as [mfee tfee].
  match goal with
  | |- context [_record_trades ?s1 sym now rest] =>
      specialize (IH s1); destruct (_record_trades s1 sym now rest)
        as [st2 trades]
  end.
  cbn [fst snd length seq] in *. rewrite !fmap_cons, IH.
  rewrite Nat.add_0_r. f_equal. rewrite <- seq_shift, <- list_fmap_compose.
  apply list_fmap_ext. intros _ i _. cbn. f_equal. lia.
Qed.

(** What [submit_order] does to the id counter, whatever the request and
    whether or not the call raises. *)
Lemma submit_order_counter st req now :
  let r := submit_order st req now in
  (id_counter st < id_counter r.1)%nat
  /\ forall o trades,
       r.2 = Ok (o, trades) ->
       order_id o = next_id "ord" (id_counter st)
       /\ id_counter r.1 = (S (id_counter st) + length trades)%nat
       /\ trade_id <$> trades
          = (fun i => next_id "tr" (S (id_counter st) + i))
              <$> seq 0 (length trades).
Proof.
  cbn zeta. unfold submit_order.
  set (sym := req_symbol req). set (st0 := _ensure_book st sym).
  assert (Hc0 : id_counter st0 = id_counter st) by apply ensure_book_counter.
  rewrite Hc0.
  set (st1 := set_id_counter st0 (S (id_counter st))).
  set (order := mkOrder _ _ _ _ _ _ _ _ _ _ _ _).
  destruct (dict_get sym (books st1)) as [book|]; [|cbn; split; [lia|done]].
  destruct (is_trigger_type (type order)).
  { cbn. split; [lia|]. intros o trades [= <- <-]. cbn. split_and!; [done|lia|done]. }
  destruct (_ && negb _).
  { cbn. split; [lia|]. intros o trades [= <- <-]. cbn. split_and!; [done|lia|done]. }
  destruct (match_effects book order) as (_ & Hinc & _).
  destruct (match_ book order) as [[book1 order1] raw]. cbn [fst snd] in *.
  pose proof (record_trades_counter sym now raw (put_book st1 sym book1))
    as Hcounter.
  pose proof (record_trades_fields sym now raw (put_book st1 sym book1))
    as Hfields.
  pose proof (record_trades_ids sym now raw (put_book st1 sym book1))
    as Hids.
  change (id_counter (put_book st1 sym book1)) with (S (id_counter st))
    in Hids.
  apply Forall2_length in Hfields. unfold RawTrade in *.
  destruct (_record_trades (put_book st1 sym book1) sym now raw)
    as [st3 trades].
  cbn [fst snd] in *. change (id_counter (put_book st1 sym book1))
    with (S (id_counter st)) in Hcounter.
  assert (Hid : order_id order1 = next_id "ord" (id_counter st))
    by by rewrite Hinc.
  destruct (_ && _).
  - destruct (add_limit book1 order1) as [book2|e].
    + cbn. split; [lia|]. intros o ts [= <- <-].
      rewrite Hfields. split_and!; [done|lia|done].
    + cbn. split; [lia|done].
  - cbn. split; [lia|]. intros o ts [= <- <-].
    rewrite Hfields. split_and!; [done|lia|done].
Qed.

Lemma submit_activated_counter st sym od now :
  (id_counter st <= id_counter (_submit_activated st sym od now).1)%nat.
Proof.
  unfold _submit_activated.
  destruct (dict_get sym (books st)) as [book|]; [|done].
  destruct (match_ book od) as [[book1 od1] raw].
  pose proof (record_trades_counter sym now raw (put_book st sym book1))
    as Hcounter.
  destruct (_record_trades (put_book st sym book1) sym now raw)
    as [st2 trades].
  cbn [fst snd] in *. change (id_counter (put_book st sym book1))
    with (id_counter st) in Hcounter.
  destruct (_ && _); [|cbn; lia].
  destruct (add_limit book1 od1); cbn; lia.
Qed.

Lemma activate_all_counter sym now acts : forall st,
  (id_counter st <= id_counter (activate_all st sym acts now).1)%nat.
Proof.
  induction acts as [|od acts IH]; intros st; cbn [activate_all]; [done|].
  unfold activate_one.
  match goal with
  | |- context [_submit_activated ?s sym ?o now] =>
      pose proof (submit_activated_counter s sym o now) as Hone;
      destruct (_submit_activated s sym o now) as [st1 [[]|e]]
  end; cbn [fst snd] in *.
  - specialize (IH st1). cbn in Hone. lia.
  - done.
Qed.

Lemma process_triggers_counter st sym now :
  (id_counter st <= id_counter (process_triggers st sym now).1)%nat.
Proof.
  unfold process_triggers.
  destruct (dict_get sym (books st)) as [book|]; [|done].
  destruct (best_prices book) as [bid ask].
  destruct (scan_triggers _ _ _ _) as [pending [acts|e]]; [|done].
  match goal with
  | |- context [activate_all ?s sym acts now] =>
      pose proof (activate_all_counter sym now acts s) as Hall
  end.
  exact Hall.
Qed.

Lemma cancel_order_counter st oid :
  id_counter (cancel_order st oid).1 = id_counter st.
Proof.
  unfold cancel_order.
  assert (Hscan : id_counter (let '(tg, r) :=
                                cancel_trigger_scan oid (triggers st) in
                              (set_triggers st tg, Ok r)).1 = id_counter st).
  { by destruct (cancel_trigger_scan oid (triggers st)). }
  destruct (order_symbol_index st !! oid) as [[|c sym]|]; [done| |done].
  destruct (dict_get _ (books st)) as [book|]; [|done].
  by destruct (remove_order book oid) as [book1 [removed|]].
Qed.

Lemma load_orders_counter sym orders : forall st,
  id_counter (load_orders st sym orders) = id_counter st.
Proof.
  induction orders as [|od orders IH]; intros st; cbn [load_orders]; [done|].
  rewrite IH. destruct (_ && _).
  - destruct (dict_get sym (books st)) as [book|]; [|done].
    by destruct (add_limit book _).
  - by destruct (is_trigger_type _).
Qed.

Lemma load_open_orders_counter saved : forall st,
  id_counter (load_open_orders st saved) = id_counter st.
Proof.
  induction saved as [|[sym orders] saved IH]; intros st; [done|].
  cbn [load_open_orders].
  by rewrite IH, load_orders_counter, ensure_book_counter.
Qed.

Lemma load_trades_counter sym trs : forall st,
  id_counter (load_trades st sym trs) = id_counter st.
Proof.
  induction trs as [|tr trs IH]; intros st; [done|]. cbn [load_trades].
  by rewrite IH.
Qed.

Lemma load_state_counter st file :
  id_counter (load_state st file) = id_counter st.
Proof.
  unfold load_state.
  generalize (load_open_orders_counter
                (open_orders (persistence_load_state file)) st).
  generalize (load_open_orders st (open_orders (persistence_load_state file))).
  intros s <-.
  induction (snap_recent_trades (persistence_load_state file))
    as [|[sym trs] saved IH] in s |- *; [done|].
  cbn [load_recent_trades]. by rewrite IH, load_trades_counter.
Qed.

Lemma engine_steps_counter st st' :
  engine_steps st st' -> (id_counter st <= id_counter st')%nat.
Proof.
  induction 1 as [st|st st' file _ IH|st st' req now _ IH|st st' oid _ IH
                  |st st' sym now _ IH].
  - done.
  - by rewrite load_state_counter.
  - destruct (submit_order_counter st' req now) as [Hlt _]. cbn zeta in Hlt.
    lia.
  - by rewrite cancel_order_counter.
  - pose proof (process_triggers_counter st' sym now). lia.
Qed.
End IdCounter.

(** X15.  Ids are not minted twice: the order accepted by a submit and
    the order accepted by a later submit, after any operations of the
    engine in between, have different ids, and so have all their
    trades. *)
Theorem order_ids_never_repeat (st st' : MatchingEngine)
    (req req' : OrderRequest) (now now' : string)
    (o o' : Order) (trades trades' : list Trade) :
  (submit_order st req now).2 = Ok (o, trades) ->
  engine_steps (submit_order st req now).1 st' ->
  (submit_order st' req' now').2 = Ok (o', trades') ->
  order_id o <> order_id o'
  /\ NoDup (trade_id <$> trades ++ trades')
  /\ (id_counter st < id_counter st')%nat.
Proof.
  intros Hsub Hsteps Hsub'.
  destruct (submit_order_counter st req now) as [Hlt Hids].
  destruct (Hids o trades Hsub) as (Hid & Hcounter & Htrades).
  destruct (submit_order_counter st' req' now') as [_ Hids'].
  destruct (Hids' o' trades' Hsub') as (Hid' & _ & Htrades').
  apply engine_steps_counter in Hsteps. cbn zeta in *.
  split_and!; [|rewrite fmap_app, Htrades, Htrades'|lia].
  - rewrite Hid, Hid'. intros Heq%next_id_inj. lia.
  - apply NoDup_app. split_and!.
    + apply NoDup_fmap_2; [|apply NoDup_seq].
      intros i j Hij. apply next_id_inj in Hij. lia.
    + intros x (i & -> & Hi)%list_elem_of_fmap (j & Hj & _)%list_elem_of_fmap.
      apply next_id_inj in Hj. apply elem_of_seq in Hi. lia.
    + apply NoDup_fmap_2; [|apply NoDup_seq].
      intros i j Hij. apply next_id_inj in Hij. lia.
Qed.

(** The theorem at two submits in a row on a fresh engine. *)
Lemma order_ids_never_repeat_witness :
  let r1 := submit_order new_engine sell_one_at_100 test_now in
  let r2 := submit_order r1.1 buy_one_market test_now in
  exists o o' trades trades',
    r1.2 = Ok (o, trades) /\ r2.2 = Ok (o', trades')
    /\ order_id o <> order_id o'
    /\ NoDup (trade_id <$> trades ++ trades').
Proof.
  cbn zeta.
  destruct (submit_order new_engine sell_one_at_100 test_now).2
    as [[o trades]|e] eqn:H1; [|by vm_compute in H1].
  destruct (submit_order (submit_order new_engine sell_one_at_100 test_now).1
              buy_one_market test_now).2
    as [[o' trades']|e] eqn:H2; [|by vm_compute in H2].
  destruct (order_ids_never_repeat new_engine _ sell_one_at_100 buy_one_market
              test_now test_now o o' trades trades' H1 (steps_refl _) H2)
    as (Hne & Hnd & _).
  exists o, o', trades, trades'.
  split; [reflexivity|]. split; [reflexivity|]. split; [exact Hne|exact Hnd].
Defined.

(** * Rounding and fees *)

Section Rounding.
Implicit Types (n den d : Z).




End Rounding.



(** * Save and load of the books *)

Section SaveLoadRoundTrip.
Implicit Types (b book : OrderBook) (od o : Order) (sd pre : SortedDict)
  (l : PriceLevel) (q : list Order) (st : MatchingEngine)
  (bs : dict OrderBook).

Lemma sd_set_app_last pre l :
  (forall l', l' ∈ pre -> pl_price l' < pl_price l) ->
  sd_set l pre = pre ++ [l].
Proof.
  induction pre as [|x pre IH]; intros Hpre; cbn [sd_set app]; [done|].
  assert (pl_price x < pl_price l) by (apply Hpre; left).
  rewrite !decide_False by lia. f_equal. apply IH.
  intros l' Hl'. apply Hpre. by right.
Qed.

Lemma sd_get_app_last pre l :
  (forall l', l' ∈ pre -> pl_price l' < pl_price l) ->
  sd_get (pl_price l) (pre ++ [l]) = Some l
  /\ sd_get (pl_price l) pre = None.
Proof.
  induction pre as [|x pre IH]; intros Hpre; cbn [sd_get app].
  { by rewrite decide_True. }
  assert (pl_price x < pl_price l) by (apply Hpre; left).
  rewrite !decide_False by lia. apply IH.
  intros l' Hl'. apply Hpre. by right.
Qed.

(** Adding the orders of one level, front to back, to a side whose levels
    are all below: the level is appended. *)
Lemma add_level_tail b s p q : forall q0 pre,
  _get_side_book b s = pre ++ [mkPriceLevel p q0] ->
  (forall l', l' ∈ pre -> pl_price l' < p) ->
  (forall o, o ∈ q -> side o = s /\ price o = Some p) ->
  _get_side_book (foldl add_or_keep b q) s = pre ++ [mkPriceLevel p (q0 ++ q)]
  /\ _get_side_book (foldl add_or_keep b q) (opposite s)
     = _get_side_book b (opposite s).
Proof.
  revert b. induction q as [|o q IH]; intros b q0 pre Hside Hpre Hq;
    cbn [foldl].
  { by rewrite app_nil_r. }
  destruct (Hq o ltac:(left)) as [Hs Hp].
  destruct (add_limit_tail b o p Hp) as (b2 & _ & Hadd & _).
  pose proof (get_side_book_add b o p s Hp b2 Hadd) as Hown.
  pose proof (get_side_book_add b o p (opposite s) Hp b2 Hadd) as Hother.
  rewrite decide_True in Hown by done.
  rewrite decide_False in Hother by (rewrite Hs; by destruct s).
  rewrite Hs, Hside in Hown.
  destruct (sd_get_app_last pre (mkPriceLevel p q0) Hpre) as [Hget _].
  cbn [pl_price] in Hget. rewrite Hget in Hown.
  rewrite sd_alter_app_last in Hown; [|done|].
  2:{ intros l' Hl' ?. specialize (Hpre l' Hl'). lia. }
  cbn [set_queue queue pl_price] in Hown.
  assert (Hb2 : add_or_keep b o = b2) by (unfold add_or_keep; by rewrite Hadd).
  rewrite Hb2.
  destruct (IH b2 (q0 ++ [o]) pre Hown Hpre) as [Hown' Hother'].
  { intros o' Ho'. apply Hq. by right. }
  rewrite Hown', Hother', Hother, <- app_assoc. done.
Qed.

Lemma add_level b s l pre :
  _get_side_book b s = pre ->
  (forall l', l' ∈ pre -> pl_price l' < pl_price l) ->
  queue l <> [] ->
  (forall o, o ∈ queue l -> side o = s /\ price o = Some (pl_price l)) ->
  _get_side_book (foldl add_or_keep b (queue l)) s = pre ++ [l]
  /\ _get_side_book (foldl add_or_keep b (queue l)) (opposite s)
     = _get_side_book b (opposite s).
Proof.
  intros Hside Hpre Hne Hq. destruct l as [p [|o q]]; [done|].
  cbn [queue pl_price foldl] in *.
  destruct (Hq o ltac:(left)) as [Hs Hp].
  destruct (add_limit_tail b o p Hp) as (b2 & _ & Hadd & _).
  pose proof (get_side_book_add b o p s Hp b2 Hadd) as Hown.
  pose proof (get_side_book_add b o p (opposite s) Hp b2 Hadd) as Hother.
  rewrite decide_True in Hown by done.
  rewrite decide_False in Hother by (rewrite Hs; by destruct s).
  rewrite Hs, Hside in Hown.
  destruct (sd_get_app_last pre (mkPriceLevel p []) Hpre) as [_ Hget].
  cbn [pl_price] in Hget. rewrite Hget in Hown.
  rewrite sd_set_app_last in Hown by done.
  rewrite sd_alter_app_last in Hown; [|done|].
  2:{ intros l' Hl' ?. specialize (Hpre l' Hl'). lia. }
  cbn [set_queue queue pl_price app] in Hown.
  assert (Hb2 : add_or_keep b o = b2) by (unfold add_or_keep; by rewrite Hadd).
  rewrite Hb2.
  destruct (add_level_tail b2 s p q [o] pre Hown Hpre) as [Hown' Hother'].
  { intros o' Ho'. apply Hq. by right. }
  by rewrite Hown', Hother', Hother.
Qed.

(** Adding the orders of ascending levels, level by level: the levels
    are appended. *)
Lemma add_levels s v : forall b pre,
  _get_side_book b s = pre ->
  StronglySorted Z.lt (pl_price <$> pre ++ v) ->
  (forall l, l ∈ v -> queue l <> []
             /\ forall o, o ∈ queue l -> side o = s
                                       /\ price o = Some (pl_price l)) ->
  _get_side_book (foldl add_or_keep b (v ≫= queue)) s = pre ++ v
  /\ _get_side_book (foldl add_or_keep b (v ≫= queue)) (opposite s)
     = _get_side_book b (opposite s).
Proof.
  induction v as [|l v IH]; intros b pre Hside Hsorted Hv.
  { by rewrite app_nil_r. }
  rewrite bind_cons, foldl_app.
  destruct (Hv l ltac:(left)) as [Hne Hq].
  assert (Hpre : forall l', l' ∈ pre -> pl_price l' < pl_price l).
  { intros l' Hl'. rewrite fmap_app, fmap_cons in Hsorted.
    apply (StronglySorted_app_1_elem_of _ _ _ _ _ Hsorted);
      [by apply list_elem_of_fmap_2|left]. }
  destruct (add_level b s l pre Hside Hpre Hne Hq) as [Hown Hother].
  destruct (IH (foldl add_or_keep b (queue l)) (pre ++ [l]) Hown) as [Hown' Hother'].
  { by rewrite <- app_assoc. }
  { intros l' Hl'. apply Hv. by right. }
  rewrite Hown', Hother', Hother, <- app_assoc. done.
Qed.

Lemma saved_level_ok sym s l :
  level_ok s l ->
  queue (saved_level sym l) <> []
  /\ forall o, o ∈ queue (saved_level sym l) ->
       side o = s /\ price o = Some (pl_price (saved_level sym l)).
Proof.
  intros [Hne Hq]. cbn [saved_level queue pl_price]. split.
  - by destruct (queue l).
  - intros o (o0 & -> & Ho0)%list_elem_of_fmap.
    destruct (Hq o0 Ho0) as (_ & ? & ? & _). done.
Qed.

Lemma saved_levels_queue sym v :
  (saved_level sym <$> v) ≫= queue = saved_order sym <$> (v ≫= queue).
Proof.
  induction v as [|l v IH]; [done|].
  by rewrite fmap_cons, !bind_cons, fmap_app, IH.
Qed.

(** The book rebuilt from the saved orders of a book has the levels of
    the book. *)
Lemma reload_book sym book :
  book_inv book ->
  let book' := foldl add_or_keep (new_book sym)
                 (saved_order sym <$> resting_orders book) in
  bids book' = saved_level sym <$> bids book
  /\ asks book' = saved_level sym <$> asks book.
Proof.
  intros [Hsorted Hlevels]. cbn zeta. unfold resting_orders.
  rewrite fmap_app, foldl_app, <- !saved_levels_queue.
  assert (Hprices : forall v : list PriceLevel,
            pl_price <$> (saved_level sym <$> v) = pl_price <$> v).
  { intros v. rewrite <- list_fmap_compose. by apply list_fmap_ext. }
  destruct (add_levels buy (saved_level sym <$> bids book) (new_book sym) [])
    as [Hbids Hasks]; [done|..].
  { rewrite app_nil_l, Hprices. apply (Hsorted buy). }
  { intros l (l0 & -> & Hl0)%list_elem_of_fmap.
    apply saved_level_ok, (Hlevels buy), Hl0. }
  destruct (add_levels sell (saved_level sym <$> asks book)
              (foldl add_or_keep (new_book sym)
                 ((saved_level sym <$> bids book) ≫= queue)) [])
    as [Hasks' Hbids']; [done|..].
  { rewrite app_nil_l, Hprices. apply (Hsorted sell). }
  { intros l (l0 & -> & Hl0)%list_elem_of_fmap.
    apply saved_level_ok, (Hlevels sell), Hl0. }
  cbn [_get_side_book opposite app] in *.
  by rewrite Hasks', Hbids', Hbids.
Qed.

Lemma dict_set_set {V : Type} k (v v' : V) (d : dict V) :
  dict_set k v (dict_set k v' d) = dict_set k v d.
Proof.
  induction d as [|[k' w] d IH]; cbn [dict_set].
  - by rewrite decide_True.
  - case_decide; cbn [dict_set]; [by rewrite decide_True|].
    rewrite decide_False by done. by rewrite IH.
Qed.

Lemma dict_set_new {V : Type} k (v : V) (d : dict V) :
  dict_get k d = None -> dict_set k v d = d ++ [(k, v)].
Proof.
  induction d as [|[k' w] d IH]; cbn [dict_get dict_set app]; [done|].
  case_decide; [done|]. intros Hget. by rewrite IH.
Qed.

Lemma dict_set_last {V : Type} k (v v' : V) (d : dict V) :
  dict_get k d = None -> dict_set k v (d ++ [(k, v')]) = d ++ [(k, v)].
Proof.
  induction d as [|[k' w] d IH]; cbn [dict_get dict_set app].
  - intros _. by rewrite decide_True.
  - case_decide; [done|]. intros Hget. by rewrite IH.
Qed.

Lemma dict_get_app_last {V : Type} k k' (v : V) (d : dict V) :
  dict_get k (d ++ [(k', v)])
  = match dict_get k d with
    | Some w => Some w
    | None => if decide (k = k') then Some v else None
    end.
Proof.
  induction d as [|[k0 w] d IH]; cbn [dict_get app]; [done|].
  by destruct (decide (k = k0)).
Qed.

(** The inner loop of [load_state] on the saved orders of a book. *)
Lemma load_orders_resting sym : forall os st book,
  dict_get sym (books st) = Some book ->
  Forall (fun o => type o = limit /\ 0 < remaining o /\ is_Some (price o)) os ->
  books (load_orders st sym (order_to_dict <$> os))
  = dict_set sym (foldl add_or_keep book (saved_order sym <$> os)) (books st).
Proof.
  induction os as [|o os IH]; intros st book Hget Hos.
  { cbn. by rewrite dict_set_get_id. }
  apply Forall_cons in Hos as [(Hty & Hrem & [p Hp]) Hos].
  rewrite !fmap_cons. cbn [load_orders foldl].
  fold (saved_order sym o).
  assert (Hty' : type (saved_order sym o) = limit) by done.
  assert (Hrem' : 0 < remaining (saved_order sym o)) by done.
  assert (Hp' : price (saved_order sym o) = Some p) by done.
  rewrite !bool_decide_eq_true_2 by (try done; by rewrite Hp').
  cbn [andb]. rewrite Hget.
  destruct (add_limit_tail book (saved_order sym o) p Hp')
    as (book1 & _ & Hadd & _).
  rewrite Hadd.
  assert (Hb1 : add_or_keep book (saved_order sym o) = book1)
    by (unfold add_or_keep; by rewrite Hadd).
  rewrite Hb1.
  rewrite (IH _ book1); [|cbn; apply dict_get_set_same|done].
  cbn. apply dict_set_set.
Qed.

Lemma book_inv_loadable book :
  book_inv book ->
  Forall (fun o => type o = limit /\ 0 < remaining o /\ is_Some (price o))
    (resting_orders book).
Proof.
  intros [_ Hlevels]. apply Forall_forall.
  intros o [s (l & Ho & Hl)%list_elem_of_bind]%elem_of_resting_side.
  destruct (Hlevels s l Hl) as [_ Hq].
  destruct (Hq o Ho) as (? & _ & ? & Hact).
  apply bool_decide_eq_true_1 in Hact. by split_and!.
Qed.

(** The outer loop of [load_state] on the snapshot of a dictionary of
    books whose symbols are new to the engine. *)
Lemma load_open_orders_books : forall bs st,
  NoDup bs.*1 ->
  (forall sym, sym ∈ bs.*1 -> dict_get sym (books st) = None) ->
  books_all book_inv bs ->
  books (load_open_orders st
           ((fun '(sym, book) =>
               (sym, order_to_dict <$> resting_orders book)) <$> bs))
  = books st
    ++ ((fun '(sym, book) =>
           (sym, foldl add_or_keep (new_book sym)
                   (saved_order sym <$> resting_orders book))) <$> bs).
Proof.
  induction bs as [|[sym book] bs IH]; intros st Hnd Hnew Hinv.
  { cbn. by rewrite app_nil_r. }
  rewrite !fmap_cons. cbn [load_open_orders fst].
  apply NoDup_cons in Hnd as [Hnotin Hnd]. cbn [fst] in Hnotin.
  assert (Hnone : dict_get sym (books st) = None) by (apply Hnew; left).
  assert (Hensure : books (_ensure_book st sym)
                    = books st ++ [(sym, new_book sym)]).
  { unfold _ensure_book. rewrite Hnone. cbn. by apply dict_set_new. }
  assert (Hbooks : books (load_orders (_ensure_book st sym) sym
                            (order_to_dict <$> resting_orders book))
                   = books st
                     ++ [(sym, foldl add_or_keep (new_book sym)
                                 (saved_order sym <$> resting_orders book))]).
  { rewrite (load_orders_resting sym _ _ (new_book sym)).
    - rewrite Hensure. by apply dict_set_last.
    - rewrite ensure_book_get. unfold book_of. by rewrite Hnone.
    - apply book_inv_loadable, (Hinv sym). left. }
  rewrite IH; [|done| |].
  - rewrite Hbooks, <- app_assoc. done.
  - intros sym' Hsym'. rewrite Hbooks, dict_get_app_last.
    rewrite Hnew by by right.
    rewrite decide_False; [done|]. intros ->. done.
  - intros sym' book' Hin. apply (Hinv sym'). by right.
Qed.
End SaveLoadRoundTrip.

Section SavedBooks.
Implicit Types (b book : OrderBook) (o : Order) (st : MatchingEngine).

Lemma dict_get_NoDup {V : Type} (d : dict V) k v :
  NoDup d.*1 -> (k, v) ∈ d -> dict_get k d = Some v.
Proof.
  induction d as [|[k' w] d IH]; cbn [dict_get].
  { intros _ Hin. by apply elem_of_nil in Hin. }
  rewrite fmap_cons, NoDup_cons. intros [Hnotin Hnd] Hin.
  apply elem_of_cons in Hin as [[= -> ->]|Hin].
  - by rewrite decide_True.
  - rewrite decide_False; [by apply IH|]. intros ->. apply Hnotin.
    by apply (list_elem_of_fmap_2 fst _ (k', v)).
Qed.

Lemma reload_last_trade_price os : forall b,
  last_trade_price (foldl add_or_keep b os)
  = last_trade_price b.
Proof.
  induction os as [|o os IH]; intros b; cbn [foldl]; [done|].
  rewrite IH. unfold add_or_keep, add_limit. destruct (price o); [|done].
  by destruct b, (side o).
Qed.

Lemma saved_order_same sym o :
  symbol o = sym -> stop_price o <> Some 0 -> take_profit_price o <> Some 0 ->
  saved_order sym o = o.
Proof.
  intros <- Hsp Htp. destruct o as [? ? ? ? ? ? ? ? ? sp tp ?].
  cbn in *. unfold saved_order, order_of_dict, order_to_dict. cbn.
  f_equal.
  - by destruct sp as [[]|].
  - by destruct tp as [[]|].
Qed.
End SavedBooks.

(** X16.  Save and load round trip of the books: when [save_state]
    succeeds on a reachable state, loading the file it wrote into an
    engine without books gives the same symbols in the same order and,
    for each symbol, a book with the same price levels and queues and
    without a last trade price.  An order comes back with all its
    fields, but for a zero stop or take-profit price, which comes back as
    [None]. *)
Theorem save_load_books (st fresh : MatchingEngine)
    (file file' : option Snapshot) :
  reachable st -> books fresh = [] ->
  save_state st file = (file', Ok tt) ->
  let loaded := load_state fresh file' in
  (books loaded).*1 = (books st).*1
  /\ (forall sym book,
        (sym, book) ∈ books st ->
        exists book',
          dict_get sym (books loaded) = Some book'
          /\ bids book' = saved_level sym <$> bids book
          /\ asks book' = saved_level sym <$> asks book
          /\ last_trade_price book' = None)
  /\ (forall sym o,
        order_id (saved_order sym o) = order_id o
        /\ side (saved_order sym o) = side o
        /\ type (saved_order sym o) = type o
        /\ quantity (saved_order sym o) = quantity o
        /\ remaining (saved_order sym o) = remaining o
        /\ price (saved_order sym o) = price o
        /\ timestamp (saved_order sym o) = timestamp o
        /\ (symbol o = sym -> stop_price o <> Some 0 ->
            take_profit_price o <> Some 0 -> saved_order sym o = o)).
Proof.
  intros Hreach Hfresh Hsave.
  assert (Hfile : file' = Some (build_snapshot st)).
  { revert Hsave. unfold save_state, persistence_save_state.
    destruct (forallb _ _); [by intros [= <-]|done]. }
  subst file'. intros loaded.
  pose proof (reachable_books_keys st Hreach) as Hkeys.
  assert (Hinv : books_all book_inv (books st)).
  { apply reachable_books_all; [apply book_inv_new|apply book_inv_match
      |apply rest_of_match_add; [apply book_inv_match|apply book_inv_add]
      |apply book_inv_remove|apply book_inv_add|done]. }
  assert (Hbooks : books loaded
                   = (fun '(sym, book) =>
                        (sym, foldl add_or_keep
                                (new_book sym)
                                (saved_order sym <$> resting_orders book)))
                       <$> books st).
  { unfold loaded.
    change (load_state fresh (Some (build_snapshot st)))
      with (load_recent_trades
              (load_open_orders fresh (open_orders (build_snapshot st)))
              (snap_recent_trades (build_snapshot st))).
    destruct (load_recent_trades_frame
                (snap_recent_trades (build_snapshot st))
                (load_open_orders fresh (open_orders (build_snapshot st))))
      as [-> _].
    cbn [build_snapshot open_orders].
    rewrite load_open_orders_books; [by rewrite Hfresh|done| |done].
    intros sym _. by rewrite Hfresh. }
  assert (Hkeys' : (books loaded).*1 = (books st).*1).
  { rewrite Hbooks, <- list_fmap_compose. apply list_fmap_ext.
    by intros _ [sym book] _. }
  split_and!; [done| |].
  - intros sym book Hin.
    destruct (reload_book sym book (Hinv sym book Hin)) as [Hbids Hasks].
    eexists. split_and!; [|exact Hbids|exact Hasks|].
    + apply dict_get_NoDup; [by rewrite Hkeys'|].
      rewrite Hbooks. apply list_elem_of_fmap. by exists (sym, book).
    + by rewrite reload_last_trade_price.
  - intros sym o. split_and!; try done. apply saved_order_same.
Qed.

(** The theorem at the engine with a bid at 90 and an ask at 100 and a
    fresh engine. *)
Lemma save_load_books_witness :
  reachable engine_take_profit
  /\ save_state engine_take_profit None
     = (Some (build_snapshot engine_take_profit), Ok tt)
  /\ (books (load_state new_engine
               (Some (build_snapshot engine_take_profit)))).*1
     = ["BTC-USD"%string].
Proof.
  assert (Hreach : reachable engine_take_profit).
  { do 3 apply reach_submit.
    apply (reach_new (- DEC_UNIT) (25 * DEC_UNIT / 10)). }
  assert (Hfresh : books new_engine = []) by reflexivity.
  assert (Hsave : save_state engine_take_profit None
                  = (Some (build_snapshot engine_take_profit), Ok tt))
    by (by vm_compute).
  destruct (save_load_books engine_take_profit new_engine None _ Hreach Hfresh
              Hsave) as (Hkeys & _).
  split; [exact Hreach|]. split; [exact Hsave|].
  refine (eq_trans Hkeys _). by vm_compute.
Defined.

(** * The ids of the live orders *)

Section MultisetFacts.
Context {A : Type}.
Implicit Types (l k : list A).

Lemma submseteq_NoDup l k : l ⊆+ k -> NoDup k -> NoDup l.
Proof.
  intros (l' & Hsub & Hperm)%submseteq_sublist_l Hnd.
  rewrite <- Hperm in Hnd. by eapply sublist_NoDup.
Qed.
End MultisetFacts.

Section DictBind.
Context {V B : Type}.
Implicit Types (d : dict V) (F : string * V -> list B).

Lemma dict_set_split k v v' d :
  dict_get k d = Some v ->
  exists pre post,
    d = pre ++ (k, v) :: post /\ dict_set k v' d = pre ++ (k, v') :: post.
Proof.
  induction d as [|[k0 w] d IH]; cbn [dict_get dict_set]; [done|].
  case_decide as Hk.
  - intros [= ->]. subst k0. by exists [], d.
  - intros Hget. destruct (IH Hget) as (pre & post & -> & ->).
    by exists ((k0, w) :: pre), post.
Qed.

(** Storing a value whose image is smaller. *)
Lemma dict_set_bind_sub F k v v' d :
  dict_get k d = Some v -> F (k, v') ⊆+ F (k, v) ->
  dict_set k v' d ≫= F ⊆+ d ≫= F.
Proof.
  intros Hget Hsub. destruct (dict_set_split k v v' d Hget)
    as (pre & post & -> & ->).
  rewrite !bind_app, !bind_cons.
  by apply submseteq_skips_l, submseteq_skips_r.
Qed.

(** Storing a value whose image has grown by [extra]. *)
Lemma dict_set_bind_perm F k v v' d extra :
  dict_get k d = Some v -> F (k, v') ≡ₚ F (k, v) ++ extra ->
  dict_set k v' d ≫= F ≡ₚ (d ≫= F) ++ extra.
Proof.
  intros Hget Hperm. destruct (dict_set_split k v v' d Hget)
    as (pre & post & -> & ->).
  rewrite !bind_app, !bind_cons, Hperm, <- !app_assoc.
  apply Permutation_app_head, Permutation_app_head, Permutation_app_comm.
Qed.

(** Storing a value whose image has shrunk by [extra]. *)
Lemma dict_set_bind_perm_rev F k v v' d extra :
  dict_get k d = Some v -> F (k, v) ≡ₚ F (k, v') ++ extra ->
  d ≫= F ≡ₚ (dict_set k v' d ≫= F) ++ extra.
Proof.
  intros Hget Hperm. destruct (dict_set_split k v v' d Hget)
    as (pre & post & -> & ->).
  rewrite !bind_app, !bind_cons, Hperm, <- !app_assoc.
  apply Permutation_app_head, Permutation_app_head, Permutation_app_comm.
Qed.

Lemma dict_set_bind_new F k v' d :
  dict_get k d = None -> dict_set k v' d ≫= F = (d ≫= F) ++ F (k, v').
Proof.
  intros Hget. rewrite dict_set_new by done.
  rewrite bind_app, bind_cons. cbn. by rewrite app_nil_r.
Qed.
End DictBind.

Section BookIds.
Implicit Types (b book : OrderBook) (od o incoming : Order) (sd : SortedDict)
  (v : list PriceLevel) (l : PriceLevel) (q : list Order)
  (ts : list RawTrade).

Lemma filled_ids_app ts1 ts2 :
  filled_ids (ts1 ++ ts2) = filled_ids ts1 ++ filled_ids ts2.
Proof. apply omap_app. Qed.

(** The makers that a level queue loses are those filled completely. *)
Lemma walk_queue_split p q : forall incoming,
  let '(ts, q', _) := walk_queue p q incoming in
  order_id <$> q = filled_ids ts ++ (order_id <$> q').
Proof.
  induction q as [|maker rest IH]; intros incoming.
  { done. }
  rewrite walk_queue_cons. case_bool_decide; [|done].
  case_decide as Hfilled.
  - specialize (IH (set_remaining incoming
                      (remaining incoming
                       - remaining incoming `min` remaining maker))).
    destruct (walk_queue p rest _) as [[ts q'] incoming'].
    rewrite fmap_cons, IH. unfold filled_ids at 2, fill_of.
    cbn [omap list_omap remaining set_remaining order_id].
    by rewrite decide_True by done.
  - unfold filled_ids, fill_of.
    cbn [omap list_omap remaining set_remaining order_id].
    by rewrite decide_False by done.
Qed.

Lemma walk_levels_split v : forall incoming,
  let '(ts, v', _) := walk_levels v incoming in
  order_id <$> priority_queue v
  = filled_ids ts ++ (order_id <$> priority_queue v').
Proof.
  unfold priority_queue.
  induction v as [|level rest IH]; intros incoming; cbn [walk_levels].
  { done. }
  destruct (_ && _); [|done].
  pose proof (walk_queue_split (pl_price level) (queue level) incoming) as Hq.
  destruct (walk_queue _ _ incoming) as [[ts q'] incoming1].
  rewrite bind_cons, fmap_app, Hq.
  destruct q' as [|o' q'].
  - specialize (IH incoming1).
    destruct (walk_levels rest incoming1) as [[ts2 rest'] incoming2].
    by rewrite IH, filled_ids_app, fmap_nil, app_nil_r, app_assoc.
  - by rewrite bind_cons, fmap_app, app_assoc.
Qed.

Lemma book_ids_view s b :
  book_ids b ≡ₚ (order_id <$> (_get_side_book b s ≫= queue))
                ++ (order_id <$> priority_queue (opp_view s b)).
Proof.
  unfold book_ids, resting_orders, priority_queue. rewrite fmap_app.
  destruct s; cbn [_get_side_book opp_view]; [done|].
  rewrite (bind_Permutation queue (reverse (bids b)) (bids b))
    by apply reverse_Permutation.
  apply Permutation_app_comm.
Qed.

(** [match] takes from the book the makers it fills completely, and no
    other order. *)
Lemma match_book_ids b incoming :
  sd_sorted (_get_side_book b (opposite (side incoming))) ->
  book_ids b
  ≡ₚ filled_ids (match_ b incoming).2 ++ book_ids (match_ b incoming).1.1.
Proof.
  intros Hsorted.
  rewrite (book_ids_view (side incoming) b).
  rewrite (book_ids_view (side incoming) (match_ b incoming).1.1).
  destruct (match_effects b incoming) as (Hown & _ & _). rewrite Hown.
  rewrite match_walk by by apply opp_view_NoDup.
  pose proof (walk_levels_split (opp_view (side incoming) b) incoming)
    as Hsplit.
  destruct (walk_levels (opp_view (side incoming) b) incoming)
    as [[ts v'] incoming'].
  cbn [fst snd]. rewrite opp_view_with, Hsplit.
  rewrite !app_assoc. apply Permutation_app_tail, Permutation_app_comm.
Qed.

Lemma match_book_ids_sub b incoming :
  sd_sorted (_get_side_book b (opposite (side incoming))) ->
  book_ids (match_ b incoming).1.1 ⊆+ book_ids b.
Proof.
  intros Hsorted. rewrite (match_book_ids b incoming Hsorted).
  apply submseteq_inserts_l. done.
Qed.

Lemma sd_set_queue_perm p sd :
  sd_set (mkPriceLevel p []) sd ≫= queue = sd ≫= queue
  \/ exists l, sd_get p sd = Some l.
Proof.
  induction sd as [|l sd IH]; cbn [sd_set sd_get pl_price]; [by left|].
  destruct (decide (p < pl_price l)); [by left|].
  destruct (decide (p = pl_price l)) as [->|Hne].
  { right. exists l. by rewrite decide_True. }
  rewrite decide_False by done.
  destruct IH as [IH|?]; [left|by right].
  by rewrite !bind_cons, IH.
Qed.

Lemma sd_alter_append_queue od p sd l0 :
  sd_get p sd = Some l0 ->
  sd_alter (fun l => set_queue (queue l ++ [od]) l) p sd ≫= queue
  ≡ₚ (sd ≫= queue) ++ [od].
Proof.
  induction sd as [|l sd IH]; cbn [sd_get sd_alter]; [done|].
  case_decide.
  - intros _. rewrite !bind_cons. cbn [queue set_queue].
    rewrite <- !app_assoc. apply Permutation_app_head, Permutation_app_comm.
  - intros Hget. rewrite !bind_cons, IH by done. by rewrite app_assoc.
Qed.

(** [add_limit] adds the order, and nothing else, to the book. *)
Lemma add_limit_book_ids b od book2 :
  add_limit b od = Ok book2 ->
  book_ids book2 ≡ₚ book_ids b ++ [order_id od].
Proof.
  intros Hadd. destruct (price od) as [p|] eqn:Hp.
  2:{ unfold add_limit in Hadd. by rewrite Hp in Hadd. }
  pose proof (get_side_book_add b od p (side od) Hp book2 Hadd) as Hown.
  pose proof (get_side_book_add b od p (opposite (side od)) Hp book2 Hadd)
    as Hother.
  rewrite decide_True in Hown by done.
  rewrite decide_False in Hother by by destruct (side od).
  assert (Hq : _get_side_book book2 (side od) ≫= queue
               ≡ₚ (_get_side_book b (side od) ≫= queue) ++ [od]).
  { rewrite Hown.
    destruct (sd_get p (_get_side_book b (side od))) as [l0|] eqn:Hget.
    - by apply (sd_alter_append_queue od p _ l0).
    - rewrite (sd_alter_append_queue od p _ (mkPriceLevel p []))
        by by apply sd_get_set_new.
      destruct (sd_set_queue_perm p (_get_side_book b (side od)))
        as [->|[l Hl]]; [done|congruence]. }
  unfold book_ids, resting_orders.
  destruct (side od); cbn [_get_side_book opposite] in *.
  - rewrite Hother, !fmap_app, Hq, fmap_app. cbn.
    rewrite <- !app_assoc. apply Permutation_app_head, Permutation_app_comm.
  - rewrite Hother, !fmap_app, Hq, fmap_app. cbn. by rewrite app_assoc.
Qed.

Lemma sd_alter_filter_sub (P : Order -> Prop) `{!forall o, Decision (P o)}
    p sd l0 :
  sd_get p sd = Some l0 ->
  sd_alter (set_queue (filter P (queue l0))) p sd ≫= queue ⊆+ sd ≫= queue.
Proof.
  induction sd as [|l sd IH]; cbn [sd_get sd_alter]; [done|].
  case_decide.
  - intros [= ->]. rewrite !bind_cons. cbn [queue set_queue].
    apply submseteq_skips_r, sublist_submseteq, sublist_filter.
  - intros Hget. rewrite !bind_cons. by apply submseteq_skips_l, IH.
Qed.

Lemma sd_del_sub p sd : sd_del p sd ≫= queue ⊆+ sd ≫= queue.
Proof.
  induction sd as [|l sd IH]; cbn [sd_del]; [done|].
  case_decide; rewrite !bind_cons.
  - by apply submseteq_inserts_l.
  - by apply submseteq_skips_l.
Qed.

(** [remove_order] adds no order to the book. *)
Lemma remove_order_book_ids b oid :
  book_ids (remove_order b oid).1 ⊆+ book_ids b.
Proof.
  unfold remove_order.
  destruct (order_index b !! oid) as [[s p]|]; [|done].
  destruct (sd_get p (_get_side_book b s)) as [level|] eqn:Hget.
  2:{ by destruct b. }
  pose proof (split_queue_spec oid (queue level) None) as [Hkept _].
  destruct (split_queue oid (queue level) None) as [new_queue removed].
  cbn [fst snd] in *. subst new_queue.
  assert (Hside : forall sd',
            sd' ≫= queue ⊆+ _get_side_book b s ≫= queue ->
            book_ids (set_order_index (set_side_book b s sd')
                        (delete oid (order_index b))) ⊆+ book_ids b).
  { intros sd' Hsd'. unfold book_ids, resting_orders.
    destruct b, s; cbn in *; rewrite !fmap_app.
    - by apply submseteq_skips_r, fmap_submseteq.
    - by apply submseteq_skips_l, fmap_submseteq. }
  pose proof (sd_alter_filter_sub (fun o => order_id o <> oid) p _ level Hget)
    as Halter.
  destruct (filter _ (queue level)) as [|o1 q1] eqn:Hf; apply Hside.
  - etrans; [apply sd_del_sub|done].
  - done.
Qed.
End BookIds.

Section EngineIds.
Implicit Types (b book : OrderBook) (od o : Order) (st : MatchingEngine)
  (lst pending acts : list Order) (tg : dict (list Order)).

Lemma minted_mono st st' id :
  (id_counter st <= id_counter st')%nat -> minted st id -> minted st' id.
Proof. intros Hle (k & Hk & ->). exists k. split; [lia|done]. Qed.

Lemma fresh_id st (ids : list string) :
  Forall (minted st) ids -> next_id "ord" (id_counter st) ∉ ids.
Proof.
  intros Hall Hin. rewrite Forall_forall in Hall.
  destruct (Hall _ Hin) as (k & Hk & Heq). apply next_id_inj in Heq. lia.
Qed.

(** A step that adds only the ids [extra], which are new and minted. *)
Lemma ids_ok_step st st' extra :
  engine_ids st' ⊆+ (engine_ids st ++ extra) ->
  NoDup extra ->
  (forall id, id ∈ extra -> (id ∉ engine_ids st) /\ minted st' id) ->
  (id_counter st <= id_counter st')%nat ->
  ids_ok st -> ids_ok st'.
Proof.
  intros Hsub Hextra Hnew Hle [Hnd Hminted]. split.
  - apply (submseteq_NoDup _ _ Hsub). apply NoDup_app. split_and!; [done| |done].
    intros id Hid Hid'. by destruct (Hnew id Hid').
  - apply Forall_forall. intros id Hid.
    apply (elem_of_submseteq _ _ _ Hid) in Hsub.
    apply elem_of_app in Hsub as [Hold|Hid'].
    + rewrite Forall_forall in Hminted. by apply (minted_mono st), Hminted.
    + by destruct (Hnew id Hid').
Qed.

Lemma engine_ids_frame st st' :
  books st' = books st -> triggers st' = triggers st ->
  engine_ids st' = engine_ids st.
Proof.
  intros Hb Ht. unfold engine_ids, resting_ids, pending_ids. by rewrite Hb, Ht.
Qed.

Lemma ensure_book_ids st sym : engine_ids (_ensure_book st sym) = engine_ids st.
Proof.
  unfold _ensure_book.
  destruct (dict_get sym (books st)) as [book|] eqn:Hget; [done|].
  unfold engine_ids, resting_ids, pending_ids.
  cbn [books triggers put_book set_books].
  rewrite (dict_set_bind_new _ sym (new_book sym) (books st) Hget).
  cbn. by rewrite app_nil_r.
Qed.

Lemma put_book_ids_sub st sym book book' :
  dict_get sym (books st) = Some book ->
  book_ids book' ⊆+ book_ids book ->
  engine_ids (put_book st sym book') ⊆+ engine_ids st.
Proof.
  intros Hget Hsub. unfold engine_ids, resting_ids, pending_ids.
  cbn [books triggers put_book set_books].
  apply submseteq_skips_r.
  by apply (dict_set_bind_sub _ sym book book').
Qed.

Lemma put_book_ids_perm st sym book book' extra :
  dict_get sym (books st) = Some book ->
  book_ids book' ≡ₚ book_ids book ++ extra ->
  engine_ids (put_book st sym book') ≡ₚ engine_ids st ++ extra.
Proof.
  intros Hget Hperm. unfold engine_ids, resting_ids, pending_ids.
  cbn [books triggers put_book set_books].
  rewrite (dict_set_bind_perm _ sym book book' (books st) extra Hget Hperm).
  rewrite <- !app_assoc. apply Permutation_app_head, Permutation_app_comm.
Qed.

Lemma set_triggers_ids_perm st sym lst' extra :
  order_id <$> lst' ≡ₚ (order_id <$> triggers_of st sym) ++ extra ->
  engine_ids (set_triggers st (dict_set sym lst' (triggers st)))
  ≡ₚ engine_ids st ++ extra.
Proof.
  intros Hperm. unfold engine_ids, resting_ids, pending_ids, triggers_of in *.
  cbn [books triggers set_triggers]. rewrite <- app_assoc.
  apply Permutation_app_head.
  destruct (dict_get sym (triggers st)) as [lst|] eqn:Hget; cbn in Hperm.
  - by apply (dict_set_bind_perm _ sym lst lst').
  - rewrite (dict_set_bind_new _ sym lst' (triggers st) Hget).
    by apply Permutation_app_head.
Qed.

Lemma set_triggers_ids_sub st sym lst' :
  order_id <$> lst' ⊆+ order_id <$> triggers_of st sym ->
  engine_ids (set_triggers st (dict_set sym lst' (triggers st)))
  ⊆+ engine_ids st.
Proof.
  intros Hsub. unfold engine_ids, resting_ids, pending_ids, triggers_of in *.
  cbn [books triggers set_triggers]. apply submseteq_skips_l.
  destruct (dict_get sym (triggers st)) as [lst|] eqn:Hget; cbn in Hsub.
  - by apply (dict_set_bind_sub _ sym lst lst').
  - rewrite (dict_set_bind_new _ sym lst' (triggers st) Hget).
    apply submseteq_nil_r in Hsub. apply fmap_nil_inv in Hsub. subst lst'.
    cbn. by rewrite app_nil_r.
Qed.

Lemma match_incoming_id b incoming :
  order_id (match_ b incoming).1.2 = order_id incoming.
Proof. destruct (match_effects b incoming) as (_ & -> & _). done. Qed.

(** Matching an order, recording the trades and resting the residual:
    the common end of [submit_order] and [_submit_activated]. *)
Lemma match_and_rest_ids st sym now book incoming :
  dict_get sym (books st) = Some book ->
  sd_sorted (_get_side_book book (opposite (side incoming))) ->
  let m := match_ book incoming in
  let rec := _record_trades (put_book st sym m.1.1) sym now m.2 in
  engine_ids rec.1 ⊆+ engine_ids st
  /\ forall book2,
       add_limit m.1.1 m.1.2 = Ok book2 ->
       engine_ids (put_book rec.1 sym book2)
       ⊆+ (engine_ids st ++ [order_id incoming]).
Proof.
  intros Hget Hsorted m rec.
  pose proof (match_book_ids_sub book incoming Hsorted) as Hsub.
  fold m in Hsub.
  destruct (record_trades_frame sym now m.2 (put_book st sym m.1.1))
    as (Hbooks & Htrig & _).
  fold rec in Hbooks, Htrig.
  assert (Hrec : engine_ids rec.1 ⊆+ engine_ids st).
  { rewrite (engine_ids_frame _ _ Hbooks Htrig).
    by apply (put_book_ids_sub st sym book). }
  split; [done|]. intros book2 Hadd.
  rewrite (put_book_ids_perm rec.1 sym m.1.1 book2 [order_id m.1.2]).
  - unfold m. rewrite match_incoming_id. by apply submseteq_skips_r.
  - rewrite Hbooks. cbn. apply dict_get_set_same.
  - by apply add_limit_book_ids.
Qed.

Lemma book_inv_sorted book s : book_inv book -> sd_sorted (_get_side_book book s).
Proof. intros [Hsorted _]. apply Hsorted. Qed.

Lemma submit_order_engine_ids st req now :
  books_all book_inv (books st) ->
  engine_ids (submit_order st req now).1
  ⊆+ (engine_ids st ++ [next_id "ord" (id_counter st)]).
Proof.
  intros Hinv. unfold submit_order.
  set (sym := req_symbol req). set (st0 := _ensure_book st sym).
  assert (Hc0 : id_counter st0 = id_counter st) by apply ensure_book_counter.
  rewrite Hc0.
  set (st1 := set_id_counter st0 (S (id_counter st))).
  set (order := mkOrder _ _ _ _ _ _ _ _ _ _ _ _).
  assert (Hids1 : engine_ids st1 = engine_ids st) by apply ensure_book_ids.
  assert (Hinv1 : books_all book_inv (books st1)).
  { change (books st1) with (books (_ensure_book st sym)).
    apply (ensure_book_all book_inv (books_all book_inv));
      [apply books_all_set|apply book_inv_new|done]. }
  destruct (dict_get sym (books st1)) as [book|] eqn:Hget.
  2:{ cbn [fst]. rewrite Hids1. by apply submseteq_inserts_r. }
  pose proof (books_all_get _ _ _ _ Hinv1 Hget) as Hbook.
  destruct (is_trigger_type (type order)).
  { cbn [fst].
    change (engine_ids (set_order_symbol_index ?s _)) with (engine_ids s).
    rewrite (set_triggers_ids_perm st1 sym _ [order_id order]).
    - by rewrite Hids1.
    - by rewrite fmap_app. }
  destruct (_ && negb _).
  { cbn [fst]. rewrite Hids1. by apply submseteq_inserts_r. }
  destruct (match_and_rest_ids st1 sym now book order Hget
              (book_inv_sorted _ _ Hbook)) as [Hrec Hrest].
  destruct (match_ book order) as [[book1 order1] raw]. cbn [fst snd] in *.
  destruct (_record_trades (put_book st1 sym book1) sym now raw)
    as [st3 trades].
  cbn [fst snd] in *. rewrite Hids1 in Hrec, Hrest.
  destruct (_ && _).
  - destruct (add_limit book1 order1) as [book2|e] eqn:Hadd; cbn [fst].
    + change (engine_ids (set_order_symbol_index ?s _)) with (engine_ids s).
      by apply Hrest.
    + by apply submseteq_inserts_r.
  - cbn [fst]. by apply submseteq_inserts_r.
Qed.

Lemma pop_first_id_perm oid lst od lst' :
  pop_first_id oid lst = Some (od, lst') -> lst ≡ₚ od :: lst'.
Proof.
  revert lst'. induction lst as [|x lst IH]; intros lst'; cbn [pop_first_id];
    [done|].
  case_decide; [by intros [= -> ->]|].
  destruct (pop_first_id oid lst) as [[found rest]|]; [|done].
  intros [= -> <-]. rewrite (IH rest eq_refl). apply perm_swap.
Qed.

Lemma cancel_trigger_scan_ids oid tg :
  (cancel_trigger_scan oid tg).1 ≫= (fun '(_, lst) => order_id <$> lst)
  ⊆+ tg ≫= (fun '(_, lst) => order_id <$> lst).
Proof.
  induction tg as [|[sym lst] tg IH]; cbn [cancel_trigger_scan]; [done|].
  destruct (pop_first_id oid lst) as [[od lst']|] eqn:Hpop.
  - cbn [fst]. rewrite !bind_cons. apply submseteq_skips_r.
    rewrite (pop_first_id_perm _ _ _ _ Hpop), fmap_cons.
    by apply submseteq_cons.
  - destruct (cancel_trigger_scan oid tg) as [tg' r]. cbn [fst] in *.
    rewrite !bind_cons. by apply submseteq_skips_l.
Qed.

Lemma cancel_order_engine_ids st oid :
  engine_ids (cancel_order st oid).1 ⊆+ engine_ids st.
Proof.
  unfold cancel_order.
  assert (Hscan : engine_ids (let '(tg, r) :=
                                cancel_trigger_scan oid (triggers st) in
                              (set_triggers st tg, Ok r)).1
                  ⊆+ engine_ids st).
  { pose proof (cancel_trigger_scan_ids oid (triggers st)) as Hsub.
    destruct (cancel_trigger_scan oid (triggers st)) as [tg r].
    cbn [fst] in *. unfold engine_ids, resting_ids, pending_ids.
    cbn [books triggers set_triggers]. by apply submseteq_skips_l. }
  destruct (order_symbol_index st !! oid) as [[|c sym]|]; [done| |done].
  destruct (dict_get _ (books st)) as [book|] eqn:Hget; [|done].
  pose proof (remove_order_book_ids book oid) as Hsub.
  destruct (remove_order book oid) as [book1 [removed|]]; cbn [fst] in *.
  - change (engine_ids (set_order_symbol_index ?s _)) with (engine_ids s).
    by apply (put_book_ids_sub st _ book).
  - by apply (put_book_ids_sub st _ book).
Qed.

Lemma scan_one_id ltp bid ask od od' hit :
  scan_one ltp bid ask od = Ok (od', hit) -> order_id od' = order_id od.
Proof.
  destruct hit.
  - intros [_ ->]%scan_one_due. unfold scanned. by case_decide.
  - by intros ->%scan_one_keeps.
Qed.

Lemma scan_triggers_ids ltp bid ask : forall pending,
  order_id <$> (scan_triggers ltp bid ask pending).1 = order_id <$> pending.
Proof.
  induction pending as [|x rest IH]; cbn [scan_triggers]; [done|].
  destruct (scan_one ltp bid ask x) as [[x1 hit]|e] eqn:Hx; [|done].
  destruct (scan_triggers ltp bid ask rest) as [rest1 r]. cbn [fst] in *.
  rewrite !fmap_cons, IH. f_equal. by eapply scan_one_id.
Qed.

Lemma list_remove_first_perm od lst :
  od ∈ lst -> lst ≡ₚ od :: list_remove_first od lst.
Proof.
  induction lst as [|x lst IH]; cbn [list_remove_first].
  { intros Hin. by apply elem_of_nil in Hin. }
  case_decide as Hx; [by subst|].
  intros [->|Hin]%elem_of_cons; [done|].
  rewrite (IH Hin) at 1. apply perm_swap.
Qed.

Lemma submit_activated_triggers st sym od now :
  triggers (_submit_activated st sym od now).1 = triggers st.
Proof.
  unfold _submit_activated.
  destruct (dict_get sym (books st)) as [book|]; [|done].
  destruct (match_ book od) as [[book1 od1] raw].
  destruct (record_trades_frame sym now raw (put_book st sym book1))
    as (_ & Htrig & _).
  destruct (_record_trades (put_book st sym book1) sym now raw) as [st2 trs].
  cbn [fst snd] in *.
  destruct (_ && _); [|done].
  by destruct (add_limit book1 od1).
Qed.

Lemma submit_activated_engine_ids st sym od now :
  books_all book_inv (books st) ->
  engine_ids (_submit_activated st sym od now).1
  ⊆+ (engine_ids st ++ [order_id od]).
Proof.
  intros Hinv. unfold _submit_activated.
  destruct (dict_get sym (books st)) as [book|] eqn:Hget.
  2:{ by apply submseteq_inserts_r. }
  pose proof (books_all_get _ _ _ _ Hinv Hget) as Hbook.
  destruct (match_and_rest_ids st sym now book od Hget
              (book_inv_sorted _ _ Hbook)) as [Hrec Hrest].
  destruct (match_ book od) as [[book1 od1] raw]. cbn [fst snd] in *.
  destruct (_record_trades (put_book st sym book1) sym now raw)
    as [st2 trades].
  cbn [fst snd] in *.
  destruct (_ && _).
  - destruct (add_limit book1 od1) as [book2|e] eqn:Hadd; cbn [fst].
    + change (engine_ids (set_order_symbol_index ?s _)) with (engine_ids s).
      by apply Hrest.
    + by apply submseteq_inserts_r.
  - cbn [fst]. by apply submseteq_inserts_r.
Qed.

Lemma activation_type_id od : order_id (activation_type od) = order_id od.
Proof. unfold activation_type. by destruct (_ && _). Qed.

Lemma triggers_of_set st sym lst :
  triggers_of (set_triggers st (dict_set sym lst (triggers st))) sym = lst.
Proof.
  unfold triggers_of. cbn [triggers set_triggers].
  by rewrite dict_get_set_same.
Qed.

Lemma set_triggers_ids_remove st sym lst' extra :
  order_id <$> triggers_of st sym ≡ₚ (order_id <$> lst') ++ extra ->
  engine_ids st
  ≡ₚ engine_ids (set_triggers st (dict_set sym lst' (triggers st))) ++ extra.
Proof.
  intros Hperm. unfold engine_ids, resting_ids, pending_ids, triggers_of in *.
  cbn [books triggers set_triggers]. rewrite <- app_assoc.
  apply Permutation_app_head.
  destruct (dict_get sym (triggers st)) as [lst|] eqn:Hget; cbn in Hperm.
  - by apply (dict_set_bind_perm_rev _ sym lst lst').
  - rewrite (dict_set_bind_new _ sym lst' (triggers st) Hget).
    symmetry in Hperm. apply Permutation_nil_r in Hperm.
    apply app_eq_nil in Hperm as [Hl ->]. rewrite Hl. by rewrite !app_nil_r.
Qed.

(** Activating a pending order moves its id, at most, from the triggers
    to the book. *)
Lemma activate_one_engine_ids st sym od now :
  books_all book_inv (books st) -> od ∈ triggers_of st sym ->
  engine_ids (activate_one st sym od now).1 ⊆+ engine_ids st
  /\ triggers_of (activate_one st sym od now).1 sym
     = list_remove_first od (triggers_of st sym).
Proof.
  intros Hinv Hin. unfold activate_one.
  set (st1 := set_triggers st _).
  split.
  - etrans; [apply (submit_activated_engine_ids st1); done|].
    rewrite activation_type_id.
    apply Permutation_submseteq. symmetry.
    apply set_triggers_ids_remove.
    rewrite (list_remove_first_perm od _ Hin) at 1.
    rewrite fmap_cons. apply (Permutation_cons_append _ (order_id od)).
  - unfold triggers_of at 1. rewrite submit_activated_triggers.
    apply triggers_of_set.
Qed.

Lemma submit_activated_inv st sym od now :
  books_all book_inv (books st) ->
  books_all book_inv (books (_submit_activated st sym od now).1).
Proof.
  apply (submit_activated_all book_inv (books_all book_inv)).
  - apply books_all_set.
  - apply books_all_get.
  - apply book_inv_match.
  - apply rest_of_match_add; [apply book_inv_match|apply book_inv_add].
Qed.

Lemma activate_all_engine_ids sym now acts : forall st,
  books_all book_inv (books st) -> acts ⊆+ triggers_of st sym ->
  engine_ids (activate_all st sym acts now).1 ⊆+ engine_ids st.
Proof.
  induction acts as [|od acts IH]; intros st Hinv Hacts; cbn [activate_all];
    [done|].
  assert (Hin : od ∈ triggers_of st sym).
  { apply (elem_of_submseteq (od :: acts)); [left|done]. }
  destruct (activate_one_engine_ids st sym od now Hinv Hin) as [Hids Htrig].
  assert (Hinv1 : books_all book_inv (books (activate_one st sym od now).1)).
  { unfold activate_one. by apply submit_activated_inv. }
  assert (Hrest : acts ⊆+ triggers_of (activate_one st sym od now).1 sym).
  { rewrite Htrig. apply (submseteq_app_inv_l _ _ [od]). cbn.
    by rewrite <- (list_remove_first_perm od _ Hin). }
  destruct (activate_one st sym od now) as [st1 [[]|e]]; cbn [fst] in *.
  - etrans; [by apply IH|done].
  - done.
Qed.

Lemma default_triggers_ids st sym :
  engine_ids (set_triggers st (dict_default sym [] (triggers st)))
  = engine_ids st.
Proof.
  unfold engine_ids, resting_ids, pending_ids, dict_default.
  cbn [books triggers set_triggers].
  destruct (dict_get sym (triggers st)); [done|].
  rewrite bind_app. cbn. by rewrite app_nil_r.
Qed.

Lemma process_triggers_engine_ids st sym now :
  books_all book_inv (books st) ->
  engine_ids (process_triggers st sym now).1 ⊆+ engine_ids st.
Proof.
  intros Hinv. unfold process_triggers.
  destruct (dict_get sym (books st)) as [book|]; [|done].
  destruct (best_prices book) as [bid ask].
  set (st1 := set_triggers st (dict_default sym [] (triggers st))).
  pose proof (scan_triggers_ids (last_trade_price book) bid ask
                (triggers_of st1 sym)) as Hscan.
  pose proof (scan_triggers_pending (last_trade_price book) bid ask
                (triggers_of st1 sym)) as Hpending.
  destruct (scan_triggers _ _ _ (triggers_of st1 sym)) as [pending r].
  cbn [fst] in Hscan.
  set (st2 := set_triggers st1 (dict_set sym pending (triggers st1))).
  assert (Hids2 : engine_ids st2 ⊆+ engine_ids st).
  { unfold st2. etrans.
    - apply set_triggers_ids_sub. by rewrite Hscan.
    - unfold st1. by rewrite default_triggers_ids. }
  destruct r as [acts|e]; [|done].
  destruct (Hpending pending acts eq_refl) as [_ Hsub].
  etrans; [|exact Hids2].
  apply activate_all_engine_ids; [done|].
  unfold st2. rewrite triggers_of_set. by apply sublist_submseteq.
Qed.
End EngineIds.

Lemma live_books_inv (st : MatchingEngine) :
  reachable_live st -> books_all book_inv (books st).
Proof.
  apply live_books_all.
  - apply book_inv_new.
  - apply book_inv_match.
  - apply rest_of_match_add; [apply book_inv_match|apply book_inv_add].
  - apply book_inv_remove.
Qed.

Lemma live_ids_ok (st : MatchingEngine) : reachable_live st -> ids_ok st.
Proof.
  induction 1 as [mr tf lim n|st req now Hlive IH|st oid Hlive IH
                  |st sym now Hlive IH].
  - split; [apply NoDup_nil_2|constructor].
  - pose proof (live_books_inv st Hlive) as Hinv.
    destruct (submit_order_counter st req now) as [Hlt _]. cbn zeta in Hlt.
    apply (ids_ok_step st _ [next_id "ord" (id_counter st)]); try done.
    + by apply submit_order_engine_ids.
    + apply NoDup_singleton.
    + intros id ->%list_elem_of_singleton. split.
      * apply fresh_id, IH.
      * by exists (id_counter st).
    + lia.
  - apply (ids_ok_step st _ []); try done.
    + rewrite app_nil_r. apply cancel_order_engine_ids.
    + apply NoDup_nil_2.
    + intros id Hid. by apply elem_of_nil in Hid.
    + by rewrite cancel_order_counter.
  - apply (ids_ok_step st _ []); try done.
    + rewrite app_nil_r. by apply process_triggers_engine_ids, live_books_inv.
    + apply NoDup_nil_2.
    + intros id Hid. by apply elem_of_nil in Hid.
    + apply process_triggers_counter.
Qed.

(** X19. In a state reached from a new engine by [submit_order],
    [cancel_order] and [process_triggers], no two live orders (resting on
    a book or pending in a triggers list) share an id, every live id was
    handed out by [next_id] at a counter below the current one, and the id
    that the next submission takes is not the id of a live order. *)
Theorem live_ids_unique (st : MatchingEngine) :
  reachable_live st ->
  NoDup (engine_ids st)
  /\ (forall id, id ∈ engine_ids st ->
        exists k, (k < id_counter st)%nat /\ id = next_id "ord" k)
  /\ next_id "ord" (id_counter st) ∉ engine_ids st.
Proof.
  intros Hlive. destruct (live_ids_ok st Hlive) as [Hnd Hminted].
  split_and!; [done| |by apply fresh_id].
  intros id Hid. rewrite Forall_forall in Hminted. by apply Hminted.
Qed.

Lemma live_ids_unique_witness :
  reachable_live engine_take_profit
  /\ NoDup (engine_ids engine_take_profit)
  /\ (forall id, id ∈ engine_ids engine_take_profit ->
        exists k, (k < id_counter engine_take_profit)%nat
                  /\ id = next_id "ord" k)
  /\ next_id "ord" (id_counter engine_take_profit)
     ∉ engine_ids engine_take_profit.
Proof.
  assert (Hlive : reachable_live engine_take_profit).
  { do 3 apply live_submit.
    apply (live_new (- DEC_UNIT) (25 * DEC_UNIT / 10)). }
  split; [exact Hlive|exact (live_ids_unique _ Hlive)].
Defined.
